(** * time-travel: the dilation field, reversible commands, movement paths
      and the rewind/branch protocol of [time_travel.py] and [main.py]

    Python floats are read as real numbers: every comparison, [min], [max]
    and arithmetic step of the source is kept, rounding is not modelled.
    [pygame.Vector2] is a pair of reals.  A Python exception is [None] in
    the [option] monad. *)

From Stdlib Require Import Reals Lra Lia ZArith.
From stdpp Require Import gmap list sorting.

#[local] Open Scope R_scope.

#[global] Instance Rlt_decision (x y : R) : Decision (x < y) := Rlt_dec x y.
#[global] Instance Rle_decision (x y : R) : Decision (x <= y) := Rle_dec x y.
#[global] Instance Req_decision : EqDecision R := Req_dec_T.

(** ** Vectors ([pygame.Vector2]) *)

Definition Vec : Type := (R * R)%type.

Definition vadd (a b : Vec) : Vec := (a.1 + b.1, a.2 + b.2).
Definition vsub (a b : Vec) : Vec := (a.1 - b.1, a.2 - b.2).
Definition vscale (a : Vec) (k : R) : Vec := (a.1 * k, a.2 * k).
Definition vlength_squared (a : Vec) : R := a.1 * a.1 + a.2 * a.2.
Definition vlength (a : Vec) : R := sqrt (vlength_squared a).

(** [Vector2.lerp]: [self * (1 - t) + other * t], coordinate by coordinate. *)
Definition lerp (a b : Vec) (t : R) : Vec :=
  (a.1 * (1 - t) + b.1 * t, a.2 * (1 - t) + b.2 * t).

(** [Vector2.normalize]. *)
Definition normalize (a : Vec) : Vec := vscale a (/ vlength a).

(** Truth value of a vector: [Vector2(0, 0)] is falsy. *)
Definition vec_truthy (a : Vec) : bool :=
  if Req_dec_T a.1 0 then (if Req_dec_T a.2 0 then false else true) else true.

(** ** time_travel.py: [get_time_factor] *)

(** [x ** y] on floats with [0 <= x]: [0.0 ** y] is [0.0] for a positive
    [y] and [1.0] for [y = 0]; elsewhere it is [exp (y * ln x)]. *)
Definition float_pow (x y : R) : R :=
  if Req_dec_T x 0 then (if Req_dec_T y 0 then 1 else 0) else Rpower x y.

Definition default_exponent : R := 23 / 10.

Definition get_time_factor (pos time_center : Vec) (max_radius exponent : R) : R :=
  let dist := vlength (vsub pos time_center) in
  let t := Rmin (dist / max_radius) 1 in
  float_pow (1 - t) exponent.

(** The field every caller uses: centre (400, 300), radius 500, default exponent. *)
Definition field_center : Vec := (400, 300).
Definition field_radius : R := 500.
Definition time_factor_at (pos : Vec) : R :=
  get_time_factor pos field_center field_radius default_exponent.

(** ** time_travel.py: [MovementComponent] *)

Definition Path : Type := list (R * Vec).

Definition add_step (path : Path) (scheduled_time : R) (pos : Vec) : Path :=
  path ++ [(scheduled_time, pos)].

(** The [for next_time, next_pos in self.path[1:]] loop of [get_pos],
    with the running [prev_time, prev_pos]. *)
Fixpoint get_pos_loop (prev : R * Vec) (rest : Path) (query_time : R) : Vec :=
  match rest with
  | [] => prev.2
  | next :: rest' =>
      if Rle_dec query_time next.1 then
        let alpha :=
          if Rlt_dec prev.1 next.1
          then (query_time - prev.1) / (next.1 - prev.1)
          else 0 in
        let alpha := Rmax 0 (Rmin 1 alpha) in
        lerp prev.2 next.2 alpha
      else get_pos_loop next rest' query_time
  end.

Definition get_pos (path : Path) (query_time : R) : option Vec :=
  match path with
  | [] => None
  | first :: rest => Some (get_pos_loop first rest query_time)
  end.

(** The [while t < until_time] loop of [ensure_path]; [fuel] bounds the
    number of iterations. *)
Fixpoint ensure_path_loop (fuel : nat) (until_time step_size : R) (velocity : Vec)
    (t : R) (last_pos : Vec) (path : Path) : Path :=
  match fuel with
  | O => path
  | S fuel' =>
      if Rlt_dec t until_time then
        let t' := t + step_size in
        let time_factor := time_factor_at last_pos in
        let last_pos' := vadd last_pos (vscale (vscale velocity step_size) time_factor) in
        ensure_path_loop fuel' until_time step_size velocity t' last_pos'
          (path ++ [(t', last_pos')])
      else path
  end.

(** Iterations the loop needs from time [t] (for a positive step it is
    more than [(until_time - t) / step_size]). *)
Definition ensure_path_fuel (until_time step_size t : R) : nat :=
  Z.to_nat (up ((until_time - t) / step_size)).

Definition ensure_path (path : Path) (until_time step_size : R)
    (start_pos velocity : Vec) : Path :=
  let last_time := match last path with Some s => s.1 | None => 0 end in
  let last_pos := match last path with Some s => s.2 | None => start_pos end in
  ensure_path_loop (ensure_path_fuel until_time step_size last_time)
    until_time step_size velocity last_time last_pos path.

(** ** time_travel.py: [Command]

    Commands are Python objects shared by [world.global_commands] and
    [world.permanent_command_log]; both lists hold references into one
    store, so a flag set through one list is seen through the other. *)

Definition cmd_ref : Type := nat.

(** The functions the program passes as [forward_fn] / [backward_fn]. *)
Inductive Fn := shoot_bullet | undo_bullet.

(** The [data] dictionaries the program builds: the one of [Player.shoot]
    (keys pos, velocity, bullet_id; [max_lifetime] is looked up with
    [data.get] and may be absent) and the one of a recorded move (keys
    entity_type, pos, scheduled_time, timeline_id). *)
Inductive Data :=
| ShootData (pos velocity : Vec) (bullet_id : Z) (max_lifetime : option R)
| MoveData (pos : Vec) (scheduled_time : R) (timeline_id : nat).

Definition data_pos (d : Data) : Vec :=
  match d with ShootData p _ _ _ => p | MoveData p _ _ => p end.

(** [data.get("max_lifetime", 2.5)]. *)
Definition data_max_lifetime (d : Data) : R :=
  match d with
  | ShootData _ _ _ (Some m) => m
  | _ => 25 / 10
  end.

(** The optional attribute [type] of a command. *)
Inductive CommandType := player_move.

Record Command := mkCommand {
  cmd_data : Data;
  forward_fn : option Fn;           (* [None] for recorded moves *)
  backward_fn : option Fn;
  scheduled_time : R;
  executed : bool;
  origin_timeline : nat;
  ghosted_timelines : gset nat;
  cmd_type : option CommandType
}.

Definition set_executed (b : bool) (c : Command) : Command :=
  mkCommand (cmd_data c) (forward_fn c) (backward_fn c) (scheduled_time c) b
    (origin_timeline c) (ghosted_timelines c) (cmd_type c).

Definition add_ghosted (tid : nat) (c : Command) : Command :=
  mkCommand (cmd_data c) (forward_fn c) (backward_fn c) (scheduled_time c) (executed c)
    (origin_timeline c) ({[tid]} ∪ ghosted_timelines c) (cmd_type c).

(** [getattr(cmd.forward_fn, "__name__", "") == "shoot_bullet"]. *)
Definition is_shoot (c : Command) : bool :=
  match forward_fn c with Some shoot_bullet => true | _ => false end.

(** [getattr(cmd, "type", None) == "player_move"]. *)
Definition is_player_move (c : Command) : bool :=
  match cmd_type c with Some player_move => true | None => false end.

(** ** Entities: [TimeEntity] and its subclasses

    [command_queue] stays empty in this program ([queue_command] has no
    caller), so both cursor loops of [TimeEntity.update] fall through at
    once; the records keep the clock. *)

Definition Color : Type := (Z * Z * Z)%type.

Record TimeEntity := mkTimeEntity {
  pos : option Vec;                 (* [None] once [get_pos] returned None *)
  color : Color;
  local_time : R;
  max_lifetime : option R;          (* [None] is [float('inf')] *)
  initial_pos : Vec
}.

Definition TimeEntity_init (p : Vec) (c : Color) (ml : option R) : TimeEntity :=
  mkTimeEntity (Some p) c 0 ml p.

Definition set_pos (p : option Vec) (e : TimeEntity) : TimeEntity :=
  mkTimeEntity p (color e) (local_time e) (max_lifetime e) (initial_pos e).
Definition set_local_time (t : R) (e : TimeEntity) : TimeEntity :=
  mkTimeEntity (pos e) (color e) t (max_lifetime e) (initial_pos e).
Definition set_color (c : Color) (e : TimeEntity) : TimeEntity :=
  mkTimeEntity (pos e) c (local_time e) (max_lifetime e) (initial_pos e).

(** [TimeEntity.update]; a [None] position makes [get_time_factor] raise. *)
Definition TimeEntity_update (dt : R) (rewinding : bool) (e : TimeEntity)
    : option TimeEntity :=
  p ← pos e;
  let time_factor := time_factor_at p in
  let local_dt := if rewinding then - dt else dt in
  let lt := local_time e + local_dt * time_factor in
  Some (set_local_time (Rmax lt 0) e).

Record Timer := mkTimer { timer_base : TimeEntity; count : R }.

Definition Timer_init (p : Vec) : Timer :=
  mkTimer (TimeEntity_init p (255, 255, 0)%Z None) 0.

Definition Timer_update (dt : R) (rewinding : bool) (t : Timer) : option Timer :=
  e ← TimeEntity_update dt rewinding (timer_base t);
  Some (mkTimer e (Rmax (local_time e) 0)).

Record Bullet := mkBullet {
  bullet_base : TimeEntity;
  velocity : Vec;
  bullet_id : Z;
  bullet_movement : Path
}.

Definition bullet_default_lifetime : R := 14 / 10.

Definition Bullet_init (p vel : Vec) (id : Z) (ml : R) : Bullet :=
  mkBullet (TimeEntity_init p (255, 200, 50)%Z (Some ml)) vel id
    (ensure_path [] ml (5 / 100) p vel).

Definition Bullet_update (dt : R) (rewinding : bool) (b : Bullet) : option Bullet :=
  e ← TimeEntity_update dt rewinding (bullet_base b);
  Some (mkBullet (set_pos (get_pos (bullet_movement b) (local_time e)) e)
          (velocity b) (bullet_id b) (bullet_movement b)).

Record GhostBullet := mkGhostBullet {
  ghost_bullet : Bullet;            (* the [Bullet] part *)
  spawn_time : R;
  gb_timeline_id : nat;
  gb_cmd_ref : option cmd_ref       (* the attribute [cmd_ref], when set *)
}.

Definition GhostBullet_update_pos (global_time : R) (g : GhostBullet) : GhostBullet :=
  let b := ghost_bullet g in
  let lt := Rmax 0 (global_time - spawn_time g) in
  mkGhostBullet
    (mkBullet (set_pos (get_pos (bullet_movement b) lt) (set_local_time lt (bullet_base b)))
       (velocity b) (bullet_id b) (bullet_movement b))
    (spawn_time g) (gb_timeline_id g) (gb_cmd_ref g).

Definition ghost_default_lifetime : R := 25 / 10.

Definition GhostBullet_init (spawn : R) (p vel : Vec) (global_time ml : R)
    (c : Color) (timeline_id : nat) : GhostBullet :=
  let b := Bullet_init p vel (-1) ml in
  let b := mkBullet (set_color c (bullet_base b)) (velocity b) (bullet_id b)
             (bullet_movement b) in
  GhostBullet_update_pos global_time (mkGhostBullet b spawn timeline_id None).

Definition GhostBullet_update (global_time : R) (g : GhostBullet) : GhostBullet :=
  if Rlt_dec global_time (spawn_time g) then g
  else GhostBullet_update_pos global_time g.

Record GhostPlayer := mkGhostPlayer {
  gp_base : TimeEntity;
  gp_movement : Path;
  gp_timeline_id : nat
}.

(** [movement_path[0][1]] raises IndexError on an empty path. *)
Definition GhostPlayer_init (movement_path : Path) (c : Color) (timeline_id : nat)
    : option GhostPlayer :=
  first ← head movement_path;
  Some (mkGhostPlayer (TimeEntity_init first.2 c None) movement_path timeline_id).

Definition GhostPlayer_update (global_time : R) (g : GhostPlayer) : GhostPlayer :=
  mkGhostPlayer
    (set_pos (get_pos (gp_movement g) global_time) (set_local_time global_time (gp_base g)))
    (gp_movement g) (gp_timeline_id g).

Record Player := mkPlayer {
  player_base : TimeEntity;
  shoot_cooldown : R;
  last_shot_time : R;
  move_speed : R;
  player_movement : Path
}.

Definition Player_init (p : Vec) : Player :=
  mkPlayer (TimeEntity_init p (80, 220, 100)%Z None) (15 / 100) 0 170 [(0, p)].

Definition Player_update (dt : R) (rewinding : bool) (p : Player) : option Player :=
  let e := set_pos (get_pos (player_movement p) (local_time (player_base p))) (player_base p) in
  e' ← TimeEntity_update dt rewinding e;
  Some (mkPlayer e' (shoot_cooldown p) (last_shot_time p) (move_speed p) (player_movement p)).

Definition can_shoot (p : Player) : bool :=
  if Rle_dec (shoot_cooldown p) (local_time (player_base p) - last_shot_time p)
  then true else false.

(** An element of [world.entities].  [EPlayer] is the reference to the one
    [player] object, which the main loop also reaches by name. *)
Inductive Entity :=
| EPlayer
| ETimer (t : Timer)
| EBullet (b : Bullet)
| EGhostBullet (g : GhostBullet)
| EGhostPlayer (g : GhostPlayer).

(** ** time_travel.py: [GameWorld]

    [world.timers] is never filled by main.py (its timers go to
    [world.entities]), so the field and its loop are left out. *)

Record GameWorld := mkGameWorld {
  entities : list Entity;
  global_commands : list cmd_ref;
  permanent_command_log : list cmd_ref;
  last_global_time : R;
  global_time : R;
  rewinding : bool;
  current_timeline_id : nat;
  next_timeline_id : nat
}.

Definition set_entities (es : list Entity) (w : GameWorld) : GameWorld :=
  mkGameWorld es (global_commands w) (permanent_command_log w) (last_global_time w)
    (global_time w) (rewinding w) (current_timeline_id w) (next_timeline_id w).
Definition set_global_commands (l : list cmd_ref) (w : GameWorld) : GameWorld :=
  mkGameWorld (entities w) l (permanent_command_log w) (last_global_time w)
    (global_time w) (rewinding w) (current_timeline_id w) (next_timeline_id w).
Definition set_permanent_command_log (l : list cmd_ref) (w : GameWorld) : GameWorld :=
  mkGameWorld (entities w) (global_commands w) l (last_global_time w)
    (global_time w) (rewinding w) (current_timeline_id w) (next_timeline_id w).
Definition set_times (last now : R) (w : GameWorld) : GameWorld :=
  mkGameWorld (entities w) (global_commands w) (permanent_command_log w) last
    now (rewinding w) (current_timeline_id w) (next_timeline_id w).
Definition set_rewinding (b : bool) (w : GameWorld) : GameWorld :=
  mkGameWorld (entities w) (global_commands w) (permanent_command_log w) (last_global_time w)
    (global_time w) b (current_timeline_id w) (next_timeline_id w).
Definition set_timeline_ids (current next : nat) (w : GameWorld) : GameWorld :=
  mkGameWorld (entities w) (global_commands w) (permanent_command_log w) (last_global_time w)
    (global_time w) (rewinding w) current next.

Definition GameWorld_init : GameWorld := mkGameWorld [] [] [] 0 0 false 0 1.

(** ** main.py: [shoot_bullet] and [undo_bullet] *)

(** [isinstance(e, Bullet)] with its [bullet_id]; a [GhostBullet] is a
    [Bullet] too. *)
Definition entity_bullet_id (e : Entity) : option Z :=
  match e with
  | EBullet b => Some (bullet_id b)
  | EGhostBullet g => Some (bullet_id (ghost_bullet g))
  | _ => None
  end.

Definition has_bullet_id (id : Z) (e : Entity) : bool :=
  match entity_bullet_id e with
  | Some i => bool_decide (i = id)
  | None => false
  end.

(** Remove the first element that satisfies [P] (a loop with [remove] and [break]). *)
Fixpoint remove_first {A} (P : A → bool) (l : list A) : list A :=
  match l with
  | [] => []
  | x :: l' => if P x then l' else x :: remove_first P l'
  end.

(** [data["velocity"]] and [data["bullet_id"]] raise KeyError on a move payload. *)
Definition shoot_bullet_fn (w : GameWorld) (d : Data) : option GameWorld :=
  match d with
  | ShootData p v id _ =>
      Some (set_entities (entities w ++ [EBullet (Bullet_init p v id bullet_default_lifetime)]) w)
  | MoveData _ _ _ => None
  end.

(** [data.get("bullet_id")] is [None] on a move payload and matches no bullet. *)
Definition undo_bullet_fn (w : GameWorld) (d : Data) : option GameWorld :=
  match d with
  | ShootData _ _ id _ => Some (set_entities (remove_first (has_bullet_id id) (entities w)) w)
  | MoveData _ _ _ => Some w
  end.

Definition apply_fn (f : Fn) : GameWorld → Data → option GameWorld :=
  match f with
  | shoot_bullet => shoot_bullet_fn
  | undo_bullet => undo_bullet_fn
  end.

(** [Command.execute] and [Command.reverse]; the target of every command of
    this program is the world.  Calling a [None] function raises TypeError. *)
Definition Command_execute (c : Command) (w : GameWorld) : option (Command * GameWorld) :=
  if executed c then Some (c, w)
  else
    f ← forward_fn c;
    w' ← apply_fn f w (cmd_data c);
    Some (set_executed true c, w').

Definition Command_reverse (c : Command) (w : GameWorld) : option (Command * GameWorld) :=
  if executed c then
    f ← backward_fn c;
    w' ← apply_fn f w (cmd_data c);
    Some (set_executed false c, w')
  else Some (c, w).

(** ** Program state: the world, the command objects, the player and the
    module-level variables of main.py *)

Definition MAX_REWINDS : Z := 3.

Record State := mkState {
  world : GameWorld;
  commands : list Command;          (* the object behind [cmd_ref] [r] is [commands !! r] *)
  player : Player;
  rewind_charges : Z;
  active_timelines : gmap nat Z;    (* a [defaultdict(int)] *)
  was_rewinding_last_frame : bool
}.

Definition set_world (w : GameWorld) (s : State) : State :=
  mkState w (commands s) (player s) (rewind_charges s) (active_timelines s)
    (was_rewinding_last_frame s).
Definition set_commands (h : list Command) (s : State) : State :=
  mkState (world s) h (player s) (rewind_charges s) (active_timelines s)
    (was_rewinding_last_frame s).
Definition set_player (p : Player) (s : State) : State :=
  mkState (world s) (commands s) p (rewind_charges s) (active_timelines s)
    (was_rewinding_last_frame s).
Definition set_rewind_charges (n : Z) (s : State) : State :=
  mkState (world s) (commands s) (player s) n (active_timelines s)
    (was_rewinding_last_frame s).
Definition set_active_timelines (m : gmap nat Z) (s : State) : State :=
  mkState (world s) (commands s) (player s) (rewind_charges s) m
    (was_rewinding_last_frame s).
Definition set_was_rewinding (b : bool) (s : State) : State :=
  mkState (world s) (commands s) (player s) (rewind_charges s) (active_timelines s) b.

(** Run a method of the command object behind [r] on the world. *)
Definition on_command (m : Command → GameWorld → option (Command * GameWorld))
    (r : cmd_ref) (s : State) : option State :=
  c ← commands s !! r;
  cw ← m c (world s);
  Some (set_world cw.2 (set_commands (<[r := cw.1]> (commands s)) s)).

(** The loop over [self.global_commands] in [GameWorld.update]. *)
Definition global_command_step (forward_progress : bool) (s : State) (r : cmd_ref)
    : option State :=
  c ← commands s !! r;
  let w := world s in
  if rewinding w && executed c && bool_decide (global_time w < scheduled_time c) then
    on_command Command_reverse r s
  else if forward_progress && negb (executed c)
          && bool_decide (scheduled_time c <= global_time w) then
    on_command Command_execute r s
  else Some s.

Fixpoint foldlM {A B} (f : B → A → option B) (b : B) (l : list A) : option B :=
  match l with
  | [] => Some b
  | x :: l' => b' ← f b x; foldlM f b' l'
  end.

Definition GameWorld_update (dt : R) (s : State) : option State :=
  let w := world s in
  let now := if rewinding w then Rmax 0 (global_time w - dt) else global_time w + dt in
  let last := if Req_dec_T now 0 then 0 else last_global_time w in
  let forward_progress := negb (rewinding w) && bool_decide (last < now) in
  let s := set_world (set_times last now w) s in
  s ← foldlM (global_command_step forward_progress) s (global_commands w);
  Some (set_world (set_times (global_time (world s)) (global_time (world s)) (world s)) s).

(** ** main.py: module-level tables *)

Definition TIMELINE_COLORS : list Color :=
  [(255, 80, 80); (60, 190, 255); (80, 255, 80); (255, 255, 80);
   (200, 80, 255); (255, 170, 60); (60, 255, 190)]%Z.

(** [TIMELINE_COLORS[tid % len(TIMELINE_COLORS)]]. *)
Definition timeline_color (tid : nat) : Color :=
  default (0, 0, 0)%Z (TIMELINE_COLORS !! (tid mod length TIMELINE_COLORS)%nat).

(** [active_timelines[tid] += d] on the [defaultdict(int)]. *)
Definition active_add (tid : nat) (d : Z) (m : gmap nat Z) : gmap nat Z :=
  <[tid := (default 0 (m !! tid) + d)%Z]> m.

(** ** main.py: [Player.shoot] *)

(** [math.atan2 y x] (signed zeros aside). *)
Definition atan2 (y x : R) : R :=
  if Rlt_dec 0 x then atan (y / x)
  else if Rlt_dec x 0 then
    (if Rle_dec 0 y then atan (y / x) + PI else atan (y / x) - PI)
  else if Rlt_dec 0 y then PI / 2
  else if Rlt_dec y 0 then - (PI / 2)
  else 0.

(** Allocate a new command object. *)
Definition alloc (c : Command) (s : State) : State * cmd_ref :=
  (set_commands (commands s ++ [c]) s, length (commands s)).

(** [player.shoot(target_pos, world)]; [id] is the value drawn by
    [random.randint(1, 1_000_000_000)]. *)
Definition Player_shoot (target_pos : Vec) (id : Z) (s : State) : option State :=
  let p := player s in
  ppos ← pos (player_base p);
  let angle := atan2 (target_pos.2 - ppos.2) (target_pos.1 - ppos.1) in
  let speed := 250 in
  let vel := vscale (cos angle, sin angle) speed in
  let bullet_data := ShootData ppos vel id None in
  let cmd := mkCommand bullet_data (Some shoot_bullet) (Some undo_bullet)
               (local_time (player_base p) + 1 / 100) false
               (current_timeline_id (world s)) ∅ None in
  let '(s, r) := alloc cmd s in
  let w := world s in
  let w := set_global_commands (global_commands w ++ [r]) w in
  let w := set_permanent_command_log (permanent_command_log w ++ [r]) w in
  s ← on_command Command_execute r (set_world w s);
  Some (set_player (mkPlayer (player_base p) (shoot_cooldown p)
                      (local_time (player_base p)) (move_speed p) (player_movement p)) s).

(** ** main.py: one pass of the game loop *)

(** What [pygame.event.get()] returns, as far as the loop looks at it. *)
Inductive Event :=
| QUIT
| KEYDOWN_r
| MOUSEBUTTONDOWN_left (mouse_pos : Vec) (random_id : Z)
| OtherEvent.

Record Input := mkInput {
  dt : R;                           (* [clock.tick(144) / 1000.0] *)
  events : list Event;
  key_w : bool; key_s : bool; key_a : bool; key_d : bool
}.

Definition handle_event (s : State) (ev : Event) : option State :=
  match ev with
  | QUIT => Some s                  (* [running = False]: this pass still completes *)
  | KEYDOWN_r =>
      let w := world s in
      if negb (rewinding w) && bool_decide (0 < rewind_charges s)%Z then
        Some (set_world (set_rewinding true w) s)
      else if rewinding w then Some (set_world (set_rewinding false w) s)
      else Some s
  | MOUSEBUTTONDOWN_left mouse_pos id =>
      if can_shoot (player s) then Player_shoot mouse_pos id s else Some s
  | OtherEvent => Some s
  end.

Definition key_axis (neg pos : bool) : R :=
  (if pos then 1 else 0) - (if neg then 1 else 0).

(** Lines 203-236: record the player's move for this pass. *)
Definition record_move (i : Input) (s : State) : option State :=
  let move_dir : Vec := (key_axis (key_a i) (key_d i), key_axis (key_w i) (key_s i)) in
  if Rlt_dec 0 (vlength_squared move_dir) then
    let p := player s in
    let move_dir := normalize move_dir in
    let step_size := dt i in
    let vel := vscale move_dir (move_speed p) in
    let lt := local_time (player_base p) in
    (* [player.movement.get_pos(player.local_time) or player.pos] *)
    curr_pos ← match get_pos (player_movement p) lt with
               | Some c => if vec_truthy c then Some c else pos (player_base p)
               | None => pos (player_base p)
               end;
    let next_pos := vadd curr_pos (vscale vel step_size) in
    let p := mkPlayer (player_base p) (shoot_cooldown p) (last_shot_time p) (move_speed p)
               (add_step (player_movement p) (lt + step_size) next_pos) in
    let move_cmd := mkCommand
                      (MoveData next_pos (lt + step_size) (current_timeline_id (world s)))
                      None None (lt + step_size) false
                      (current_timeline_id (world s)) ∅ (Some player_move) in
    let '(s, r) := alloc move_cmd (set_player p s) in
    let w := world s in
    Some (set_world (set_permanent_command_log (permanent_command_log w ++ [r]) w) s)
  else Some s.

(** [for e in world.entities: e.update(dt, world.global_time, world.rewinding)]. *)
Definition update_entity (dt global_time : R) (rewinding : bool)
    (acc : list Entity * Player) (e : Entity) : option (list Entity * Player) :=
  let '(done, p) := acc in
  match e with
  | EPlayer => p' ← Player_update dt rewinding p; Some (done ++ [EPlayer], p')
  | ETimer t => t' ← Timer_update dt rewinding t; Some (done ++ [ETimer t'], p)
  | EBullet b => b' ← Bullet_update dt rewinding b; Some (done ++ [EBullet b'], p)
  | EGhostBullet g => Some (done ++ [EGhostBullet (GhostBullet_update global_time g)], p)
  | EGhostPlayer g => Some (done ++ [EGhostPlayer (GhostPlayer_update global_time g)], p)
  end.

Definition update_entities (dt : R) (s : State) : option State :=
  let w := world s in
  r ← foldlM (update_entity dt (global_time w) (rewinding w)) ([], player s) (entities w);
  Some (set_player r.2 (set_world (set_entities r.1 w) s)).

(** The entity's [local_time], read through the player reference. *)
Definition entity_local_time (p : Player) (e : Entity) : R :=
  match e with
  | EPlayer => local_time (player_base p)
  | ETimer t => local_time (timer_base t)
  | EBullet b => local_time (bullet_base b)
  | EGhostBullet g => local_time (bullet_base (ghost_bullet g))
  | EGhostPlayer g => local_time (gp_base g)
  end.

(** [is_obsolete]: a [Bullet] instance whose local time is negative. *)
Definition is_obsolete (e : Entity) : bool :=
  match e with
  | EBullet b => bool_decide (local_time (bullet_base b) < 0)
  | EGhostBullet g => bool_decide (local_time (bullet_base (ghost_bullet g)) < 0)
  | _ => false
  end.

Definition drop_obsolete (s : State) : State :=
  let w := world s in
  if rewinding w then s
  else set_world (set_entities (filter (λ e, is_obsolete e = false) (entities w)) w) s.

(** ** main.py: [prune_future_bullet_spawns] and [prune_future_player_moves] *)

(** The test both functions apply to a command of the log. *)
Definition to_ghost (time_point : R) (new_timeline_id just_overwritten : nat)
    (c : Command) : bool :=
  bool_decide (origin_timeline c = just_overwritten)
  && bool_decide (time_point < scheduled_time c)
  && bool_decide (new_timeline_id ∉ ghosted_timelines c).

(** One iteration of the loop of [prune_future_bullet_spawns]; the
    accumulator carries [ghosts_created]. *)
Definition bullet_spawn_step (time_point : R) (new_timeline_id just_overwritten : nat)
    (acc : State * bool) (r : cmd_ref) : option (State * bool) :=
  let '(s, ghosts_created) := acc in
  c ← commands s !! r;
  if is_shoot c && to_ghost time_point new_timeline_id just_overwritten c then
    match cmd_data c with
    | ShootData p vel _ _ =>
        let w := world s in
        let ghost := GhostBullet_init (scheduled_time c) p vel (global_time w)
                       (data_max_lifetime (cmd_data c))
                       (timeline_color new_timeline_id) new_timeline_id in
        let w := set_entities (entities w ++ [EGhostBullet ghost]) w in
        let w := set_global_commands
                   (remove_first (λ r', bool_decide (r' = r)) (global_commands w)) w in
        Some (set_active_timelines (active_add new_timeline_id 1 (active_timelines s))
                (set_world w
                   (set_commands (<[r := add_ghosted new_timeline_id c]> (commands s)) s)),
              true)
    | MoveData _ _ _ => None        (* KeyError: 'velocity' *)
    end
  else Some (s, ghosts_created).

Definition prune_future_bullet_spawns (s : State) (time_point : R)
    (new_timeline_id just_overwritten : nat) : option (State * bool) :=
  foldlM (bullet_spawn_step time_point new_timeline_id just_overwritten) (s, false)
    (permanent_command_log (world s)).

(** One iteration of the loop of [prune_future_player_moves]; the
    accumulator carries [ghost_path]. *)
Definition player_move_step (time_point : R) (new_timeline_id just_overwritten : nat)
    (acc : State * Path) (r : cmd_ref) : option (State * Path) :=
  let '(s, ghost_path) := acc in
  c ← commands s !! r;
  if is_player_move c && to_ghost time_point new_timeline_id just_overwritten c then
    Some (set_commands (<[r := add_ghosted new_timeline_id c]> (commands s)) s,
          ghost_path ++ [(scheduled_time c, data_pos (cmd_data c))])
  else Some (s, ghost_path).

Definition prune_future_player_moves (s : State) (time_point : R)
    (new_timeline_id just_overwritten : nat) : option (State * bool) :=
  r ← foldlM (player_move_step time_point new_timeline_id just_overwritten) (s, [])
        (permanent_command_log (world s));
  let '(s, ghost_path) := r in
  match ghost_path with
  | [] => Some (s, false)
  | _ :: _ =>
      ghost ← GhostPlayer_init ghost_path (timeline_color new_timeline_id) new_timeline_id;
      let w := world s in
      Some (set_active_timelines (active_add new_timeline_id 1 (active_timelines s))
              (set_world (set_entities (entities w ++ [EGhostPlayer ghost]) w) s),
            true)
  end.

(** ** main.py, lines 254-302: the branch evaluation *)

(** A list comprehension over command references that keeps those whose
    object satisfies [keep]. *)
Fixpoint filter_refs (keep : Command → bool) (h : list Command) (l : list cmd_ref)
    : option (list cmd_ref) :=
  match l with
  | [] => Some []
  | r :: l' =>
      c ← h !! r;
      rest ← filter_refs keep h l';
      Some (if keep c then r :: rest else rest)
  end.

(** The [if ghosts_created:] arm.  [player.command_queue] is empty, so its
    comprehension is left out. *)
Definition commit_branch (temp_timeline_id : nat) (s : State) : option State :=
  let w := world s in
  let w := set_timeline_ids temp_timeline_id (S (next_timeline_id w)) w in
  let s := set_rewind_charges (rewind_charges s - 1)%Z s in
  let p := player s in
  let lt := local_time (player_base p) in
  log ← filter_refs
           (λ c, negb (is_player_move c
                       && bool_decide (origin_timeline c = current_timeline_id w)
                       && bool_decide (lt < scheduled_time c)))
           (commands s) (permanent_command_log w);
  let w := set_permanent_command_log log w in
  let path := filter (λ step, step.1 <= lt) (player_movement p) in
  path ← match path with
         | [] => ppos ← pos (player_base p); Some [(lt, ppos)]
         | _ :: _ => Some path
         end;
  Some (set_player (mkPlayer (player_base p) (shoot_cooldown p) (last_shot_time p)
                      (move_speed p) path)
          (set_world w s)).

(** [was_rewinding_last_frame and not world.rewinding and rewind_charges > 0]. *)
Definition branch_trigger (s : State) : bool :=
  was_rewinding_last_frame s && negb (rewinding (world s))
  && bool_decide (0 < rewind_charges s)%Z.

Definition branch_evaluation (s : State) : option State :=
  if branch_trigger s then
    let prev_timeline_id := current_timeline_id (world s) in
    let temp_timeline_id := next_timeline_id (world s) in
    let time_point := local_time (player_base (player s)) in
    r1 ← prune_future_bullet_spawns s time_point temp_timeline_id prev_timeline_id;
    r2 ← prune_future_player_moves r1.1 time_point temp_timeline_id prev_timeline_id;
    let ghosts_created := r1.2 || r2.2 in
    if ghosts_created then commit_branch temp_timeline_id r2.1
    else Some (set_active_timelines (delete temp_timeline_id (active_timelines r2.1)) r2.1)
  else Some s.

(** ** main.py, lines 307-322: retiring ghosts *)

(** [end_time] and [timeline_id] of a ghost entity; [None] for the others
    and for a ghost whose [end_time] stays [None] (or is infinite). *)
Definition ghost_end_time (e : Entity) : option (R * nat) :=
  match e with
  | EGhostBullet g =>
      ml ← max_lifetime (bullet_base (ghost_bullet g));
      Some (spawn_time g + ml, gb_timeline_id g)
  | EGhostPlayer g =>
      s ← last (gp_movement g);
      Some (s.1, gp_timeline_id g)
  | _ => None
  end.

(** [active_timelines[tid] -= 1] and the refund when the counter is zero. *)
Definition retire_timeline (tid : nat) (st : Z * gmap nat Z) : Z * gmap nat Z :=
  let '(charges, active) := st in
  let active := active_add tid (-1) active in
  if bool_decide (active !! tid = Some 0%Z) then
    (Z.min (charges + 1) MAX_REWINDS, delete tid active)
  else (charges, active).

(** The loop over [list(world.entities)]: an expired ghost is removed from
    the list, the others stay in order. *)
Fixpoint retire_ghosts (global_time : R) (es : list Entity) (st : Z * gmap nat Z)
    : list Entity * (Z * gmap nat Z) :=
  match es with
  | [] => ([], st)
  | e :: es' =>
      match ghost_end_time e with
      | Some (end_time, tid) =>
          if Rlt_dec end_time global_time then
            retire_ghosts global_time es' (retire_timeline tid st)
          else
            let r := retire_ghosts global_time es' st in (e :: r.1, r.2)
      | None =>
          let r := retire_ghosts global_time es' st in (e :: r.1, r.2)
      end
  end.

Definition retirement (s : State) : State :=
  let w := world s in
  let r := retire_ghosts (global_time w) (entities w) (rewind_charges s, active_timelines s) in
  set_active_timelines r.2.2 (set_rewind_charges r.2.1 (set_world (set_entities r.1 w) s)).

(** ** main.py, lines 324-351: ghost players from the log *)

(** The comprehension that collects the moves ghosted into [timeline_id]. *)
Fixpoint collect_moves (timeline_id : nat) (h : list Command) (l : list cmd_ref)
    : option Path :=
  match l with
  | [] => Some []
  | r :: l' =>
      c ← h !! r;
      rest ← collect_moves timeline_id h l';
      Some (if is_player_move c && bool_decide (timeline_id ∈ ghosted_timelines c)
            then (scheduled_time c, data_pos (cmd_data c)) :: rest else rest)
  end.

(** [<] on two [(time, Vector2)] tuples: equal times fall through to the
    vectors, which have no order (TypeError) unless they are equal. *)
Definition sample_lt (x y : R * Vec) : option bool :=
  if decide (x.1 = y.1) then (if decide (x.2 = y.2) then Some false else None)
  else Some (bool_decide (x.1 < y.1)).

Fixpoint insert_sample (x : R * Vec) (sorted : Path) : option Path :=
  match sorted with
  | [] => Some [x]
  | y :: ys =>
      lt ← sample_lt x y;
      if lt : bool then Some (x :: y :: ys)
      else rest ← insert_sample x ys; Some (y :: rest)
  end.

(** [path.sort()].  Whatever pairs the sort compares, it raises exactly
    when two samples share a time and differ in position, and otherwise
    returns the one sorted arrangement; so does this insertion sort. *)
Fixpoint sort_path (l : Path) : option Path :=
  match l with
  | [] => Some []
  | x :: l' => s ← sort_path l'; insert_sample x s
  end.

(** [getattr(e, "timeline_id", None)] and [getattr(e, "cmd_ref", None)]. *)
Definition entity_timeline_id (e : Entity) : option nat :=
  match e with
  | EGhostBullet g => Some (gb_timeline_id g)
  | EGhostPlayer g => Some (gp_timeline_id g)
  | _ => None
  end.

Definition entity_cmd_ref (e : Entity) : option cmd_ref :=
  match e with
  | EGhostBullet g => gb_cmd_ref g
  | _ => None
  end.

(** [isinstance(e, GhostPlayer) and getattr(e, "timeline_id", None) == timeline_id]. *)
Definition is_ghost_player_of (timeline_id : nat) (e : Entity) : bool :=
  match e with
  | EGhostPlayer g => bool_decide (gp_timeline_id g = timeline_id)
  | _ => false
  end.

Definition ghost_player_step (s : State) (timeline_id : nat) : option State :=
  let w := world s in
  path ← collect_moves timeline_id (commands s) (permanent_command_log w);
  match path with
  | [] => Some s
  | _ :: _ =>
      path ← sort_path path;
      first ← head path;
      final ← last path;
      if bool_decide (first.1 <= global_time w) && bool_decide (global_time w < final.1) then
        if existsb (is_ghost_player_of timeline_id) (entities w) then Some s
        else
          ghost ← GhostPlayer_init path (timeline_color timeline_id) timeline_id;
          Some (set_world (set_entities (entities w ++ [EGhostPlayer ghost]) w) s)
      else
        Some (set_world
                (set_entities
                   (filter (λ e, is_ghost_player_of timeline_id e = false) (entities w)) w) s)
  end.

Definition reconcile_ghost_players (s : State) : option State :=
  foldlM ghost_player_step s (seq 0 (next_timeline_id (world s))).

(** ** main.py, lines 354-377: ghost bullets from the log *)

(** [getattr(e, "cmd_ref", None) == cmd and getattr(e, "timeline_id", None) == tid]. *)
Definition is_ghost_of (r : cmd_ref) (tid : nat) (e : Entity) : bool :=
  bool_decide (entity_cmd_ref e = Some r) && bool_decide (entity_timeline_id e = Some tid).

(** The body of [for tid in cmd.ghosted_timelines]. *)
Definition ghost_bullet_step (r : cmd_ref) (c : Command) (w : GameWorld) (tid : nat)
    : option GameWorld :=
  let spawn := scheduled_time c in
  let end_ := spawn + data_max_lifetime (cmd_data c) in
  if bool_decide (spawn <= global_time w) && bool_decide (global_time w < end_) then
    if existsb (is_ghost_of r tid) (entities w) then Some w
    else
      match cmd_data c with
      | ShootData p vel _ _ =>
          let g := GhostBullet_init spawn p vel (global_time w)
                     (data_max_lifetime (cmd_data c)) (timeline_color tid) tid in
          let g := mkGhostBullet (ghost_bullet g) (spawn_time g) (gb_timeline_id g) (Some r) in
          Some (set_entities (entities w ++ [EGhostBullet g]) w)
      | MoveData _ _ _ => None      (* KeyError: 'velocity' *)
      end
  else
    Some (set_entities (filter (λ e, is_ghost_of r tid e = false) (entities w)) w).

(** The body of [for cmd in world.permanent_command_log].  Python leaves
    the iteration order of the set [cmd.ghosted_timelines] open; [elements]
    fixes one.  The order only decides in which order the ghosts of one
    command are appended. *)
Definition ghost_bullets_of_command (s : State) (r : cmd_ref) : option State :=
  c ← commands s !! r;
  if is_shoot c then
    w ← foldlM (ghost_bullet_step r c) (world s) (elements (ghosted_timelines c));
    Some (set_world w s)
  else Some s.

Definition reconcile_ghost_bullets (s : State) : option State :=
  foldlM ghost_bullets_of_command s (permanent_command_log (world s)).

(** ** main.py: the game loop *)

(** One pass of [while running:], drawing apart. *)
Definition frame (i : Input) (s : State) : option State :=
  s ← foldlM handle_event s (events i);
  s ← record_move i s;
  s ← GameWorld_update (dt i) s;
  s ← update_entities (dt i) s;
  let s := drop_obsolete s in
  s ← branch_evaluation s;
  let s := set_was_rewinding (rewinding (world s)) s in
  let s := retirement s in
  s ← reconcile_ghost_players s;
  reconcile_ghost_bullets s.

(** The timers of the grid [range(100, 701, 100)] x [range(100, 501, 100)]. *)
Definition timer_grid : list Entity :=
  x ← [100; 200; 300; 400; 500; 600; 700];
  y ← [100; 200; 300; 400; 500];
  [ETimer (Timer_init (x, y))].

(** The state when the loop is entered. *)
Definition initial_state : State :=
  mkState (set_entities (EPlayer :: timer_grid) GameWorld_init) []
    (Player_init (400, 300)) MAX_REWINDS ∅ false.

(** What the loop can be given: a frame time that is not negative and
    bullet ids in the range of [random.randint]. *)
Definition valid_event (ev : Event) : Prop :=
  match ev with
  | MOUSEBUTTONDOWN_left _ id => (1 <= id <= 1000000000)%Z
  | _ => True
  end.

Definition valid_input (i : Input) : Prop :=
  0 <= dt i ∧ Forall valid_event (events i).

(** States the program passes through at the end of a pass of the loop. *)
Inductive reachable : State → Prop :=
| reachable_init : reachable initial_state
| reachable_frame i s s' :
    reachable s → valid_input i → frame i s = Some s' → reachable s'.

(** ** Vocabulary of the properties *)

(** Sample times strictly increasing along a path. *)
Definition strictly_increasing (path : Path) : Prop :=
  StronglySorted (λ a b : R * Vec, a.1 < b.1) path.

(** [execute()] followed by [reverse()] on one command object. *)
Definition execute_then_reverse (c : Command) (w : GameWorld)
    : option (Command * GameWorld) :=
  cw ← Command_execute c w; Command_reverse cw.1 cw.2.

(** The command [Player.shoot] builds, before it is executed. *)
Definition shoot_command (p vel : Vec) (id : Z) (sched : R) (origin : nat) : Command :=
  mkCommand (ShootData p vel id None) (Some shoot_bullet) (Some undo_bullet)
    sched false origin ∅ None.

(** A world that already holds a bullet with id 7, half a second into its
    flight, and a new shoot command that drew the same id. *)
Definition flying_bullet : Bullet :=
  let b := Bullet_init (400, 300) (250, 0) 7 bullet_default_lifetime in
  mkBullet (set_local_time (1 / 2) (bullet_base b)) (velocity b) (bullet_id b)
    (bullet_movement b).

Definition collision_world : GameWorld :=
  set_entities [EPlayer; EBullet flying_bullet] GameWorld_init.

Definition collision_command : Command :=
  shoot_command (100, 100) (0, 250) 7 (3 / 2) 0.

(** The entries of [active_timelines] whose counter is positive: the
    timelines the bookkeeping takes to have ghosts. *)
Definition active_count (m : gmap nat Z) : nat :=
  size (filter (λ kv : nat * Z, (0 < kv.2)%Z) m).

(** What holds of an entity of the world: its own clock is not negative
    and a ghost belongs to a timeline id that was already handed out. *)
Definition entity_ok (next : nat) (e : Entity) : Prop :=
  match e with
  | EPlayer => True
  | ETimer t => 0 <= local_time (timer_base t)
  | EBullet b => 0 <= local_time (bullet_base b)
  | EGhostBullet g =>
      0 <= local_time (bullet_base (ghost_bullet g)) ∧ (gb_timeline_id g < next)%nat
  | EGhostPlayer g =>
      0 <= local_time (gp_base g) ∧ (gp_timeline_id g < next)%nat
  end.

Definition command_ok (next : nat) (c : Command) : Prop :=
  ∀ tid, tid ∈ ghosted_timelines c → (tid < next)%nat.

(** The invariant of the game loop. *)
Record Inv (s : State) : Prop := mkInv {
  inv_global_time : 0 <= global_time (world s);
  inv_player_time : 0 <= local_time (player_base (player s));
  inv_entities : Forall (entity_ok (next_timeline_id (world s))) (entities (world s));
  inv_commands : Forall (command_ok (next_timeline_id (world s))) (commands s);
  inv_charges : (0 <= rewind_charges s <= MAX_REWINDS)%Z;
  inv_conservation :
    (rewind_charges s + Z.of_nat (active_count (active_timelines s)) <= MAX_REWINDS)%Z;
  inv_active_keys :
    ∀ k, is_Some (active_timelines s !! k) → (k < next_timeline_id (world s))%nat
}.

(** How a command's forward or backward function changes the entity list. *)
Definition live_change (es es' : list Entity) : Prop :=
  es' = es
  ∨ (∃ p v id, es' = es ++ [EBullet (Bullet_init p v id bullet_default_lifetime)])
  ∨ (∃ id, es' = remove_first (has_bullet_id id) es).

(** The state [s0] after the two pruning loops made the ghosts [ghosts]
    for timeline [new], left [gcs] as [world.global_commands] and [cmds]
    as command objects. *)
Definition pruned (s0 : State) (ghosts : list Entity) (gcs : list cmd_ref)
    (cmds : list Command) (new : nat) : State :=
  set_active_timelines
    (Nat.iter (length ghosts) (active_add new 1) (active_timelines s0))
    (set_world
       (set_global_commands gcs
          (set_entities (entities (world s0) ++ ghosts) (world s0)))
       (set_commands cmds s0)).

(** A ghost made for timeline [new] by the branch evaluation. *)
Definition branch_ghost (new : nat) (e : Entity) : Prop :=
  entity_timeline_id e = Some new ∧ entity_ok (S new) e.

(** What holds of the accumulator of [prune_future_bullet_spawns] run from
    [s0]: [ghosts_created] is set exactly when a ghost was made.  [P] is any
    property of command objects that marking a command for [new] keeps. *)
Definition bullets_pruned (s0 : State) (new : nat) (P : Command → Prop)
    (acc : State * bool) : Prop :=
  ∃ ghosts gcs cmds,
    acc.1 = pruned s0 ghosts gcs cmds new
    ∧ (acc.2 = true ↔ ghosts ≠ [])
    ∧ Forall (branch_ghost new) ghosts
    ∧ Forall P cmds
    ∧ (ghosts = [] → gcs = global_commands (world s0) ∧ cmds = commands s0).

(** What holds of the accumulator of [prune_future_player_moves] run from
    [s1]: only command objects change, and none does while [ghost_path]
    is empty. *)
Definition moves_pruned (s1 : State) (P : Command → Prop) (acc : State * Path) : Prop :=
  ∃ cmds,
    acc.1 = set_commands cmds s1
    ∧ Forall P cmds
    ∧ (acc.2 = [] → cmds = commands s1).

(** The bookkeeping part of the invariant, for timeline ids below [next]. *)
Definition bookkeeping_ok (next : nat) (st : Z * gmap nat Z) : Prop :=
  (0 <= st.1 <= MAX_REWINDS)%Z
  ∧ (st.1 + Z.of_nat (active_count st.2) <= MAX_REWINDS)%Z
  ∧ ∀ k, is_Some (st.2 !! k) → (k < next)%nat.

(** ** Inputs of two short runs of the loop *)

Definition no_keys (d : R) (evs : list Event) : Input :=
  mkInput d evs false false false false.

(** Run A: let 0.2 s pass; click at (500, 300) and press R within the
    same pass; press R again 0.1 s later; let 0.1 s pass. *)
Definition run_a_advance : Input := no_keys (2 / 10) [].
Definition run_a_shoot_rewind : Input :=
  no_keys (1 / 10) [MOUSEBUTTONDOWN_left (500, 300) 1; KEYDOWN_r].
Definition run_a_resume : Input := no_keys (5 / 100) [KEYDOWN_r].
Definition run_a_replay : Input := no_keys (1 / 10) [].

(** Run B: press R and hold D for a pass of 20 ms, keep D down for a pass
    of 10 ms. *)
Definition run_b_rewind_moving : Input :=
  mkInput (2 / 100) [KEYDOWN_r] false false false true.
Definition run_b_still_moving : Input :=
  mkInput (1 / 100) [] false false false true.

(** [g] replays the shoot command [c] in timeline [tid]: same spawn time,
    start position and velocity. *)
Definition ghost_of_command (c : Command) (tid : nat) (g : GhostBullet) : Prop :=
  gb_timeline_id g = tid
  ∧ spawn_time g = scheduled_time c
  ∧ ∃ id ml,
      cmd_data c = ShootData (initial_pos (bullet_base (ghost_bullet g)))
                     (velocity (ghost_bullet g)) id ml.

(** A state in which the player just stopped rewinding at local time 0 and
    the log holds one shot scheduled at time 1 on the current timeline. *)
Definition resumed_state : State :=
  mkState (mkGameWorld [EPlayer] [0%nat] [0%nat] 0 0 false 0 1)
    [shoot_command (400, 300) (250, 0) 7 1 0]
    (Player_init (400, 300)) MAX_REWINDS ∅ true.

(** A shoot command carries the payload of [Player.shoot]. *)
Definition shoot_has_data (c : Command) : Prop :=
  is_shoot c = true → ∃ p v id ml, cmd_data c = ShootData p v id ml.

(** What the branch evaluation relies on: the log refers to command
    objects, shoot commands carry their payload, the player has a position. *)
Definition store_ok (s : State) : Prop :=
  Forall (λ r : cmd_ref, (r < length (commands s))%nat) (permanent_command_log (world s))
  ∧ Forall shoot_has_data (commands s)
  ∧ is_Some (pos (player_base (player s))).

(** What the pruning loops keep of the state [s0] they start from. *)
Definition prune_keeps (s0 s : State) : Prop :=
  length (commands s) = length (commands s0)
  ∧ Forall shoot_has_data (commands s)
  ∧ player s = player s0
  ∧ permanent_command_log (world s) = permanent_command_log (world s0)
  ∧ ∀ P : cmd_ref → Prop,
      Forall P (global_commands (world s0)) → Forall P (global_commands (world s)).

(** The statements of a pass that come before the branch evaluation. *)
Definition before_branch (i : Input) (s : State) : option State :=
  s ← foldlM handle_event s (events i);
  s ← record_move i s;
  s ← GameWorld_update (dt i) s;
  s ← update_entities (dt i) s;
  Some (drop_obsolete s).

(** Well-formed program states: every reference of the two command lists
    points at a command object, shoot commands carry their payload, the
    player has a position and a path with at least one sample. *)
Definition Wf (s : State) : Prop :=
  store_ok s
  ∧ Forall (λ r : cmd_ref, (r < length (commands s))%nat) (global_commands (world s))
  ∧ player_movement (player s) ≠ [].

(** A ghost whose [end_time] lies before the global time: what the
    retirement loop removes. *)
Definition expired (global_time : R) (e : Entity) : bool :=
  match ghost_end_time e with
  | Some (end_time, _) => bool_decide (end_time < global_time)
  | None => false
  end.

(** Two samples with the same time and different positions: [<] on the
    tuples has to compare the vectors. *)
Definition conflicting (l : Path) : Prop :=
  ∃ a b : R * Vec, a ∈ l ∧ b ∈ l ∧ a.1 = b.1 ∧ a.2 ≠ b.2.

(** The statements of a pass up to the entity updates (lines 188-242). *)
Definition updates (i : Input) (s : State) : option State :=
  s ← foldlM handle_event s (events i);
  s ← record_move i s;
  s ← GameWorld_update (dt i) s;
  update_entities (dt i) s.

(** How one iteration of the loop over [global_commands] changes the
    command behind [r], seen from the command [c] it was before. *)
Definition flag_step (rew fp : bool) (g : R) (hit : Prop) (c c' : Command) : Prop :=
  scheduled_time c' = scheduled_time c
  ∧ (rew = true → executed c = false → executed c' = false)
  ∧ (rew = false → executed c = true → executed c' = true)
  ∧ (hit → rew = true → g < scheduled_time c → executed c' = false)
  ∧ (hit → rew = false → fp = true → scheduled_time c <= g → executed c' = true).

(** A rewind that is running, or that ended in this pass, still has a
    charge to pay for its branch. *)
Definition rewind_paid (s : State) : Prop :=
  rewinding (world s) = true ∨ was_rewinding_last_frame s = true →
  (0 < rewind_charges s)%Z.

(** [c'] is the command object [c] with its executed flag set or cleared. *)
Definition flagged (c c' : Command) : Prop := ∃ b, c' = set_executed b c.

(** The current timeline id was handed out, and so was the id of the
    timeline every command was created in. *)
Definition origins_ok (s : State) : Prop :=
  (current_timeline_id (world s) < next_timeline_id (world s))%nat
  ∧ Forall (λ c, (origin_timeline c < next_timeline_id (world s))%nat) (commands s).

(** What an entity keeps when it is updated: its class and, for a timer,
    its position, for a bullet its path and id (its position is read off
    the path), for a ghost its timeline id and [cmd_ref]. *)
Definition updated_from (e e' : Entity) : Prop :=
  match e, e' with
  | EPlayer, EPlayer => True
  | ETimer t, ETimer t' => pos (timer_base t') = pos (timer_base t)
  | EBullet b, EBullet b' =>
      bullet_movement b' = bullet_movement b ∧ bullet_id b' = bullet_id b
      ∧ pos (bullet_base b')
        = get_pos (bullet_movement b) (local_time (bullet_base b'))
  | EGhostBullet g, EGhostBullet g' =>
      gb_timeline_id g' = gb_timeline_id g ∧ gb_cmd_ref g' = gb_cmd_ref g
  | EGhostPlayer g, EGhostPlayer g' => gp_timeline_id g' = gp_timeline_id g
  | _, _ => False
  end.

(** An entity whose [update] does not raise: a timer or a bullet needs a
    position for [get_time_factor], and a bullet a path that gives it one. *)
Definition updatable (e : Entity) : Prop :=
  match e with
  | ETimer t => is_Some (pos (timer_base t))
  | EBullet b => is_Some (pos (bullet_base b)) ∧ bullet_movement b ≠ []
  | _ => True
  end.

(** A command [execute] and [reverse] can run: the one [Player.shoot] makes. *)
Definition runnable (c : Command) : Prop :=
  forward_fn c = Some shoot_bullet ∧ backward_fn c = Some undo_bullet
  ∧ ∃ p v id ml, cmd_data c = ShootData p v id ml.

Definition globals_ok (s : State) : Prop :=
  Forall (λ r : cmd_ref, ∃ c, commands s !! r = Some c ∧ runnable c)
    (global_commands (world s)).

(** At most one [GhostPlayer] of each timeline id. *)
Definition ghost_player_count (tid : nat) (es : list Entity) : nat :=
  length (filter (λ e, is_ghost_player_of tid e = true) es).

Definition one_ghost_player (es : list Entity) : Prop :=
  ∀ tid, (ghost_player_count tid es ≤ 1)%nat.

(** Run C: run B, then release D and press R 5 ms later, then let 10 ms
    pass.  Run D: press R and hold D for 10 ms, hold A for the next 10 ms,
    then release it and press R 5 ms later. *)
Definition run_c_resume : Input := no_keys (5 / 1000) [KEYDOWN_r].
Definition run_c_replay : Input := no_keys (1 / 100) [].
Definition run_d_right : Input := mkInput (1 / 100) [KEYDOWN_r] false false false true.
Definition run_d_left : Input := mkInput (1 / 100) [] false false true false.

(** Run A continued: let 2.5 s pass, which takes the global clock past the
    end of the ghost bullets of timeline 1, then press R 0.1 s later. *)
Definition run_a_expire : Input := no_keys (5 / 2) [].
Definition run_a_rewind_again : Input := no_keys (1 / 10) [KEYDOWN_r].

(** The timelines that have a ghost in the world. *)
Definition ghost_timelines (es : list Entity) : gset nat :=
  list_to_set (omap entity_timeline_id es).

(** The timers among the entities, in the order of [world.entities]. *)
Definition timers (es : list Entity) : list Timer :=
  omap (λ e, match e with ETimer t => Some t | _ => None end) es.

(** The timer [t] is the timer [t0] with its clock and its [count] at the
    global time [g] scaled by the time factor at its position. *)
Definition timer_shows (g : R) (t0 t : Timer) : Prop :=
  ∃ p, pos (timer_base t0) = Some p
       ∧ timer_base t = set_local_time (g * time_factor_at p) (timer_base t0)
       ∧ count t = g * time_factor_at p.

(** The timers of the world are those of the grid, and each shows the
    global time scaled by its time factor. *)
Definition timers_synced (s : State) : Prop :=
  Forall2 (timer_shows (global_time (world s))) (timers timer_grid)
    (timers (entities (world s))).

(** * Properties *)

(** Record updates and projections, computed innermost first. *)
Ltac norm :=
  cbv beta iota delta
    [set_world set_commands set_player set_rewind_charges set_active_timelines
     set_was_rewinding set_entities set_global_commands set_permanent_command_log
     set_times set_rewinding set_timeline_ids
     world commands player rewind_charges active_timelines was_rewinding_last_frame
     entities global_commands permanent_command_log last_global_time global_time
     rewinding current_timeline_id next_timeline_id
     set_pos set_local_time set_color TimeEntity_init
     GhostBullet_init GhostBullet_update_pos Bullet_init
     pos color local_time max_lifetime initial_pos
     player_base shoot_cooldown last_shot_time move_speed player_movement
     timer_base count bullet_base velocity bullet_id bullet_movement
     ghost_bullet spawn_time gb_timeline_id gb_cmd_ref
     gp_base gp_movement gp_timeline_id
     dt events key_w key_s key_a key_d no_keys
     set_executed add_ghosted cmd_data forward_fn backward_fn scheduled_time
     executed origin_timeline ghosted_timelines cmd_type].

(** ** The dilation field *)

Lemma float_pow_zero (y : R) : y ≠ 0 → float_pow 0 y = 0.
Proof.
  intros Hy. unfold float_pow.
  destruct (Req_dec_T 0 0) as [_|Hne]; [|lra].
  destruct (Req_dec_T y 0); [contradiction|reflexivity].
Qed.

Lemma float_pow_range (x y : R) : 0 <= x <= 1 → 0 <= y → 0 <= float_pow x y <= 1.
Proof.
  intros [Hx0 Hx1] Hy. unfold float_pow.
  destruct (Req_dec_T x 0) as [->|Hx].
  - destruct (Req_dec_T y 0); lra.
  - unfold Rpower. split; [left; apply exp_pos|].
    rewrite <- exp_0. destruct (Req_dec_T (y * ln x) 0) as [->|Hne]; [lra|].
    left. apply exp_increasing.
    assert (ln x <= 0).
    { destruct (Req_dec_T x 1) as [->|]; [rewrite ln_1; lra|].
      left. rewrite <- ln_1. apply ln_increasing; lra. }
    nra.
Qed.

Lemma vlength_nonneg (a : Vec) : 0 <= vlength a.
Proof. apply sqrt_pos. Qed.

Lemma get_time_factor_range (p c : Vec) (radius e : R) :
  0 < radius → 0 <= e → 0 <= get_time_factor p c radius e <= 1.
Proof.
  intros Hr He. unfold get_time_factor. apply float_pow_range; [|assumption].
  assert (0 <= vlength (vsub p c) / radius).
  { apply Rmult_le_pos; [apply vlength_nonneg|]. left. now apply Rinv_0_lt_compat. }
  unfold Rmin. destruct (Rle_dec _ 1); lra.
Qed.

Lemma time_factor_at_range (p : Vec) : 0 <= time_factor_at p <= 1.
Proof.
  apply get_time_factor_range; unfold field_radius, default_exponent; lra.
Qed.

(** At or beyond the radius the factor is zero. *)
Lemma get_time_factor_outside (p c : Vec) (radius e : R) :
  0 < radius → e ≠ 0 → radius <= vlength (vsub p c) → get_time_factor p c radius e = 0.
Proof.
  intros Hr He Hd. unfold get_time_factor.
  assert (1 <= vlength (vsub p c) / radius).
  { apply Rmult_le_reg_r with radius; [assumption|].
    unfold Rdiv. rewrite Rmult_assoc, Rinv_l; lra. }
  replace (Rmin _ 1) with 1.
  - replace (1 - 1) with 0 by lra. now apply float_pow_zero.
  - unfold Rmin. destruct (Rle_dec _ 1); lra.
Qed.

(** Inside the radius it is positive. *)
Lemma get_time_factor_inside (p c : Vec) (radius e : R) :
  0 < radius → vlength (vsub p c) < radius → 0 < get_time_factor p c radius e.
Proof.
  intros Hr Hd. unfold get_time_factor, float_pow.
  assert (vlength (vsub p c) / radius < 1).
  { apply Rmult_lt_reg_r with radius; [assumption|].
    unfold Rdiv. rewrite Rmult_assoc, Rinv_l; lra. }
  assert (Rmin (vlength (vsub p c) / radius) 1 < 1).
  { unfold Rmin. destruct (Rle_dec _ 1); lra. }
  destruct (Req_dec_T _ 0); [lra|]. apply exp_pos.
Qed.

Lemma vlength_corner : vlength (vsub (0, 0) field_center) = 500.
Proof.
  unfold vlength, vlength_squared, vsub, field_center. simpl.
  replace ((0 - 400) * (0 - 400) + (0 - 300) * (0 - 300)) with (500 * 500) by lra.
  apply sqrt_square. lra.
Qed.

(** C4 (the code departs from the claim): at the window corner (0, 0),
    which lies exactly [max_radius] = 500 away from the centre (400, 300),
    [get_time_factor] returns 0: there is no positive floor, the factor
    is not in (0, 1] and local time freezes there. *)
Theorem get_time_factor_corner_is_zero :
  get_time_factor (0, 0) (400, 300) 500 default_exponent = 0
  ∧ ¬ (0 < get_time_factor (0, 0) (400, 300) 500 default_exponent <= 1).
Proof.
  assert (H : get_time_factor (0, 0) (400, 300) 500 default_exponent = 0).
  { apply get_time_factor_outside.
    - lra.
    - unfold default_exponent. lra.
    - right. symmetry. apply vlength_corner. }
  split; [exact H|]. rewrite H. lra.
Qed.

(** ** Commands *)

Lemma set_entities_same (w : GameWorld) : set_entities (entities w) w = w.
Proof. now destruct w. Qed.

Lemma set_executed_same (c : Command) : set_executed (executed c) c = c.
Proof. now destruct c. Qed.

Lemma remove_first_none {A} (P : A → bool) (l : list A) :
  Forall (λ x, P x = false) l → remove_first P l = l.
Proof.
  induction 1 as [|x l Hx _ IH]; simpl; [reflexivity|].
  now rewrite Hx, IH.
Qed.

Lemma remove_first_snoc {A} (P : A → bool) (l : list A) (x : A) :
  Forall (λ y, P y = false) l → P x = true → remove_first P (l ++ [x]) = l.
Proof.
  induction 1 as [|y l Hy _ IH]; simpl; intros Hx.
  - now rewrite Hx.
  - now rewrite Hy, IH.
Qed.

(** C7: [execute()] on a command whose [executed] flag is set, and
    [reverse()] on one whose flag is clear, change neither the target nor
    the command; through a reference, the whole program state is left as
    it was. *)
Theorem command_idempotence (c : Command) (w : GameWorld) :
  (executed c = true → Command_execute c w = Some (c, w))
  ∧ (executed c = false → Command_reverse c w = Some (c, w))
  ∧ (∀ (s : State) (r : cmd_ref), commands s !! r = Some c →
       (executed c = true → on_command Command_execute r s = Some s)
       ∧ (executed c = false → on_command Command_reverse r s = Some s)).
Proof.
  split; [|split].
  - intros H. unfold Command_execute. now rewrite H.
  - intros H. unfold Command_reverse. now rewrite H.
  - intros s r Hr. split; intros H; unfold on_command; rewrite Hr; simpl.
    + unfold Command_execute. rewrite H. simpl.
      rewrite list_insert_id by assumption. now destruct s.
    + unfold Command_reverse. rewrite H. simpl.
      rewrite list_insert_id by assumption. now destruct s.
Qed.

Lemma command_idempotence_witness :
  let c := set_executed true (shoot_command (0, 0) (1, 0) 7 0 0) in
  Command_execute c GameWorld_init = Some (c, GameWorld_init).
Proof.
  intros c. apply (command_idempotence c GameWorld_init). reflexivity.
Defined.



(** C6 (the code departs from the claim): a world that holds a bullet with
    id 7, half a second into its flight, and a fresh shoot command that
    drew the same id.  [execute()] appends the command's own bullet and
    [reverse()], which looks the bullet up by [bullet_id], removes the
    first [Bullet] with id 7: the older one.  The command's own bullet
    stays in the world, the older bullet is gone, and the entity list is
    not the one before [execute()]. *)
Lemma shared_bullet_id_breaks_roundtrip :
  executed collision_command = false
  ∧ entities collision_world = [EPlayer; EBullet flying_bullet]
  ∧ ∃ w', execute_then_reverse collision_command collision_world
          = Some (collision_command, w')
          ∧ entities w'
            = [EPlayer; EBullet (Bullet_init (100, 100) (0, 250) 7 bullet_default_lifetime)]
          ∧ (EBullet flying_bullet ∉ entities w')
          ∧ entities w' ≠ entities collision_world.
Proof.
  assert (Hne : EBullet flying_bullet
                ≠ EBullet (Bullet_init (100, 100) (0, 250) 7 bullet_default_lifetime)).
  { intros H.
    apply (f_equal (λ e, match e with
                         | EBullet b => local_time (bullet_base b)
                         | _ => 0
                         end)) in H.
    simpl in H. lra. }
  assert (E : ∃ w', execute_then_reverse collision_command collision_world
                    = Some (collision_command, w')
                    ∧ entities w'
                      = [EPlayer;
                         EBullet (Bullet_init (100, 100) (0, 250) 7
                                    bullet_default_lifetime)]).
  { eexists. split.
    - unfold execute_then_reverse, Command_execute, Command_reverse. simpl.
      reflexivity.
    - reflexivity. }
  destruct E as (w' & E & Hw').
  split; [reflexivity|]. split; [reflexivity|].
  exists w'. split; [exact E|]. split; [exact Hw'|]. rewrite Hw'. split.
  - intros H. apply elem_of_cons in H as [H|H]; [discriminate|].
    apply list_elem_of_singleton in H. now apply Hne.
  - intros H. change (entities collision_world) with [EPlayer; EBullet flying_bullet] in H.
    pose proof (f_equal (λ l, default EPlayer (l !! 1%nat)) H) as H1.
    exact (Hne (eq_sym H1)).
Qed.

(** ** Path lookup *)

Lemma lerp_0 (a b : Vec) : lerp a b 0 = a.
Proof. destruct a, b. unfold lerp. simpl. f_equal; lra. Qed.

Lemma lerp_1 (a b : Vec) : lerp a b 1 = b.
Proof. destruct a, b. unfold lerp. simpl. f_equal; lra. Qed.

Lemma clamp_low (x : R) : x <= 0 → Rmax 0 (Rmin 1 x) = 0.
Proof. intros. unfold Rmax, Rmin. repeat destruct (Rle_dec _ _); lra. Qed.

Lemma clamp_mid (x : R) : 0 <= x <= 1 → Rmax 0 (Rmin 1 x) = x.
Proof. intros. unfold Rmax, Rmin. repeat destruct (Rle_dec _ _); lra. Qed.

Section GetPos.
Implicit Types (prev next s : R * Vec) (rest path : Path) (q : R).

  (** A query at or before the running sample returns it. *)
Lemma get_pos_loop_before prev rest q :
    strictly_increasing (prev :: rest) → q <= prev.1 →
    get_pos_loop prev rest q = prev.2.
  Proof.
    intros Hs Hq. destruct rest as [|next rest]; simpl; [reflexivity|].
    apply StronglySorted_inv in Hs as [_ Hall].
    apply Forall_cons in Hall as [Hlt _].
    destruct (Rle_dec q next.1); [|lra].
    destruct (Rlt_dec prev.1 next.1); [|lra].
    rewrite clamp_low; [apply lerp_0|].
    apply Rmult_le_reg_r with (next.1 - prev.1); [lra|].
    unfold Rdiv. rewrite Rmult_assoc, Rinv_l; lra.
  Qed.

  (** A query strictly between the running sample and the next one. *)
Lemma get_pos_loop_between prev next rest q :
    prev.1 < next.1 → prev.1 <= q <= next.1 →
    get_pos_loop prev (next :: rest) q
    = lerp prev.2 next.2 ((q - prev.1) / (next.1 - prev.1)).
  Proof.
    intros Hlt [Hq1 Hq2]. simpl.
    destruct (Rle_dec q next.1); [|lra].
    destruct (Rlt_dec prev.1 next.1); [|lra].
    rewrite clamp_mid; [reflexivity|].
    split.
    - apply Rmult_le_pos; [lra|]. left. apply Rinv_0_lt_compat. lra.
    - apply Rmult_le_reg_r with (next.1 - prev.1); [lra|].
      unfold Rdiv. rewrite Rmult_assoc, Rinv_l; lra.
  Qed.

  (** The loop skips a sample that lies before the query. *)
Lemma get_pos_loop_skip prev next rest q :
    next.1 < q → get_pos_loop prev (next :: rest) q = get_pos_loop next rest q.
  Proof. intros Hq. simpl. destruct (Rle_dec q next.1); [lra|reflexivity]. Qed.

Lemma get_pos_loop_exact prev rest i s :
    strictly_increasing (prev :: rest) → rest !! i = Some s →
    get_pos_loop prev rest s.1 = s.2.
  Proof.
    revert prev i. induction rest as [|next rest IH]; intros prev i Hs Hi; [done|].
    apply StronglySorted_inv in Hs as [Hs Hall].
    destruct i as [|i]; simpl in Hi.
    - injection Hi as ->. apply Forall_cons in Hall as [Hlt _].
      rewrite get_pos_loop_between by lra.
      replace ((s.1 - prev.1) / (s.1 - prev.1)) with 1 by (field; lra).
      apply lerp_1.
    - rewrite get_pos_loop_skip; [now apply (IH next i)|].
      apply StronglySorted_inv in Hs as [_ Hall'].
      rewrite Forall_forall in Hall'. apply Hall'.
      now apply list_elem_of_lookup_2 with i.
  Qed.

Lemma get_pos_loop_after prev rest final q :
    strictly_increasing (prev :: rest) → last (prev :: rest) = Some final →
    final.1 < q → get_pos_loop prev rest q = final.2.
  Proof.
    revert prev. induction rest as [|next rest IH]; intros prev Hs Hl Hq.
    - simpl in *. now injection Hl as ->.
    - apply StronglySorted_inv in Hs as [Hs Hall].
      rewrite last_cons_cons in Hl.
      rewrite get_pos_loop_skip; [now apply IH|].
      destruct (decide (next = final)) as [->|Hne]; [assumption|].
      apply StronglySorted_inv in Hs as [_ Hall'].
      rewrite Forall_forall in Hall'.
      assert (final ∈ rest) as Hin.
      { apply last_Some_elem_of. now apply last_cons_Some_ne with next. }
      specialize (Hall' _ Hin). lra.
  Qed.

Lemma get_pos_loop_bracket prev rest i a b q :
    strictly_increasing (prev :: rest) →
    (prev :: rest) !! i = Some a → (prev :: rest) !! S i = Some b →
    a.1 <= q <= b.1 →
    get_pos_loop prev rest q = lerp a.2 b.2 ((q - a.1) / (b.1 - a.1)).
  Proof.
    revert prev i. induction rest as [|next rest IH]; intros prev i Hs Ha Hb Hq.
    - destruct i; simpl in Hb; discriminate.
    - pose proof Hs as Hs0.
      apply StronglySorted_inv in Hs as [Hs Hall].
      destruct i as [|i]; simpl in Ha, Hb.
      + injection Ha as ->. injection Hb as ->.
        apply Forall_cons in Hall as [Hlt _].
        now apply get_pos_loop_between.
      + destruct (decide (q = a.1)) as [->|Hne].
        * (* the query sits on the left sample of the pair *)
          rewrite (get_pos_loop_exact prev (next :: rest) i a Hs0 Ha).
          replace ((a.1 - a.1) / (b.1 - a.1)) with 0 by (unfold Rdiv; lra).
          now rewrite lerp_0.
        * rewrite get_pos_loop_skip; [now apply (IH next i)|].
          assert (next.1 <= a.1); [|lra].
          destruct i as [|i]; simpl in Ha.
          -- injection Ha as ->. lra.
          -- apply StronglySorted_inv in Hs as [_ Hall'].
             rewrite Forall_forall in Hall'. left. apply Hall'.
             now apply list_elem_of_lookup_2 with i.
  Qed.
End GetPos.

(** C8: on an empty path [get_pos] returns [None]; on a path whose sample
    times increase strictly it returns a sample's position at that
    sample's time, the first position before the first sample, the last
    position after the last one, and between two adjacent samples their
    linear interpolation. *)
Theorem get_pos_lookup :
  (∀ q, get_pos [] q = None)
  ∧ ∀ path : Path, strictly_increasing path →
      (∀ i s, path !! i = Some s → get_pos path s.1 = Some s.2)
      ∧ (∀ first q, head path = Some first → q < first.1 →
           get_pos path q = Some first.2)
      ∧ (∀ final q, last path = Some final → final.1 < q →
           get_pos path q = Some final.2)
      ∧ (∀ i a b q, path !! i = Some a → path !! S i = Some b → a.1 < q < b.1 →
           get_pos path q = Some (lerp a.2 b.2 ((q - a.1) / (b.1 - a.1)))).
Proof.
  split; [reflexivity|].
  intros [|first rest] Hs; (split; [|split; [|split]]); try done; simpl.
  - intros [|i] s Hi; simpl in Hi; f_equal.
    + injection Hi as ->. apply get_pos_loop_before; [assumption|lra].
    + now apply get_pos_loop_exact with i.
  - intros f q [= ->] Hq. f_equal. apply get_pos_loop_before; [assumption|lra].
  - intros final q Hl Hq. f_equal. now apply get_pos_loop_after.
  - intros i a b q Ha Hb Hq. f_equal. apply get_pos_loop_bracket with i; try assumption. lra.
Qed.

Lemma get_pos_lookup_witness :
  get_pos [(0, (400, 300)); (1, (570, 300)); (2, (570, 470))] 1 = Some (570, 300).
Proof.
  assert (Hs : strictly_increasing [(0, (400, 300)); (1, (570, 300)); (2, (570, 470))]).
  { repeat constructor; simpl; lra. }
  exact (proj1 (proj2 get_pos_lookup _ Hs) 1%nat (1, (570, 300)) eq_refl).
Defined.

(** ** Baking a path *)

Lemma ensure_path_loop_more_fuel (fuel extra : nat) (until_time step_size : R)
    (vel : Vec) (t : R) (p : Vec) (path : Path) :
  0 < step_size → (until_time - t) / step_size <= INR fuel →
  ensure_path_loop (fuel + extra) until_time step_size vel t p path
  = ensure_path_loop fuel until_time step_size vel t p path.
Proof.
  intros Hstep. revert t p path.
  induction fuel as [|fuel IH]; intros t p path Hfuel.
  - assert (until_time <= t).
    { simpl in Hfuel. apply Rmult_le_compat_r with (r := step_size) in Hfuel; [|lra].
      unfold Rdiv in Hfuel. rewrite Rmult_assoc, Rinv_l in Hfuel; lra. }
    destruct extra as [|extra]; simpl; [reflexivity|].
    destruct (Rlt_dec t until_time); [lra|reflexivity].
  - simpl. destruct (Rlt_dec t until_time); [|reflexivity].
    apply IH. rewrite S_INR in Hfuel.
    replace ((until_time - (t + step_size)) / step_size)
      with ((until_time - t) / step_size - 1) by (field; lra).
    lra.
Qed.

Lemma ensure_path_fuel_enough (until_time step_size t : R) :
  (until_time - t) / step_size <= INR (ensure_path_fuel until_time step_size t).
Proof.
  unfold ensure_path_fuel.
  set (x := (until_time - t) / step_size).
  destruct (archimed x) as [Hup _].
  destruct (Z_lt_le_dec (up x) 0) as [Hneg|Hpos].
  - rewrite Z2Nat.nonpos by lia. simpl.
    apply IZR_lt in Hneg. lra.
  - rewrite INR_IZR_INZ, Z2Nat.id by assumption. lra.
Qed.

(** The loop of [ensure_path] ends by its own test: the bound on the
    iterations is never what stops it, and any larger bound gives the same
    path. *)
Lemma ensure_path_terminates (path : Path) (until_time step_size : R)
    (start_pos vel : Vec) (extra : nat) :
  0 < step_size →
  let last_time := match last path with Some s => s.1 | None => 0 end in
  let last_pos := match last path with Some s => s.2 | None => start_pos end in
  ensure_path_loop (ensure_path_fuel until_time step_size last_time + extra)
    until_time step_size vel last_time last_pos path
  = ensure_path path until_time step_size start_pos vel.
Proof.
  intros Hstep. simpl. unfold ensure_path.
  apply ensure_path_loop_more_fuel; [assumption|apply ensure_path_fuel_enough].
Qed.

Lemma strictly_increasing_snoc (path : Path) (s : R * Vec) :
  strictly_increasing path → Forall (λ a, a.1 < s.1) path →
  strictly_increasing (path ++ [s]).
Proof.
  unfold strictly_increasing. induction 1 as [|a path Hs IH Ha]; intros Hall; simpl.
  - repeat constructor.
  - apply Forall_cons in Hall as [Has Hall]. constructor.
    + now apply IH.
    + apply Forall_app. split; [assumption|]. now repeat constructor.
Qed.

Lemma ensure_path_loop_increasing (fuel : nat) (until_time step_size : R) (vel : Vec)
    (t : R) (p : Vec) (path : Path) :
  0 < step_size → strictly_increasing path → Forall (λ a, a.1 <= t) path →
  strictly_increasing (ensure_path_loop fuel until_time step_size vel t p path).
Proof.
  intros Hstep. revert t p path.
  induction fuel as [|fuel IH]; intros t p path Hs Hall; simpl; [assumption|].
  destruct (Rlt_dec t until_time); [|assumption].
  apply IH.
  - apply strictly_increasing_snoc; [assumption|].
    eapply Forall_impl; [exact Hall|]. simpl. intros a Ha. lra.
  - apply Forall_app. split.
    + eapply Forall_impl; [exact Hall|]. simpl. intros a Ha. lra.
    + constructor; [simpl; lra|constructor].
Qed.

(** The path a bullet bakes at creation has strictly increasing times. *)
Lemma Bullet_init_path_increasing (p vel : Vec) (id : Z) (ml : R) :
  strictly_increasing (bullet_movement (Bullet_init p vel id ml)).
Proof.
  simpl. unfold ensure_path. apply ensure_path_loop_increasing.
  - lra.
  - constructor.
  - constructor.
Qed.

(** ** Lifetimes of a projectile and of its ghost *)

Lemma GhostBullet_init_max_lifetime spawn p vel g ml c tid :
  max_lifetime (bullet_base (ghost_bullet (GhostBullet_init spawn p vel g ml c tid)))
  = Some ml.
Proof. reflexivity. Qed.

Lemma GhostBullet_init_spawn_time spawn p vel g ml c tid :
  spawn_time (GhostBullet_init spawn p vel g ml c tid) = spawn.
Proof. reflexivity. Qed.

Lemma GhostBullet_init_timeline_id spawn p vel g ml c tid :
  gb_timeline_id (GhostBullet_init spawn p vel g ml c tid) = tid.
Proof. reflexivity. Qed.

(** C10: for a shoot command whose payload has no [max_lifetime] key, the
    ghost made at branch time and the ghost made by the per-frame pass both
    get [max_lifetime] 2.5 and the window [spawn, spawn + 2.5), while the
    live [Bullet] its [execute()] appends gets [max_lifetime] 1.4: the
    ghost outlasts it by 1.1. *)
Theorem ghost_outlives_live_bullet (c : Command) (p vel : Vec) (id : Z) :
  cmd_data c = ShootData p vel id None →
  forward_fn c = Some shoot_bullet →
  (* the live bullet *)
  (∀ w, executed c = false →
     ∃ b, Command_execute c w
          = Some (set_executed true c, set_entities (entities w ++ [EBullet b]) w)
          ∧ max_lifetime (bullet_base b) = Some (14 / 10))
  (* the ghost of the branch evaluation *)
  ∧ (∀ s r time_point new prev created,
       commands s !! r = Some c → to_ghost time_point new prev c = true →
       ∃ g s', bullet_spawn_step time_point new prev (s, created) r = Some (s', true)
               ∧ entities (world s') = entities (world s) ++ [EGhostBullet g]
               ∧ max_lifetime (bullet_base (ghost_bullet g)) = Some (25 / 10)
               ∧ ghost_end_time (EGhostBullet g) = Some (scheduled_time c + 25 / 10, new))
  (* the ghost of the per-frame pass *)
  ∧ (∀ w r tid,
       scheduled_time c <= global_time w < scheduled_time c + 25 / 10 →
       existsb (is_ghost_of r tid) (entities w) = false →
       ∃ g, ghost_bullet_step r c w tid
            = Some (set_entities (entities w ++ [EGhostBullet g]) w)
            ∧ max_lifetime (bullet_base (ghost_bullet g)) = Some (25 / 10)
            ∧ ghost_end_time (EGhostBullet g) = Some (scheduled_time c + 25 / 10, tid))
  ∧ 25 / 10 - 14 / 10 = 11 / 10.
Proof.
  intros Hd Hf. split; [|split; [|split]].
  - intros w Hex. eexists. unfold Command_execute. rewrite Hex, Hf, Hd. simpl.
    split; reflexivity.
  - intros s r tp new prev created Hr Hg.
    unfold bullet_spawn_step. rewrite Hr. simpl.
    unfold is_shoot. rewrite Hf, Hg, Hd. simpl.
    eexists _, _. split; [reflexivity|]. simpl. repeat split.
  - intros w r tid [H1 H2] Hno. unfold ghost_bullet_step.
    rewrite Hd. simpl data_max_lifetime.
    rewrite (bool_decide_eq_true_2 _ H1), (bool_decide_eq_true_2 _ H2), Hno. simpl.
    eexists. split; [reflexivity|]. split; reflexivity.
  - lra.
Qed.

Lemma ghost_outlives_live_bullet_witness :
  ∃ b, Command_execute (shoot_command (400, 300) (250, 0) 7 (1 / 100) 0) GameWorld_init
       = Some (set_executed true (shoot_command (400, 300) (250, 0) 7 (1 / 100) 0),
               set_entities (entities GameWorld_init ++ [EBullet b]) GameWorld_init)
       ∧ max_lifetime (bullet_base b) = Some (14 / 10).
Proof.
  apply (ghost_outlives_live_bullet (shoot_command (400, 300) (250, 0) 7 (1 / 100) 0)
           (400, 300) (250, 0) 7 eq_refl eq_refl).
  reflexivity.
Defined.

(** ** The loop invariant *)

Lemma foldlM_inv {A B} (I : B → Prop) (f : B → A → option B) (l : list A) (b b' : B) :
  (∀ b x b', I b → x ∈ l → f b x = Some b' → I b') →
  I b → foldlM f b l = Some b' → I b'.
Proof.
  revert b. induction l as [|x l IH]; intros b Hstep Hb Hf; simpl in Hf.
  - now injection Hf as <-.
  - destruct (f b x) as [b1|] eqn:E; [|discriminate]. simpl in Hf.
    apply (IH b1); [|eapply Hstep; [eassumption|left|eassumption]|assumption].
    intros b2 y b3 H2 Hy. apply Hstep; [assumption|now right].
Qed.

Lemma Forall_remove_first {A} (P : A → Prop) (Q : A → bool) (l : list A) :
  Forall P l → Forall P (remove_first Q l).
Proof.
  induction 1 as [|x l Hx Hl IH]; simpl; [constructor|].
  destruct (Q x); [assumption|now constructor].
Qed.

Lemma Forall_filter_keep {A} (P : A → Prop) (Q : A → Prop) `{∀ x, Decision (Q x)}
    (l : list A) :
  Forall P l → Forall P (filter Q l).
Proof.
  rewrite !Forall_forall. intros Hl x Hx.
  apply list_elem_of_filter in Hx as [_ Hx]. auto.
Qed.

Lemma entity_ok_mono (n n' : nat) (e : Entity) :
  (n <= n')%nat → entity_ok n e → entity_ok n' e.
Proof.
  intros Hn. destruct e as [|t|b|g|g]; simpl; intros H; try exact H.
  - destruct H as [H1 H2]. split; [exact H1|lia].
  - destruct H as [H1 H2]. split; [exact H1|lia].
Qed.

Lemma command_ok_mono (n n' : nat) (c : Command) :
  (n <= n')%nat → command_ok n c → command_ok n' c.
Proof. intros Hn Hc tid Ht. specialize (Hc tid Ht). lia. Qed.

Lemma live_change_Forall (P : Entity → Prop) (es es' : list Entity) :
  (∀ p v id, P (EBullet (Bullet_init p v id bullet_default_lifetime))) →
  live_change es es' → Forall P es → Forall P es'.
Proof.
  intros HP [->|[(p & v & id & ->)|(id & ->)]] Hes.
  - assumption.
  - apply Forall_app. split; [assumption|]. constructor; [apply HP|constructor].
  - now apply Forall_remove_first.
Qed.

Lemma apply_fn_spec (f : Fn) (w w' : GameWorld) (d : Data) :
  apply_fn f w d = Some w' →
  ∃ es', w' = set_entities es' w ∧ live_change (entities w) es'.
Proof.
  destruct f, d; simpl; intros H; try discriminate; injection H as <-.
  - eexists. split; [reflexivity|]. right. left. eauto.
  - eexists. split; [reflexivity|]. right. right. eauto.
  - exists (entities w). split; [now destruct w|]. now left.
Qed.

Lemma Command_method_spec (c c' : Command) (w w' : GameWorld) :
  Command_execute c w = Some (c', w') ∨ Command_reverse c w = Some (c', w') →
  (∃ b, c' = set_executed b c)
  ∧ ∃ es', w' = set_entities es' w ∧ live_change (entities w) es'.
Proof.
  assert (Hsame : (∃ b, c = set_executed b c)
                  ∧ ∃ es', w = set_entities es' w ∧ live_change (entities w) es').
  { split; [exists (executed c); now destruct c|].
    exists (entities w). split; [now destruct w|now left]. }
  unfold Command_execute, Command_reverse.
  intros [H|H]; destruct (executed c); simpl in H;
    try (injection H as <- <-; exact Hsame).
  - destruct (forward_fn c) as [f|]; [|discriminate]. simpl in H.
    destruct (apply_fn f w (cmd_data c)) as [w1|] eqn:E; [|discriminate].
    injection H as <- <-. split; [eauto|]. now apply apply_fn_spec with f (cmd_data c).
  - destruct (backward_fn c) as [f|]; [|discriminate]. simpl in H.
    destruct (apply_fn f w (cmd_data c)) as [w1|] eqn:E; [|discriminate].
    injection H as <- <-. split; [eauto|]. now apply apply_fn_spec with f (cmd_data c).
Qed.

Lemma fresh_bullet_ok (n : nat) (p v : Vec) (id : Z) (ml : R) :
  entity_ok n (EBullet (Bullet_init p v id ml)).
Proof. simpl. lra. Qed.

(** Running a command's method through its reference keeps the invariant. *)
Lemma on_command_Inv (m : Command → GameWorld → option (Command * GameWorld))
    (r : cmd_ref) (s s' : State) :
  m = Command_execute ∨ m = Command_reverse →
  Inv s → on_command m r s = Some s' → Inv s'.
Proof.
  intros Hm [HG HP HE HC HCh HS HK] H. unfold on_command in H.
  destruct (commands s !! r) as [c|] eqn:Hr; [|discriminate]. simpl in H.
  destruct (m c (world s)) as [[c' w']|] eqn:E; [|discriminate]. simpl in H.
  injection H as <-.
  destruct (Command_method_spec c c' (world s) w') as [[b ->] (es' & -> & Hlc)].
  { destruct Hm as [->| ->]; auto. }
  constructor; simpl; try assumption.
  - eapply live_change_Forall; [|eassumption|assumption]. intros; apply fresh_bullet_ok.
  - apply Forall_insert; [assumption|].
    rewrite Forall_lookup in HC. exact (HC r c Hr).
Qed.

Lemma fresh_command_ok (n : nat) (c : Command) :
  ghosted_timelines c = ∅ → command_ok n c.
Proof. intros H tid Ht. rewrite H in Ht. set_solver. Qed.

Lemma on_command_player (m : Command → GameWorld → option (Command * GameWorld))
    (r : cmd_ref) (s s' : State) :
  on_command m r s = Some s' → player s' = player s.
Proof.
  unfold on_command. destruct (commands s !! r) as [c|]; [|discriminate]. simpl.
  destruct (m c (world s)); [|discriminate]. simpl. now intros [= <-].
Qed.

Lemma Player_shoot_Inv (target : Vec) (id : Z) (s s' : State) :
  Inv s → Player_shoot target id s = Some s' → Inv s'.
Proof.
  intros HI H. unfold Player_shoot in H.
  destruct (pos (player_base (player s))) as [ppos|]; [|discriminate]. simpl in H.
  match type of H with
  | (on_command _ ?r ?s0 ≫= _) = _ =>
      destruct (on_command Command_execute r s0) as [s1|] eqn:E; [|discriminate];
      assert (HI0 : Inv s0)
  end.
  { destruct HI as [HG HP HE HC HCh HS HK]. constructor; simpl; try assumption.
    apply Forall_app. split; [assumption|].
    constructor; [now apply fresh_command_ok|constructor]. }
  simpl in H. injection H as <-.
  apply on_command_Inv in E; [|now left|assumption].
  destruct E as [HG HP HE HC HCh HS HK]. constructor; simpl; try assumption.
  now destruct HI.
Qed.

Lemma handle_event_Inv (s s' : State) (ev : Event) :
  Inv s → handle_event s ev = Some s' → Inv s'.
Proof.
  intros HI H. destruct ev as [| |mouse_pos id|]; simpl in H.
  - now injection H as <-.
  - destruct HI as [HG HP HE HC HCh HS HK].
    destruct (negb (rewinding (world s)) && bool_decide (0 < rewind_charges s)%Z).
    + injection H as <-. now constructor.
    + destruct (rewinding (world s)); injection H as <-; now constructor.
  - destruct (can_shoot (player s)).
    + now apply Player_shoot_Inv with mouse_pos id s.
    + now injection H as <-.
  - now injection H as <-.
Qed.

Lemma record_move_Inv (i : Input) (s s' : State) :
  Inv s → record_move i s = Some s' → Inv s'.
Proof.
  intros [HG HP HE HC HCh HS HK] H. unfold record_move in H.
  destruct (Rlt_dec 0 _); [|now injection H as <-].
  match type of H with (?o ≫= _) = _ => destruct o as [curr_pos|] end; [|discriminate].
  simpl in H. injection H as <-.
  constructor; simpl; try assumption.
  apply Forall_app. split; [assumption|].
  constructor; [now apply fresh_command_ok|constructor].
Qed.

Lemma global_command_step_Inv (fp : bool) (s s' : State) (r : cmd_ref) :
  Inv s → global_command_step fp s r = Some s' → Inv s'.
Proof.
  intros HI H. unfold global_command_step in H.
  destruct (commands s !! r) as [c|]; [|discriminate]. simpl in H.
  destruct (_ && _ && _).
  - apply on_command_Inv in H; auto.
  - destruct (_ && _ && _).
    + apply on_command_Inv in H; auto.
    + now injection H as <-.
Qed.

Lemma GameWorld_update_Inv (dt : R) (s s' : State) :
  0 <= dt → Inv s → GameWorld_update dt s = Some s' → Inv s'.
Proof.
  intros Hdt HI H. unfold GameWorld_update in H.
  match type of H with
  | (foldlM ?f ?s0 ?l ≫= _) = _ =>
      destruct (foldlM f s0 l) as [s1|] eqn:E; [|discriminate];
      assert (HI0 : Inv s0)
  end.
  { destruct HI as [HG HP HE HC HCh HS HK]. constructor; simpl; try assumption.
    destruct (rewinding (world s)); [apply Rmax_l|lra]. }
  simpl in H. injection H as <-.
  apply (foldlM_inv Inv) in E; [| |assumption].
  - destruct E as [HG HP HE HC HCh HS HK]. now constructor.
  - intros b x b' Hb _. now apply global_command_step_Inv.
Qed.

(** One entity's [update] keeps its clock at or above zero. *)
Lemma update_entity_ok (dt g : R) (rew : bool) (n : nat)
    (done done' : list Entity) (p p' : Player) (e : Entity) :
  0 <= g →
  Forall (entity_ok n) done → 0 <= local_time (player_base p) → entity_ok n e →
  update_entity dt g rew (done, p) e = Some (done', p') →
  Forall (entity_ok n) done' ∧ 0 <= local_time (player_base p').
Proof.
  intros Hg Hd Hp He H. unfold update_entity in H.
  destruct e as [|t|b|gb|gp].
  - unfold Player_update, TimeEntity_update in H. simpl in H.
    destruct (get_pos _ _); [|discriminate]. simpl in H. injection H as <- <-.
    split; [|apply Rmax_r].
    apply Forall_app. split; [assumption|]. constructor; [exact I|constructor].
  - unfold Timer_update, TimeEntity_update in H.
    destruct (pos (timer_base t)); [|discriminate]. simpl in H. injection H as <- <-.
    split; [|assumption].
    apply Forall_app. split; [assumption|]. constructor; [|constructor].
    simpl. apply Rmax_r.
  - unfold Bullet_update, TimeEntity_update in H.
    destruct (pos (bullet_base b)); [|discriminate]. simpl in H. injection H as <- <-.
    split; [|assumption].
    apply Forall_app. split; [assumption|]. constructor; [|constructor].
    simpl. apply Rmax_r.
  - injection H as <- <-. split; [|assumption].
    apply Forall_app. split; [assumption|]. constructor; [|constructor].
    unfold GhostBullet_update. destruct (Rlt_dec g (spawn_time gb)); [assumption|].
    destruct He as [_ Ht]. simpl. split; [apply Rmax_l|assumption].
  - injection H as <- <-. split; [|assumption].
    apply Forall_app. split; [assumption|]. constructor; [|constructor].
    destruct He as [_ Ht]. simpl. split; assumption.
Qed.

Lemma update_entities_Inv (dt : R) (s s' : State) :
  Inv s → update_entities dt s = Some s' → Inv s'.
Proof.
  intros [HG HP HE HC HCh HS HK] H. unfold update_entities in H.
  destruct (foldlM _ _ _) as [[done p]|] eqn:E; [|discriminate].
  simpl in H. injection H as <-.
  set (n := next_timeline_id (world s)) in *.
  apply (foldlM_inv (λ acc, Forall (entity_ok n) acc.1
                             ∧ 0 <= local_time (player_base acc.2))) in E.
  - destruct E as [Hd Hp]. subst n. simpl in Hd, Hp. constructor; simpl; assumption.
  - intros [d1 p1] e [d2 p2] [Hd Hp] He Hstep. simpl in Hd, Hp. simpl.
    rewrite Forall_forall in HE.
    exact (update_entity_ok dt _ _ n d1 d2 p1 p2 e HG Hd Hp (HE e He) Hstep).
  - simpl. split; [constructor|assumption].
Qed.

Lemma drop_obsolete_Inv (s : State) : Inv s → Inv (drop_obsolete s).
Proof.
  intros [HG HP HE HC HCh HS HK]. unfold drop_obsolete.
  destruct (rewinding (world s)); constructor; simpl; try assumption.
  now apply Forall_filter_keep.
Qed.

(** ** The branch evaluation *)

Lemma pruned_nil (s0 : State) (new : nat) :
  pruned s0 [] (global_commands (world s0)) (commands s0) new = s0.
Proof.
  destruct s0 as [w h p ch act was]. destruct w. unfold pruned. simpl.
  now rewrite app_nil_r.
Qed.

Lemma pruned_snoc (s0 : State) (ghosts : list Entity) (gcs gcs' : list cmd_ref)
    (cmds cmds' : list Command) (new : nat) (e : Entity) :
  let s := pruned s0 ghosts gcs cmds new in
  set_active_timelines (active_add new 1 (active_timelines s))
    (set_world (set_global_commands gcs' (set_entities (entities (world s) ++ [e]) (world s)))
       (set_commands cmds' s))
  = pruned s0 (ghosts ++ [e]) gcs' cmds' new.
Proof.
  unfold pruned. simpl. rewrite length_app, Nat.add_1_r, <- app_assoc. reflexivity.
Qed.

Lemma add_ghosted_ok (new : nat) (c : Command) :
  command_ok (S new) c → command_ok (S new) (add_ghosted new c).
Proof.
  intros Hc tid Ht. simpl in Ht. apply elem_of_union in Ht as [Ht|Ht].
  - apply elem_of_singleton in Ht. lia.
  - now apply Hc.
Qed.

Lemma ghost_bullet_is_branch_ghost spawn p v g ml c new :
  branch_ghost new (EGhostBullet (GhostBullet_init spawn p v g ml c new)).
Proof. split; [reflexivity|]. simpl. split; [apply Rmax_l|lia]. Qed.

Section Prune.
Variables (s0 : State) (time_point : R) (new prev : nat).
Variable P : Command → Prop.
Hypothesis P_marked : ∀ c, P c → P (add_ghosted new c).

Lemma bullet_spawn_step_pruned (acc acc' : State * bool) (r : cmd_ref) :
    bullets_pruned s0 new P acc →
    bullet_spawn_step time_point new prev acc r = Some acc' →
    bullets_pruned s0 new P acc'.
  Proof.
    intros (ghosts & gcs & cmds & Hs & Hc & Hg & Hok & Hnil) H.
    destruct acc as [s created]. simpl in Hs, Hc. subst s.
    unfold bullet_spawn_step in H.
    destruct (commands _ !! r) as [c|] eqn:Hr; [|discriminate]. simpl in H.
    destruct (is_shoot c && to_ghost time_point new prev c).
    - destruct (cmd_data c) as [p vel id ml|]; [|discriminate].
      injection H as <-.
      eexists (ghosts ++ [_]), _, _. simpl. split; [apply pruned_snoc|].
      split; [|split; [|split]].
      + split; [intros _|reflexivity]. now destruct ghosts.
      + apply Forall_app. split; [assumption|].
        constructor; [apply ghost_bullet_is_branch_ghost|constructor].
      + apply Forall_insert; [assumption|]. apply P_marked.
        rewrite Forall_lookup in Hok. exact (Hok r c Hr).
      + intros Habs. now destruct ghosts.
    - injection H as <-. now exists ghosts, gcs, cmds.
  Qed.

Lemma prune_future_bullet_spawns_pruned (r1 : State * bool) :
    Forall P (commands s0) →
    prune_future_bullet_spawns s0 time_point new prev = Some r1 →
    bullets_pruned s0 new P r1.
  Proof.
    intros Hok H. unfold prune_future_bullet_spawns in H.
    apply (foldlM_inv (bullets_pruned s0 new P)) in H; [assumption| |].
    - intros b x b' Hb _. now apply bullet_spawn_step_pruned.
    - exists [], (global_commands (world s0)), (commands s0). simpl.
      split; [symmetry; apply pruned_nil|]. repeat split; done.
  Qed.

Lemma player_move_step_pruned (s1 : State) (acc acc' : State * Path) (r : cmd_ref) :
    moves_pruned s1 P acc →
    player_move_step time_point new prev acc r = Some acc' →
    moves_pruned s1 P acc'.
  Proof.
    intros (cmds & Hs & Hok & Hnil) H.
    destruct acc as [s path]. simpl in Hs, Hnil. subst s.
    unfold player_move_step in H. simpl in H.
    destruct (cmds !! r) as [c|] eqn:Hr; [|discriminate]. simpl in H.
    destruct (is_player_move c && to_ghost time_point new prev c).
    - injection H as <-. eexists. simpl. split; [reflexivity|]. split.
      + apply Forall_insert; [assumption|]. apply P_marked.
        rewrite Forall_lookup in Hok. exact (Hok r c Hr).
      + intros Habs. now destruct path.
    - injection H as <-. now exists cmds.
  Qed.

Lemma set_commands_same (s : State) : set_commands (commands s) s = s.
  Proof. now destruct s. Qed.

Lemma prune_future_player_moves_pruned (r1 r2 : State * bool) :
    bullets_pruned s0 new P r1 →
    prune_future_player_moves r1.1 time_point new prev = Some r2 →
    bullets_pruned s0 new P (r2.1, r1.2 || r2.2).
  Proof.
    intros (ghosts & gcs & cmds & Hs & Hc & Hg & Hok & Hnil) H.
    destruct r1 as [s1 created]. simpl in Hs, Hc, H |- *.
    unfold prune_future_player_moves in H.
    destruct (foldlM _ _ _) as [[s path]|] eqn:E; [|discriminate]. simpl in H.
    apply (foldlM_inv (moves_pruned s1 P)) in E.
    - destruct E as (cmds' & Hs' & Hok' & Hnil'). simpl in Hs', Hnil'.
      destruct path as [|step path].
      + injection H as <-. simpl. rewrite orb_false_r.
        rewrite Hs', (Hnil' eq_refl), set_commands_same.
        now exists ghosts, gcs, cmds.
      + destruct (GhostPlayer_init _ _ _) as [ghost|] eqn:Eg; [|discriminate].
        simpl in H. injection H as <-. simpl. rewrite orb_true_r.
        exists (ghosts ++ [EGhostPlayer ghost]), gcs, cmds'.
        split; [|split; [|split; [|split]]].
        * subst s s1. unfold pruned. simpl.
          rewrite length_app, Nat.add_1_r, <- app_assoc. reflexivity.
        * split; [intros _|reflexivity]. now destruct ghosts.
        * apply Forall_app. split; [assumption|]. constructor; [|constructor].
          unfold GhostPlayer_init in Eg. simpl in Eg. injection Eg as <-.
          split; [reflexivity|]. simpl. split; [lra|lia].
        * assumption.
        * intros Habs. now destruct ghosts.
    - intros b x b' Hb _. now apply player_move_step_pruned.
    - exists (commands s1). simpl. split; [now rewrite set_commands_same|].
      split; [now subst s1|reflexivity].
  Qed.
End Prune.

(** *** The active-timeline counters *)

Lemma iter_active_add (k n : nat) (m : gmap nat Z) :
  Nat.iter (S n) (active_add k 1) m
  = <[k := (default 0 (m !! k) + Z.of_nat (S n))%Z]> m.
Proof.
  induction n as [|n IH].
  - reflexivity.
  - change (Nat.iter (S (S n)) (active_add k 1) m)
      with (active_add k 1 (Nat.iter (S n) (active_add k 1) m)).
    rewrite IH. unfold active_add.
    rewrite lookup_insert_eq, insert_insert_eq. simpl. f_equal. lia.
Qed.

Lemma active_count_insert (k : nat) (v : Z) (m : gmap nat Z) :
  active_count (<[k := v]> m)
  = (active_count (delete k m) + if decide (0 < v)%Z then 1 else 0)%nat.
Proof.
  unfold active_count. rewrite <- insert_delete_eq, map_filter_insert. simpl.
  destruct (decide (0 < v)%Z).
  - rewrite map_size_insert_None; [lia|].
    rewrite map_lookup_filter, lookup_delete_eq. reflexivity.
  - rewrite delete_delete_eq. lia.
Qed.

Lemma active_count_delete (k : nat) (m : gmap nat Z) :
  active_count m
  = (active_count (delete k m)
     + match m !! k with Some v => if decide (0 < v)%Z then 1 else 0 | None => 0 end)%nat.
Proof.
  destruct (m !! k) as [v|] eqn:E.
  - rewrite <- (insert_id m k v E) at 1. apply active_count_insert.
  - rewrite delete_id by assumption. lia.
Qed.

Lemma commit_branch_spec (temp : nat) (s2 s' : State) :
  commit_branch temp s2 = Some s' →
  ∃ log path,
    s' = set_player
           (mkPlayer (player_base (player s2)) (shoot_cooldown (player s2))
              (last_shot_time (player s2)) (move_speed (player s2)) path)
           (set_world
              (set_permanent_command_log log
                 (set_timeline_ids temp (S (next_timeline_id (world s2))) (world s2)))
              (set_rewind_charges (rewind_charges s2 - 1) s2)).
Proof.
  unfold commit_branch. intros H.
  destruct (filter_refs _ _ _) as [log|]; [|discriminate]. simpl in H.
  match type of H with (?o ≫= _) = _ => destruct o as [path|] end; [|discriminate].
  simpl in H. injection H as <-. now exists log, path.
Qed.

(** The three ways through the branch evaluation. *)
Lemma branch_evaluation_cases (P : Command → Prop) (s s' : State) :
  let new := next_timeline_id (world s) in
  (∀ c, P c → P (add_ghosted new c)) → Forall P (commands s) →
  branch_evaluation s = Some s' →
  (branch_trigger s = false ∧ s' = s)
  ∨ (branch_trigger s = true
     ∧ ∃ ghosts gcs cmds,
         Forall (branch_ghost new) ghosts ∧ Forall P cmds
         ∧ ((ghosts = []
             ∧ s' = set_active_timelines (delete new (active_timelines s)) s)
            ∨ (ghosts ≠ []
               ∧ commit_branch new (pruned s ghosts gcs cmds new) = Some s'))).
Proof.
  intros new HP Hok H. unfold branch_evaluation in H.
  destruct (branch_trigger s); [right; split; [reflexivity|]|left; now injection H as <-].
  destruct (prune_future_bullet_spawns _ _ _ _) as [r1|] eqn:E1; [|discriminate].
  simpl in H.
  destruct (prune_future_player_moves _ _ _ _) as [r2|] eqn:E2; [|discriminate].
  simpl in H. fold new in E1, E2, H.
  apply (prune_future_bullet_spawns_pruned s _ new _ P HP) in E1; [|assumption].
  pose proof (prune_future_player_moves_pruned s _ new _ P HP r1 r2 E1 E2) as E.
  destruct E as (ghosts & gcs & cmds & Hs & Hc & Hg & Hcm & Hnil).
  simpl in Hs, Hc. exists ghosts, gcs, cmds. split; [assumption|]. split; [assumption|].
  destruct (r1.2 || r2.2) eqn:Ecr.
  - right. split; [now apply Hc|]. now rewrite <- Hs.
  - left. assert (ghosts = []) as ->.
    { destruct ghosts; [reflexivity|]. exfalso.
      assert (false = true); [|discriminate]. now apply Hc. }
    split; [reflexivity|]. injection H as <-.
    destruct (Hnil eq_refl) as [-> ->]. rewrite Hs, pruned_nil. reflexivity.
Qed.

Lemma fresh_timeline_key (s : State) :
  Inv s → active_timelines s !! next_timeline_id (world s) = None.
Proof.
  intros HI. destruct (active_timelines s !! _) eqn:E; [|reflexivity].
  pose proof (inv_active_keys s HI _ (mk_is_Some _ _ E)). lia.
Qed.

Lemma branch_evaluation_Inv (s s' : State) :
  Inv s → branch_evaluation s = Some s' → Inv s'.
Proof.
  intros HI H. pose proof (fresh_timeline_key s HI) as Hfresh.
  apply (branch_evaluation_cases (command_ok (S (next_timeline_id (world s))))) in H.
  - destruct H as [[_ ->]|[Htr (ghosts & gcs & cmds & Hg & Hcm & Hcase)]]; [assumption|].
    destruct Hcase as [[-> ->]|[Hne Hcommit]].
    + rewrite delete_id by assumption.
      now replace (set_active_timelines (active_timelines s) s) with s by now destruct s.
    + apply commit_branch_spec in Hcommit as (log & path & ->).
      destruct HI as [HG HP HE HC HCh HS HK].
      unfold branch_trigger in Htr. apply andb_prop in Htr as [_ Hpos].
      apply bool_decide_eq_true in Hpos.
      destruct ghosts as [|g0 ghosts]; [contradiction|].
      unfold pruned. change (length (g0 :: ghosts)) with (S (length ghosts)).
      rewrite iter_active_add.
      constructor; simpl; try assumption.
      * apply Forall_app. split.
        -- eapply Forall_impl; [exact HE|]. intros e. apply entity_ok_mono. lia.
        -- eapply Forall_impl; [exact Hg|]. now intros e [_ He].
      * lia.
      * rewrite active_count_insert, delete_id by assumption.
        destruct (decide _); lia.
      * intros k Hk.
        destruct (decide (k = next_timeline_id (world s))) as [->|Hne']; [lia|].
        rewrite lookup_insert_ne in Hk by congruence. apply HK in Hk. lia.
  - apply add_ghosted_ok.
  - eapply Forall_impl; [exact (inv_commands s HI)|].
    intros c. apply command_ok_mono. lia.
Qed.

(** *** The branch evaluation runs through *)

Lemma foldlM_total {A B} (I : B → Prop) (f : B → A → option B) (l : list A) (b : B) :
  (∀ b x, I b → x ∈ l → ∃ b', f b x = Some b' ∧ I b') →
  I b → ∃ b', foldlM f b l = Some b' ∧ I b'.
Proof.
  revert b. induction l as [|x l IH]; intros b Hstep Hb; simpl.
  - now exists b.
  - destruct (Hstep b x Hb) as (b1 & -> & Hb1); [left|]. simpl.
    apply IH; [|assumption]. intros b2 y H2 Hy. apply Hstep; [assumption|now right].
Qed.

Lemma add_ghosted_has_data (tid : nat) (c : Command) :
  shoot_has_data c → shoot_has_data (add_ghosted tid c).
Proof. intros H. exact H. Qed.

Lemma bullet_spawn_step_total (s0 : State) (tp : R) (new prev : nat)
    (acc : State * bool) (r : cmd_ref) :
  (r < length (commands s0))%nat → prune_keeps s0 acc.1 →
  ∃ acc', bullet_spawn_step tp new prev acc r = Some acc' ∧ prune_keeps s0 acc'.1.
Proof.
  destruct acc as [s created]. simpl. intros Hr (Hlen & Hdata & Hp & Hlog & Hgc).
  unfold bullet_spawn_step.
  destruct (commands s !! r) as [c|] eqn:Hc; [|apply lookup_ge_None in Hc; lia].
  simpl.
  destruct (is_shoot c) eqn:Eshoot; simpl.
  - destruct (to_ghost tp new prev c).
    + rewrite Forall_lookup in Hdata.
      destruct (Hdata r c Hc Eshoot) as (p & v & id & ml & ->).
      eexists. split; [reflexivity|].
      unfold prune_keeps.
      cbn [fst commands player world permanent_command_log set_active_timelines
           set_world set_commands set_global_commands set_entities].
      repeat split; try assumption.
      * now rewrite length_insert.
      * apply Forall_insert; [now apply Forall_lookup|].
        apply add_ghosted_has_data. exact (Hdata r c Hc).
      * intros P HP. apply Forall_remove_first. now apply Hgc.
    + eexists. split; [reflexivity|]. now repeat split.
  - eexists. split; [reflexivity|]. now repeat split.
Qed.

Lemma player_move_step_total (s0 : State) (tp : R) (new prev : nat)
    (acc : State * Path) (r : cmd_ref) :
  (r < length (commands s0))%nat → prune_keeps s0 acc.1 →
  ∃ acc', player_move_step tp new prev acc r = Some acc' ∧ prune_keeps s0 acc'.1.
Proof.
  destruct acc as [s path]. simpl. intros Hr (Hlen & Hdata & Hp & Hlog & Hgc).
  unfold player_move_step.
  destruct (commands s !! r) as [c|] eqn:Hc; [|apply lookup_ge_None in Hc; lia].
  simpl.
  destruct (_ && _).
  - eexists. split; [reflexivity|].
    unfold prune_keeps.
    cbn [fst commands player world permanent_command_log set_commands].
    repeat split; try assumption.
    + now rewrite length_insert.
    + apply Forall_insert; [assumption|]. apply add_ghosted_has_data.
      rewrite Forall_lookup in Hdata. exact (Hdata r c Hc).
  - eexists. split; [reflexivity|]. now repeat split.
Qed.

Lemma filter_refs_total (keep : Command → bool) (h : list Command) (l : list cmd_ref) :
  Forall (λ r : cmd_ref, (r < length h)%nat) l → ∃ l', filter_refs keep h l = Some l'.
Proof.
  induction 1 as [|r l Hr _ [l' IH]]; simpl; [now eexists|].
  destruct (h !! r) as [c|] eqn:Hc; [|apply lookup_ge_None in Hc; lia].
  simpl. rewrite IH. simpl. now eexists.
Qed.

(** On a well-formed store the branch evaluation raises nothing. *)
Lemma branch_evaluation_total (s : State) :
  store_ok s → ∃ s', branch_evaluation s = Some s'.
Proof.
  intros (Hlog & Hdata & Hpos). unfold branch_evaluation.
  destruct (branch_trigger s); [|now eexists].
  set (tp := local_time (player_base (player s))).
  set (new := next_timeline_id (world s)).
  set (prev := current_timeline_id (world s)).
  assert (H0 : prune_keeps s s) by now repeat split.
  destruct (foldlM_total (λ acc, prune_keeps s acc.1)
              (bullet_spawn_step tp new prev)
              (permanent_command_log (world s)) (s, false))
    as ([s1 c1] & E1 & K1); [|exact H0|].
  { intros b r Hb Hr. apply bullet_spawn_step_total; [|assumption].
    rewrite Forall_forall in Hlog. now apply Hlog. }
  unfold prune_future_bullet_spawns. rewrite E1. simpl.
  simpl in K1. destruct K1 as (Hlen1 & Hdata1 & Hp1 & Hlog1 & Hgc1).
  destruct (foldlM_total (λ acc, prune_keeps s acc.1)
              (player_move_step tp new prev)
              (permanent_command_log (world s1)) (s1, []))
    as ([s2 path] & E2 & K2); [|now repeat split|].
  { intros b r Hb Hr. apply player_move_step_total; [|assumption].
    rewrite Hlog1 in Hr. rewrite Forall_forall in Hlog. now apply Hlog. }
  unfold prune_future_player_moves. rewrite E2. simpl.
  simpl in K2. destruct K2 as (Hlen2 & Hdata2 & Hp2 & Hlog2 & Hgc2).
  assert (Hcommit : ∀ s3, player s3 = player s →
            permanent_command_log (world s3) = permanent_command_log (world s) →
            length (commands s3) = length (commands s) →
            ∃ s', commit_branch new s3 = Some s').
  { intros s3 Hp3 Hlog3 Hlen3. unfold commit_branch. simpl.
    destruct (filter_refs_total
                (λ c, negb (is_player_move c && bool_decide (origin_timeline c = new)
                            && bool_decide (local_time (player_base (player s3))
                                            < scheduled_time c)))
                (commands s3) (permanent_command_log (world s3))) as [log ->].
    { rewrite Hlog3, Hlen3. exact Hlog. }
    simpl. destruct (filter _ _); simpl; [|now eexists].
    rewrite Hp3. destruct Hpos as [ppos ->]. simpl. now eexists. }
  destruct path as [|step path].
  - simpl. rewrite orb_false_r. destruct c1; [|now eexists].
    now apply Hcommit.
  - simpl. rewrite orb_true_r. now apply Hcommit.
Qed.

Lemma resumed_state_ok : store_ok resumed_state.
Proof.
  repeat split.
  - repeat constructor.
  - constructor; [|constructor]. intros _. now eexists _, _, _, _.
  - now eexists.
Qed.

(** ** Retirement and the per-frame ghost passes *)

Lemma default_lookup_positive (m : gmap nat Z) (k : nat) :
  (0 < default 0 (m !! k))%Z → m !! k = Some (default 0%Z (m !! k)).
Proof. destruct (m !! k); simpl; [reflexivity|lia]. Qed.

(** A timeline is retired when its counter was 1: its entry goes and one
    charge comes back, which never exceeds the maximum. *)
Lemma retire_timeline_last (tid : nat) (charges : Z) (active : gmap nat Z) :
  active !! tid = Some 1%Z →
  retire_timeline tid (charges, active)
  = (Z.min (charges + 1) MAX_REWINDS, delete tid active).
Proof.
  intros H. unfold retire_timeline, active_add. rewrite H. simpl.
  rewrite lookup_insert_eq.
  rewrite bool_decide_eq_true_2 by reflexivity.
  now rewrite delete_insert_eq.
Qed.

Lemma retire_timeline_ok (next tid : nat) (st : Z * gmap nat Z) :
  (tid < next)%nat → bookkeeping_ok next st → bookkeeping_ok next (retire_timeline tid st).
Proof.
  destruct st as [ch act]. intros Ht (Hch & Hsum & Hkeys). simpl in Hch, Hsum, Hkeys.
  unfold retire_timeline, active_add. rewrite lookup_insert_eq.
  pose proof (active_count_delete tid act) as Hcount.
  destruct (bool_decide _) eqn:E.
  - apply bool_decide_eq_true in E. injection E as E.
    rewrite delete_insert_eq.
    rewrite (default_lookup_positive act tid) in Hcount by lia.
    replace (default 0%Z (act !! tid)) with 1%Z in Hcount by lia.
    destruct (decide (0 < 1)%Z); [|lia].
    unfold bookkeeping_ok, MAX_REWINDS in *. simpl. repeat split; try lia.
    intros k Hk. apply Hkeys. rewrite lookup_delete in Hk.
    destruct (decide (tid = k)); [now destruct Hk|assumption].
  - unfold bookkeeping_ok. simpl. split; [assumption|]. split.
    + rewrite active_count_insert.
      destruct (decide (0 < default 0 (act !! tid) + -1)%Z) as [Hpos|Hneg].
      * rewrite (default_lookup_positive act tid) in Hcount by lia.
        destruct (decide (0 < default 0 (act !! tid))%Z); lia.
      * lia.
    + intros k Hk. destruct (decide (k = tid)) as [->|Hne]; [assumption|].
      rewrite lookup_insert_ne in Hk by congruence. now apply Hkeys.
Qed.

Lemma ghost_end_time_id (e : Entity) (t : R) (tid : nat) :
  ghost_end_time e = Some (t, tid) → entity_timeline_id e = Some tid.
Proof.
  destruct e as [| | |g|g]; simpl; try discriminate.
  - destruct (max_lifetime _); simpl; [|discriminate]. now intros [= _ <-].
  - destruct (last _); simpl; [|discriminate]. now intros [= _ <-].
Qed.

Lemma entity_ok_timeline_id (n tid : nat) (e : Entity) :
  entity_ok n e → entity_timeline_id e = Some tid → (tid < n)%nat.
Proof.
  destruct e as [| | |g|g]; simpl; try discriminate; intros [_ H] [= <-]; assumption.
Qed.

Lemma retire_ghosts_ok (next : nat) (g : R) (es : list Entity) (st : Z * gmap nat Z) :
  Forall (entity_ok next) es → bookkeeping_ok next st →
  Forall (entity_ok next) (retire_ghosts g es st).1
  ∧ bookkeeping_ok next (retire_ghosts g es st).2.
Proof.
  intros Hes. revert st. induction Hes as [|e es He Hes IH]; intros st Hst; simpl.
  - split; [constructor|assumption].
  - destruct (ghost_end_time e) as [[t tid]|] eqn:E.
    + destruct (Rlt_dec t g).
      * apply IH. apply retire_timeline_ok; [|assumption].
        apply ghost_end_time_id in E. now apply entity_ok_timeline_id with e.
      * simpl. destruct (IH st Hst). split; [now constructor|assumption].
    + simpl. destruct (IH st Hst). split; [now constructor|assumption].
Qed.

Lemma retirement_Inv (s : State) : Inv s → Inv (retirement s).
Proof.
  intros [HG HP HE HC HCh HS HK]. unfold retirement.
  destruct (retire_ghosts_ok (next_timeline_id (world s)) (global_time (world s))
              (entities (world s)) (rewind_charges s, active_timelines s) HE)
    as [HE' (HCh' & HS' & HK')]; [now repeat split|].
  constructor; simpl; assumption.
Qed.

Lemma ghost_player_step_Inv (s s' : State) (tid : nat) :
  (tid < next_timeline_id (world s))%nat →
  Inv s → ghost_player_step s tid = Some s' →
  Inv s' ∧ next_timeline_id (world s') = next_timeline_id (world s).
Proof.
  intros Ht HI H. unfold ghost_player_step in H.
  destruct (collect_moves _ _ _) as [path|]; [|discriminate]. simpl in H.
  destruct path as [|step path]; [injection H as <-; now split|].
  destruct (sort_path _) as [sorted|]; [|discriminate]. simpl in H.
  destruct (head sorted) as [first|]; [|discriminate]. simpl in H.
  destruct (last sorted) as [final|]; [|discriminate]. simpl in H.
  destruct HI as [HG HP HE HC HCh HS HK].
  destruct (_ && _).
  - destruct (existsb _ _); [injection H as <-; now split|].
    destruct (GhostPlayer_init _ _ _) as [ghost|] eqn:Eg; [|discriminate].
    simpl in H. injection H as <-. split; [|reflexivity].
    constructor; simpl; try assumption.
    apply Forall_app. split; [assumption|]. constructor; [|constructor].
    unfold GhostPlayer_init in Eg. destruct (head sorted); [|discriminate].
    simpl in Eg. injection Eg as <-. simpl. split; [lra|assumption].
  - injection H as <-. split; [|reflexivity].
    constructor; simpl; try assumption. now apply Forall_filter_keep.
Qed.

Lemma reconcile_ghost_players_Inv (s s' : State) :
  Inv s → reconcile_ghost_players s = Some s' → Inv s'.
Proof.
  intros HI H. unfold reconcile_ghost_players in H.
  set (n := next_timeline_id (world s)) in *.
  apply (foldlM_inv (λ b, Inv b ∧ next_timeline_id (world b) = n)) in H.
  - apply H.
  - intros b tid b' [Hb Hn] Hin Hstep.
    apply elem_of_seq in Hin.
    destruct (ghost_player_step_Inv b b' tid) as [Hb' Hn']; try assumption; [lia|].
    split; [assumption|congruence].
  - now split.
Qed.

Lemma ghost_bullet_step_ok (n : nat) (r : cmd_ref) (c : Command) (w w' : GameWorld)
    (tid : nat) :
  (tid < n)%nat → Forall (entity_ok n) (entities w) →
  ghost_bullet_step r c w tid = Some w' →
  Forall (entity_ok n) (entities w') ∧ w' = set_entities (entities w') w.
Proof.
  intros Ht HE H. unfold ghost_bullet_step in H.
  destruct (_ && _).
  - destruct (existsb _ _).
    + injection H as <-. split; [assumption|now destruct w].
    + destruct (cmd_data c) as [p vel id ml|]; [|discriminate].
      injection H as <-. simpl. split; [|reflexivity].
      apply Forall_app. split; [assumption|]. constructor; [|constructor].
      simpl. split; [apply Rmax_l|assumption].
  - injection H as <-. simpl. split; [|reflexivity]. now apply Forall_filter_keep.
Qed.

Lemma ghost_bullets_of_command_Inv (s s' : State) (r : cmd_ref) :
  Inv s → ghost_bullets_of_command s r = Some s' → Inv s'.
Proof.
  intros HI H. unfold ghost_bullets_of_command in H.
  destruct (commands s !! r) as [c|] eqn:Hr; [|discriminate]. simpl in H.
  destruct (is_shoot c); [|now injection H as <-].
  destruct (foldlM _ _ _) as [w|] eqn:E; [|discriminate]. simpl in H.
  injection H as <-.
  destruct HI as [HG HP HE HC HCh HS HK].
  set (n := next_timeline_id (world s)) in *.
  apply (foldlM_inv (λ w, Forall (entity_ok n) (entities w)
                           ∧ w = set_entities (entities w) (world s))) in E.
  - destruct E as [HE' Hw]. rewrite Hw. constructor; simpl; assumption.
  - intros w1 tid w2 [HE1 Hw1] Hin Hstep.
    apply elem_of_elements in Hin.
    rewrite Forall_lookup in HC. specialize (HC r c Hr tid Hin).
    destruct (ghost_bullet_step_ok n r c w1 w2 tid HC HE1 Hstep) as [HE2 Hw2].
    split; [assumption|]. rewrite Hw2, Hw1. reflexivity.
  - split; [assumption|now destruct (world s)].
Qed.

Lemma reconcile_ghost_bullets_Inv (s s' : State) :
  Inv s → reconcile_ghost_bullets s = Some s' → Inv s'.
Proof.
  intros HI H. unfold reconcile_ghost_bullets in H.
  apply (foldlM_inv Inv) in H; [assumption| |assumption].
  intros b r b' Hb _. now apply ghost_bullets_of_command_Inv.
Qed.

(** ** The invariant along the game loop *)

Lemma frame_Inv (i : Input) (s s' : State) :
  valid_input i → Inv s → frame i s = Some s' → Inv s'.
Proof.
  intros [Hdt _] HI H. unfold frame in H.
  destruct (foldlM handle_event s (events i)) as [s1|] eqn:E1; [|discriminate].
  simpl in H.
  destruct (record_move i s1) as [s2|] eqn:E2; [|discriminate]. simpl in H.
  destruct (GameWorld_update (dt i) s2) as [s3|] eqn:E3; [|discriminate]. simpl in H.
  destruct (update_entities (dt i) s3) as [s4|] eqn:E4; [|discriminate]. simpl in H.
  destruct (branch_evaluation (drop_obsolete s4)) as [s5|] eqn:E5; [|discriminate].
  simpl in H.
  destruct (reconcile_ghost_players _) as [s6|] eqn:E6; [|discriminate]. simpl in H.
  apply (foldlM_inv Inv) in E1; [| |assumption].
  2: { intros b ev b' Hb _. now apply handle_event_Inv. }
  apply record_move_Inv in E2; [|assumption].
  apply GameWorld_update_Inv in E3; [|assumption..].
  apply update_entities_Inv in E4; [|assumption].
  apply branch_evaluation_Inv in E5; [|now apply drop_obsolete_Inv].
  apply reconcile_ghost_players_Inv in E6.
  - now apply reconcile_ghost_bullets_Inv with s6.
  - apply retirement_Inv. destruct E5. now constructor.
Qed.

Lemma timer_grid_ok (n : nat) : Forall (entity_ok n) timer_grid.
Proof. unfold timer_grid. simpl. repeat (constructor; [simpl; lra|]). constructor. Qed.

Lemma initial_state_Inv : Inv initial_state.
Proof.
  constructor; simpl; try lra.
  - constructor; [exact I|apply timer_grid_ok].
  - constructor.
  - unfold MAX_REWINDS. lia.
  - unfold active_count. rewrite map_filter_empty, map_size_empty.
    unfold MAX_REWINDS. lia.
  - intros k [v Hk]. rewrite lookup_empty in Hk. discriminate.
Qed.

Lemma reachable_Inv (s : State) : reachable s → Inv s.
Proof.
  induction 1 as [|i s s' _ IH Hi Hf]; [apply initial_state_Inv|].
  now apply frame_Inv with i s.
Qed.

Lemma entity_ok_local_time (n : nat) (p : Player) (e : Entity) :
  0 <= local_time (player_base p) → entity_ok n e → 0 <= entity_local_time p e.
Proof. destruct e; simpl; tauto. Qed.

(** C5: whatever [dt] and the rewinding flag are, an entity's [update]
    leaves its [local_time] at or above zero (a ghost follows the global
    clock, which is never negative); and at the end of every pass of the
    loop every entity of the world, live or ghost, has [local_time >= 0]. *)
Theorem local_time_nonnegative :
  (∀ (dt g : R) (rew : bool) (done done' : list Entity) (p p' : Player) (e : Entity),
     0 <= g → 0 <= local_time (player_base p) → 0 <= entity_local_time p e →
     update_entity dt g rew (done, p) e = Some (done', p') →
     ∃ e', done' = done ++ [e'] ∧ 0 <= entity_local_time p' e'
           ∧ 0 <= local_time (player_base p'))
  ∧ (∀ s, reachable s →
       0 <= global_time (world s)
       ∧ ∀ e, e ∈ entities (world s) → 0 <= entity_local_time (player s) e).
Proof.
  split.
  - intros dt g rew done done' p p' e Hg Hp He H. unfold update_entity in H.
    destruct e as [|t|b|gb|gp].
    + unfold Player_update, TimeEntity_update in H. simpl in H.
      destruct (get_pos _ _); [|discriminate]. simpl in H. injection H as <- <-.
      eexists. split; [reflexivity|]. simpl. split; apply Rmax_r.
    + unfold Timer_update, TimeEntity_update in H.
      destruct (pos (timer_base t)); [|discriminate]. simpl in H. injection H as <- <-.
      eexists. split; [reflexivity|]. simpl. split; [apply Rmax_r|assumption].
    + unfold Bullet_update, TimeEntity_update in H.
      destruct (pos (bullet_base b)); [|discriminate]. simpl in H. injection H as <- <-.
      eexists. split; [reflexivity|]. simpl. split; [apply Rmax_r|assumption].
    + injection H as <- <-. eexists. split; [reflexivity|]. split; [|assumption].
      unfold GhostBullet_update. destruct (Rlt_dec g (spawn_time gb)); [assumption|].
      simpl. apply Rmax_l.
    + injection H as <- <-. eexists. split; [reflexivity|]. split; assumption.
  - intros s Hs. apply reachable_Inv in Hs as [HG HP HE _ _ _ _].
    split; [assumption|]. intros e He.
    rewrite Forall_forall in HE. eapply entity_ok_local_time; eauto.
Qed.


(** ** Well-formed states along the game loop *)

Lemma frame_before_branch (i : Input) (s : State) :
  frame i s
  = before_branch i s ≫= λ s,
    branch_evaluation s ≫= λ s,
    reconcile_ghost_players (retirement (set_was_rewinding (rewinding (world s)) s))
    ≫= λ s, reconcile_ghost_bullets s.
Proof.
  unfold frame, before_branch.
  destruct (foldlM handle_event s (events i)) as [s1|]; [|reflexivity]. simpl.
  destruct (record_move i s1) as [s2|]; [|reflexivity]. simpl.
  destruct (GameWorld_update (dt i) s2) as [s3|]; [|reflexivity]. simpl.
  destruct (update_entities (dt i) s3) as [s4|]; reflexivity.
Qed.

Lemma set_executed_has_data (b : bool) (c : Command) :
  shoot_has_data c → shoot_has_data (set_executed b c).
Proof. intros H. exact H. Qed.

Lemma refs_grow (n m : nat) (l : list cmd_ref) :
  (n <= m)%nat → Forall (λ r : cmd_ref, (r < n)%nat) l → Forall (λ r : cmd_ref, (r < m)%nat) l.
Proof. intros Hn H. eapply Forall_impl; [exact H|]. simpl. intros r Hr. lia. Qed.

Lemma on_command_Wf (m : Command → GameWorld → option (Command * GameWorld))
    (r : cmd_ref) (s s' : State) :
  m = Command_execute ∨ m = Command_reverse →
  Wf s → on_command m r s = Some s' → Wf s'.
Proof.
  intros Hm ((Hlog & Hdata & Hpos) & Hgc & Hpath) H. unfold on_command in H.
  destruct (commands s !! r) as [c|] eqn:Hr; [|discriminate]. simpl in H.
  destruct (m c (world s)) as [[c' w']|] eqn:E; [|discriminate]. simpl in H.
  injection H as <-.
  destruct (Command_method_spec c c' (world s) w') as [[b ->] (es' & -> & _)].
  { destruct Hm as [->| ->]; auto. }
  unfold Wf, store_ok. simpl. rewrite length_insert. repeat split; try assumption.
  apply Forall_insert; [assumption|]. apply set_executed_has_data.
  rewrite Forall_lookup in Hdata. exact (Hdata r c Hr).
Qed.

Lemma Player_shoot_Wf (target : Vec) (id : Z) (s s' : State) :
  Wf s → Player_shoot target id s = Some s' → Wf s'.
Proof.
  intros HW H. unfold Player_shoot in H.
  destruct (pos (player_base (player s))) as [ppos|] eqn:Epos; [|discriminate].
  simpl in H.
  match type of H with
  | (on_command _ ?r ?s0 ≫= _) = _ =>
      destruct (on_command Command_execute r s0) as [s1|] eqn:E; [|discriminate];
      assert (HW0 : Wf s0)
  end.
  { destruct HW as ((Hlog & Hdata & Hpos) & Hgc & Hpath).
    unfold Wf, store_ok. simpl. rewrite length_app. simpl.
    repeat split; try assumption.
    - apply Forall_app. split; [eapply refs_grow; [|exact Hlog]; lia|].
      constructor; [lia|constructor].
    - apply Forall_app. split; [assumption|]. constructor; [|constructor].
      intros _. now eexists _, _, _, _.
    - apply Forall_app. split; [eapply refs_grow; [|exact Hgc]; lia|].
      constructor; [lia|constructor]. }
  simpl in H. injection H as <-.
  pose proof (on_command_player _ _ _ _ E) as Hp.
  apply on_command_Wf in E; [|now left|assumption].
  destruct E as ((Hlog & Hdata & Hpos) & Hgc & Hpath).
  unfold Wf, store_ok. simpl. repeat split; try assumption.
  - rewrite Hp in Hpos. exact Hpos.
  - rewrite Hp in Hpath. exact Hpath.
Qed.

Lemma handle_event_Wf (s s' : State) (ev : Event) :
  Wf s → handle_event s ev = Some s' → Wf s'.
Proof.
  intros HW H. destruct ev as [| |mouse_pos id|]; simpl in H.
  - now injection H as <-.
  - destruct (negb (rewinding (world s)) && bool_decide (0 < rewind_charges s)%Z).
    + now injection H as <-.
    + destruct (rewinding (world s)); injection H as <-; exact HW.
  - destruct (can_shoot (player s)).
    + now apply Player_shoot_Wf with mouse_pos id s.
    + now injection H as <-.
  - now injection H as <-.
Qed.

Lemma record_move_Wf (i : Input) (s s' : State) :
  Wf s → record_move i s = Some s' → Wf s'.
Proof.
  intros ((Hlog & Hdata & Hpos) & Hgc & Hpath) H. unfold record_move in H.
  destruct (Rlt_dec 0 _); [|injection H as <-; now repeat split].
  match type of H with (?o ≫= _) = _ => destruct o as [curr_pos|] end; [|discriminate].
  simpl in H. injection H as <-.
  unfold Wf, store_ok. simpl. rewrite length_app. simpl.
  repeat split; try assumption.
  - apply Forall_app. split; [eapply refs_grow; [|exact Hlog]; lia|].
    constructor; [lia|constructor].
  - apply Forall_app. split; [assumption|]. constructor; [|constructor].
    intros Hs. discriminate.
  - eapply refs_grow; [|exact Hgc]. lia.
  - unfold add_step. intros Habs. now apply app_eq_nil in Habs as [_ ?].
Qed.

Lemma GameWorld_update_Wf (dt : R) (s s' : State) :
  Wf s → GameWorld_update dt s = Some s' → Wf s'.
Proof.
  intros HW H. unfold GameWorld_update in H.
  match type of H with
  | (foldlM ?f ?s0 ?l ≫= _) = _ =>
      destruct (foldlM f s0 l) as [s1|] eqn:E; [|discriminate]
  end.
  simpl in H. injection H as <-.
  apply (foldlM_inv Wf) in E; [exact E| |exact HW].
  intros b r b' Hb _ Hstep. unfold global_command_step in Hstep.
  destruct (commands b !! r) as [c|]; [|discriminate]. simpl in Hstep.
  destruct (_ && _ && _).
  - apply on_command_Wf in Hstep; auto.
  - destruct (_ && _ && _).
    + apply on_command_Wf in Hstep; auto.
    + now injection Hstep as <-.
Qed.

Lemma update_entity_player (dt g : R) (rew : bool) (acc acc' : list Entity * Player)
    (e : Entity) (path : Path) :
  path ≠ [] →
  player_movement acc.2 = path ∧ is_Some (pos (player_base acc.2)) →
  update_entity dt g rew acc e = Some acc' →
  player_movement acc'.2 = path ∧ is_Some (pos (player_base acc'.2)).
Proof.
  destruct acc as [done p]. intros Hne [Hpath Hpos] H. unfold update_entity in H.
  destruct e as [|t|b|gb|gp].
  - unfold Player_update, TimeEntity_update in H. simpl in H.
    destruct (get_pos _ _) as [v|] eqn:Eg; [|discriminate]. simpl in H.
    injection H as <-. split; [exact Hpath|]. simpl. now eexists.
  - destruct (Timer_update _ _ _); [|discriminate]. now injection H as <-.
  - destruct (Bullet_update _ _ _); [|discriminate]. now injection H as <-.
  - now injection H as <-.
  - now injection H as <-.
Qed.

Lemma update_entities_Wf (dt : R) (s s' : State) :
  Wf s → update_entities dt s = Some s' → Wf s'.
Proof.
  intros ((Hlog & Hdata & Hpos) & Hgc & Hpath) H. unfold update_entities in H.
  destruct (foldlM _ _ _) as [[done p]|] eqn:E; [|discriminate].
  simpl in H. injection H as <-.
  apply (foldlM_inv (λ acc, player_movement acc.2 = player_movement (player s)
                             ∧ is_Some (pos (player_base acc.2)))) in E.
  - destruct E as [Hp1 Hp2]. simpl in Hp1, Hp2.
    unfold Wf, store_ok. simpl. repeat split; try assumption. now rewrite Hp1.
  - intros acc e acc' Hacc _ Hstep.
    now apply update_entity_player with dt (global_time (world s))
                (rewinding (world s)) acc e.
  - simpl. now split.
Qed.

Lemma drop_obsolete_Wf (s : State) : Wf s → Wf (drop_obsolete s).
Proof.
  intros HW. unfold drop_obsolete. destruct (rewinding (world s)); exact HW.
Qed.

Lemma before_branch_Wf (i : Input) (s s' : State) :
  Wf s → before_branch i s = Some s' → Wf s'.
Proof.
  intros HW H. unfold before_branch in H.
  destruct (foldlM handle_event s (events i)) as [s1|] eqn:E1; [|discriminate].
  simpl in H.
  destruct (record_move i s1) as [s2|] eqn:E2; [|discriminate]. simpl in H.
  destruct (GameWorld_update (dt i) s2) as [s3|] eqn:E3; [|discriminate]. simpl in H.
  destruct (update_entities (dt i) s3) as [s4|] eqn:E4; [|discriminate]. simpl in H.
  injection H as <-.
  apply (foldlM_inv Wf) in E1; [| |assumption].
  2: { intros b ev b' Hb _. now apply handle_event_Wf. }
  apply record_move_Wf in E2; [|assumption].
  apply GameWorld_update_Wf in E3; [|assumption].
  apply update_entities_Wf in E4; [|assumption].
  now apply drop_obsolete_Wf.
Qed.

Lemma before_branch_Inv (i : Input) (s s' : State) :
  valid_input i → Inv s → before_branch i s = Some s' → Inv s'.
Proof.
  intros [Hdt _] HI H. unfold before_branch in H.
  destruct (foldlM handle_event s (events i)) as [s1|] eqn:E1; [|discriminate].
  simpl in H.
  destruct (record_move i s1) as [s2|] eqn:E2; [|discriminate]. simpl in H.
  destruct (GameWorld_update (dt i) s2) as [s3|] eqn:E3; [|discriminate]. simpl in H.
  destruct (update_entities (dt i) s3) as [s4|] eqn:E4; [|discriminate]. simpl in H.
  injection H as <-.
  apply (foldlM_inv Inv) in E1; [| |assumption].
  2: { intros b ev b' Hb _. now apply handle_event_Inv. }
  apply record_move_Inv in E2; [|assumption].
  apply GameWorld_update_Inv in E3; [|assumption..].
  apply update_entities_Inv in E4; [|assumption].
  now apply drop_obsolete_Inv.
Qed.

Lemma prune_keeps_Wf (s0 s : State) : Wf s0 → prune_keeps s0 s → Wf s.
Proof.
  intros ((Hlog & Hdata & Hpos) & Hgc & Hpath) (Hlen & Hdata' & Hp & Hlog' & Hgc').
  unfold Wf, store_ok. rewrite Hlen, Hp, Hlog'. repeat split; try assumption.
  now apply Hgc'.
Qed.

Lemma prune_future_bullet_spawns_keeps (s : State) (tp : R) (new prev : nat)
    (r1 : State * bool) :
  store_ok s → prune_future_bullet_spawns s tp new prev = Some r1 → prune_keeps s r1.1.
Proof.
  intros (Hlog & Hdata & Hpos) H. unfold prune_future_bullet_spawns in H.
  apply (foldlM_inv (λ acc, prune_keeps s acc.1)) in H; [exact H| |now repeat split].
  intros b r b' Hb Hr Hstep.
  destruct (bullet_spawn_step_total s tp new prev b r) as (b1 & E & Hb1);
    [rewrite Forall_forall in Hlog; now apply Hlog|assumption|].
  rewrite E in Hstep. now injection Hstep as <-.
Qed.

Lemma prune_future_player_moves_keeps (s0 s1 : State) (tp : R) (new prev : nat)
    (r2 : State * bool) :
  store_ok s0 → prune_keeps s0 s1 →
  prune_future_player_moves s1 tp new prev = Some r2 → prune_keeps s0 r2.1.
Proof.
  intros (Hlog & Hdata & Hpos) K1 H. unfold prune_future_player_moves in H.
  destruct (foldlM _ _ _) as [[s path]|] eqn:E; [|discriminate]. simpl in H.
  apply (foldlM_inv (λ acc, prune_keeps s0 acc.1)) in E; [| |exact K1].
  - simpl in E. destruct path as [|step path].
    + now injection H as <-.
    + destruct (GhostPlayer_init _ _ _); [|discriminate]. simpl in H.
      injection H as <-. exact E.
  - intros b r b' Hb Hr Hstep.
    destruct (player_move_step_total s0 tp new prev b r) as (b1 & E1 & Hb1);
      [|assumption|].
    + destruct K1 as (_ & _ & _ & Hlog1 & _). rewrite Hlog1 in Hr.
      rewrite Forall_forall in Hlog. now apply Hlog.
    + rewrite E1 in Hstep. now injection Hstep as <-.
Qed.

Lemma filter_refs_Forall (keep : Command → bool) (h : list Command)
    (l l' : list cmd_ref) (P : cmd_ref → Prop) :
  filter_refs keep h l = Some l' → Forall P l → Forall P l'.
Proof.
  intros H Hl. revert l' H. induction Hl as [|r l Hr Hl IH]; intros l' H; simpl in H.
  - injection H as <-. constructor.
  - destruct (h !! r) as [c|]; [|discriminate]. simpl in H.
    destruct (filter_refs keep h l) as [rest|]; [|discriminate]. simpl in H.
    injection H as <-. destruct (keep c); [constructor|]; auto.
Qed.

Lemma commit_branch_Wf (temp : nat) (s2 s' : State) :
  Wf s2 → commit_branch temp s2 = Some s' → Wf s'.
Proof.
  intros ((Hlog & Hdata & Hpos) & Hgc & Hpath) H. unfold commit_branch in H.
  destruct (filter_refs _ _ _) as [log|] eqn:Elog; [|discriminate]. simpl in H.
  apply filter_refs_Forall with (P := λ r : cmd_ref, (r < length (commands s2))%nat)
    in Elog; [|exact Hlog].
  match type of H with (?o ≫= _) = _ => destruct o as [path|] eqn:Epath end;
    [|discriminate].
  simpl in H. injection H as <-.
  unfold Wf, store_ok. simpl. repeat split; try assumption.
  destruct (filter _ _) as [|x l] eqn:Ef.
  - destruct (pos (player_base (player s2))); [|discriminate].
    simpl in Epath. now injection Epath as <-.
  - now injection Epath as <-.
Qed.

Lemma branch_evaluation_Wf (s s' : State) :
  Wf s → branch_evaluation s = Some s' → Wf s'.
Proof.
  intros HW H. unfold branch_evaluation in H.
  destruct (branch_trigger s); [|now injection H as <-].
  destruct (prune_future_bullet_spawns _ _ _ _) as [r1|] eqn:E1; [|discriminate].
  simpl in H.
  destruct (prune_future_player_moves _ _ _ _) as [r2|] eqn:E2; [|discriminate].
  simpl in H.
  apply prune_future_bullet_spawns_keeps in E1; [|apply HW].
  apply prune_future_player_moves_keeps with (s0 := s) in E2; [|apply HW|exact E1].
  apply prune_keeps_Wf in E2; [|exact HW].
  destruct (r1.2 || r2.2).
  - now apply commit_branch_Wf with (next_timeline_id (world s)) r2.1.
  - injection H as <-. exact E2.
Qed.

Lemma reconcile_ghost_players_Wf (s s' : State) :
  Wf s → reconcile_ghost_players s = Some s' → Wf s'.
Proof.
  intros HW H. unfold reconcile_ghost_players in H.
  apply (foldlM_inv Wf) in H; [exact H| |exact HW].
  intros b tid b' Hb _ Hstep. unfold ghost_player_step in Hstep.
  destruct (collect_moves _ _ _) as [path|]; [|discriminate]. simpl in Hstep.
  destruct path as [|step path]; [now injection Hstep as <-|].
  destruct (sort_path _) as [sorted|]; [|discriminate]. simpl in Hstep.
  destruct (head sorted); [|discriminate]. simpl in Hstep.
  destruct (last sorted); [|discriminate]. simpl in Hstep.
  destruct (_ && _).
  - destruct (existsb _ _); [now injection Hstep as <-|].
    destruct (GhostPlayer_init _ _ _); [|discriminate]. simpl in Hstep.
    injection Hstep as <-. exact Hb.
  - injection Hstep as <-. exact Hb.
Qed.

Lemma reconcile_ghost_bullets_Wf (s s' : State) :
  Wf s → reconcile_ghost_bullets s = Some s' → Wf s'.
Proof.
  intros HW H. unfold reconcile_ghost_bullets in H.
  apply (foldlM_inv Wf) in H; [exact H| |exact HW].
  intros b r b' Hb _ Hstep. unfold ghost_bullets_of_command in Hstep.
  destruct (commands b !! r) as [c|]; [|discriminate]. simpl in Hstep.
  destruct (is_shoot c); [|now injection Hstep as <-].
  match type of Hstep with (?o ≫= _) = _ => destruct o as [w|] eqn:E end;
    [|discriminate].
  simpl in Hstep. injection Hstep as <-.
  apply (foldlM_inv (λ w, w = set_entities (entities w) (world b))) in E.
  - rewrite E. exact Hb.
  - intros w1 tid w2 Hw1 _ Hs. unfold ghost_bullet_step in Hs.
    destruct (_ && _).
    + destruct (existsb _ _); [now injection Hs as <-|].
      destruct (cmd_data c); [|discriminate]. injection Hs as <-.
      rewrite Hw1. reflexivity.
    + injection Hs as <-. rewrite Hw1. reflexivity.
  - now destruct (world b).
Qed.

Lemma frame_Wf (i : Input) (s s' : State) : Wf s → frame i s = Some s' → Wf s'.
Proof.
  intros HW H. rewrite frame_before_branch in H.
  destruct (before_branch i s) as [s1|] eqn:E1; [|discriminate]. simpl in H.
  destruct (branch_evaluation s1) as [s2|] eqn:E2; [|discriminate]. simpl in H.
  destruct (reconcile_ghost_players _) as [s3|] eqn:E3; [|discriminate]. simpl in H.
  apply before_branch_Wf in E1; [|exact HW].
  apply branch_evaluation_Wf in E2; [|exact E1].
  apply reconcile_ghost_players_Wf in E3; [|exact E2].
  now apply reconcile_ghost_bullets_Wf with s3.
Qed.

Lemma initial_state_Wf : Wf initial_state.
Proof.
  unfold Wf, store_ok. simpl. repeat split; try constructor; try done.
Qed.

Lemma reachable_Wf (s : State) : reachable s → Wf s.
Proof.
  induction 1 as [|i s s' _ IH Hi Hf]; [apply initial_state_Wf|].
  now apply frame_Wf with i s.
Qed.

(** In every pass of the loop the state handed to the branch evaluation
    is well formed and has no bookkeeping entry for the candidate id. *)
Lemma branch_evaluation_preconditions (i : Input) (s s1 : State) :
  reachable s → valid_input i → before_branch i s = Some s1 →
  store_ok s1 ∧ active_timelines s1 !! next_timeline_id (world s1) = None.
Proof.
  intros Hs Hi H. split.
  - apply (before_branch_Wf i s s1); [now apply reachable_Wf|exact H].
  - apply fresh_timeline_key.
    apply (before_branch_Inv i s s1); [exact Hi|now apply reachable_Inv|exact H].
Qed.

(** ** Two runs of the loop from its initial state *)

(** Deciding the comparisons of a run: every test on reals that [lra]
    settles is replaced by its outcome.  Clock values of timers, which
    mention [time_factor_at], are left alone. *)
Ltac no_factor a :=
  lazymatch a with
  | context [time_factor_at _] => fail
  | _ => idtac
  end.

Ltac rdec1 :=
  match goal with
  | |- context [Rlt_dec ?a ?b] =>
      no_factor a; no_factor b;
      first [ destruct (Rlt_dec a b) as [?|?]; [|exfalso; lra]
            | destruct (Rlt_dec a b) as [?|?]; [exfalso; lra|] ]
  | |- context [Rle_dec ?a ?b] =>
      no_factor a; no_factor b;
      first [ destruct (Rle_dec a b) as [?|?]; [|exfalso; lra]
            | destruct (Rle_dec a b) as [?|?]; [exfalso; lra|] ]
  | |- context [Req_dec_T ?a ?b] =>
      no_factor a; no_factor b;
      first [ destruct (Req_dec_T a b) as [?|?]; [|exfalso; lra]
            | destruct (Req_dec_T a b) as [?|?]; [exfalso; lra|] ]
  | |- context [bool_decide (?a < ?b)] =>
      no_factor a; no_factor b;
      first [ rewrite (bool_decide_eq_true_2 (a < b)) by lra
            | rewrite (bool_decide_eq_false_2 (a < b)) by lra ]
  | |- context [bool_decide (?a <= ?b)] =>
      no_factor a; no_factor b;
      first [ rewrite (bool_decide_eq_true_2 (a <= b)) by lra
            | rewrite (bool_decide_eq_false_2 (a <= b)) by lra ]
  end.

Ltac rmm1 :=
  match goal with
  | |- context [Rmin ?a ?b] =>
      no_factor a; no_factor b;
      first [ rewrite (Rmin_left a b) by lra | rewrite (Rmin_right a b) by lra ]
  | |- context [Rmax ?a ?b] =>
      no_factor a; no_factor b;
      first [ rewrite (Rmax_left a b) by lra | rewrite (Rmax_right a b) by lra ]
  end.

Ltac rsimp := repeat first [rdec1 | rmm1].

Lemma bind_Some {A B} (m : option A) (f : A → option B) (a : A) (b : B) :
  m = Some a → f a = Some b → m ≫= f = Some b.
Proof. intros -> H. exact H. Qed.

(** One statement of a pass: evaluate it, then go on with its result. *)
Ltac step := eapply bind_Some; [|cbv beta].

(** The steps of a pass in which nothing is shot, branched or retired. *)
Ltac quiet_record_move :=
  unfold record_move; norm; unfold key_axis, vlength_squared, vec_truthy; simpl;
  rsimp; simpl; norm; rsimp; simpl; reflexivity.
Ltac quiet_ghost_players :=
  unfold retirement; norm; simpl; norm; rsimp; simpl; norm;
  unfold reconcile_ghost_players; norm; simpl;
  unfold ghost_player_step; norm; simpl;
  rewrite ?bool_decide_eq_false_2 by set_solver; reflexivity.

Lemma time_factor_center : time_factor_at (400, 300) = 1.
Proof.
  unfold time_factor_at, get_time_factor, field_center, field_radius, vlength,
    vlength_squared, vsub. simpl.
  replace ((400 - 400) * (400 - 400) + (300 - 300) * (300 - 300)) with 0 by lra.
  rewrite sqrt_0. replace (0 / 500) with 0 by lra.
  rewrite Rmin_left by lra. unfold float_pow.
  destruct (Req_dec_T (1 - 0) 0); [lra|].
  replace (1 - 0) with 1 by lra. unfold Rpower. now rewrite ln_1, Rmult_0_r, exp_0.
Qed.

Lemma Rmax_neg_factor (d : R) (p : Vec) :
  0 <= d → Rmax (0 + - d * time_factor_at p) 0 = 0.
Proof.
  intros Hd. pose proof (time_factor_at_range p) as [H0 _].
  apply Rmax_right. nra.
Qed.

Arguments time_factor_at : simpl never.
Arguments atan2 : simpl never.
Arguments ensure_path : simpl never.
Arguments normalize : simpl never.
Arguments vlength : simpl never.
Arguments active_add : simpl never.

(** C9 (the code departs from the claim): press R and hold D.  The loop
    appends a sample at [local_time + dt] on every pass in which a move key
    is down, also while rewinding; the player's clock stays at 0 and the
    second pass is shorter, so the player's path gets the sample times
    0, 0.02, 0.01 and is not increasing. *)
Theorem player_path_not_increasing :
  ∃ s1 s2,
    frame run_b_rewind_moving initial_state = Some s1
    ∧ frame run_b_still_moving s1 = Some s2
    ∧ reachable s2
    ∧ rewinding (world s2) = true
    ∧ (player_movement (player s2)).*1 = [0; 2 / 100; 1 / 100]
    ∧ ¬ strictly_increasing (player_movement (player s2)).
Proof.
  eexists _, _.
  match goal with |- ?A ∧ _ => assert (E1 : A) end.
  { unfold frame, initial_state, GameWorld_init, Player_init, MAX_REWINDS,
      run_b_rewind_moving. norm.
    step. { simpl. norm. reflexivity. }
    step. { quiet_record_move. }
    step. { unfold GameWorld_update. norm. simpl. rsimp. simpl. norm. reflexivity. }
    step. { unfold update_entities. norm. simpl. norm.
            rewrite !Rmax_neg_factor by lra. reflexivity. }
    step. { unfold branch_evaluation, branch_trigger, drop_obsolete. norm. simpl.
            reflexivity. }
    step. { quiet_ghost_players. }
    unfold reconcile_ghost_bullets. norm. simpl. reflexivity. }
  split; [exact E1|].
  match goal with |- ?A ∧ _ => assert (E2 : A) end.
  { unfold frame, run_b_still_moving. norm.
    step. { simpl. reflexivity. }
    step. { quiet_record_move. }
    step. { unfold GameWorld_update. norm. simpl. rsimp. simpl. norm. reflexivity. }
    step. { unfold update_entities. norm. simpl. norm.
            rewrite !Rmax_neg_factor by lra. reflexivity. }
    step. { unfold branch_evaluation, branch_trigger, drop_obsolete. norm. simpl.
            reflexivity. }
    step. { quiet_ghost_players. }
    unfold reconcile_ghost_bullets. norm. simpl. reflexivity. }
  split; [exact E2|]. split; [|split; [|split]].
  - eapply reachable_frame; [eapply reachable_frame; [apply reachable_init| |exact E1]
                            | |exact E2].
    + split; [simpl; lra|]. repeat constructor.
    + split; [simpl; lra|]. constructor.
  - reflexivity.
  - simpl. repeat f_equal; lra.
  - simpl. unfold add_step. simpl. intros Hs.
    apply StronglySorted_inv in Hs as [Hs _].
    apply StronglySorted_inv in Hs as [_ Hs].
    apply Forall_cons in Hs as [Hs _]. simpl in Hs. lra.
Qed.

(** *** Run A: shoot, rewind to before the shot, resume, replay

    The four passes, evaluated one statement at a time.  At the end the
    branch was committed (timeline 1, one charge spent) and the world
    holds, at positions 36 and 37, two ghost bullets of command 0 in
    timeline 1: the one made at branch time, without [cmd_ref], and the
    one the per-frame pass made because it found no ghost with that
    [cmd_ref]. *)
Lemma run_a_trace :
  ∃ s1 s2 s3 s4 c g1 g2,
    frame run_a_advance initial_state = Some s1
    ∧ frame run_a_shoot_rewind s1 = Some s2
    ∧ frame run_a_resume s2 = Some s3
    ∧ frame run_a_replay s3 = Some s4
    ∧ reachable s4
    ∧ commands s4 !! 0%nat = Some c
    ∧ is_shoot c = true
    ∧ entities (world s4) !! 36%nat = Some (EGhostBullet g1)
    ∧ entities (world s4) !! 37%nat = Some (EGhostBullet g2)
    ∧ ghost_of_command c 1 g1 ∧ ghost_of_command c 1 g2
    ∧ gb_cmd_ref g1 = None ∧ gb_cmd_ref g2 = Some 0%nat
    ∧ current_timeline_id (world s4) = 1%nat
    ∧ rewind_charges s4 = 2%Z
    ∧ active_timelines s4 = active_add 1 1 ∅.
Proof.
  eexists _, _, _, _, _, _, _.
  match goal with |- ?A ∧ _ => assert (E1 : A) end.
  { unfold frame, initial_state, GameWorld_init, Player_init, MAX_REWINDS,
      run_a_advance. norm.
    step. { simpl. reflexivity. }
    step. { quiet_record_move. }
    step. { unfold GameWorld_update. norm. simpl. rsimp. simpl. norm. reflexivity. }
    step. { unfold update_entities. norm. simpl. norm. rewrite time_factor_center.
            rsimp. reflexivity. }
    step. { unfold branch_evaluation, branch_trigger, drop_obsolete. norm. simpl.
            reflexivity. }
    step. { quiet_ghost_players. }
    unfold reconcile_ghost_bullets. norm. simpl. reflexivity. }
  split; [exact E1|].
  match goal with |- ?A ∧ _ => assert (E2 : A) end.
  { unfold frame, run_a_shoot_rewind. norm.
    step. { (* the click shoots, R starts the rewind *)
            simpl. unfold can_shoot. norm. rsimp.
            unfold Player_shoot. norm. simpl. unfold on_command. norm. simpl. norm.
            reflexivity. }
    step. { quiet_record_move. }
    step. { (* the shot lies ahead of the rewound clock: it is reversed *)
            unfold GameWorld_update. norm. simpl. rsimp. simpl.
            unfold global_command_step. norm. simpl. rsimp. simpl.
            unfold on_command. norm. simpl. norm. reflexivity. }
    step. { unfold update_entities. norm. simpl. norm. rewrite time_factor_center.
            rsimp. reflexivity. }
    step. { unfold branch_evaluation, branch_trigger, drop_obsolete. norm. simpl.
            reflexivity. }
    step. { quiet_ghost_players. }
    unfold reconcile_ghost_bullets. norm. simpl.
    unfold ghost_bullets_of_command. norm. simpl.
    rewrite elements_empty. simpl. norm. reflexivity. }
  split; [exact E2|].
  match goal with |- ?A ∧ _ => assert (E3 : A) end.
  { unfold frame, run_a_resume. norm.
    step. { simpl. norm. reflexivity. }
    step. { quiet_record_move. }
    step. { unfold GameWorld_update. norm. simpl. rsimp. simpl.
            unfold global_command_step. norm. simpl. rsimp. simpl. norm. reflexivity. }
    step. { unfold update_entities. norm. simpl. norm. rewrite time_factor_center.
            rsimp. reflexivity. }
    step. { (* the branch: one ghost bullet, then the commit *)
            unfold branch_evaluation, branch_trigger, drop_obsolete. norm. simpl.
            step. { unfold prune_future_bullet_spawns. norm. simpl.
                    unfold bullet_spawn_step. norm. simpl.
                    unfold to_ghost. norm. simpl. rsimp.
                    rewrite bool_decide_eq_true_2 by set_solver. simpl. norm.
                    reflexivity. }
            step. { unfold prune_future_player_moves. norm. simpl.
                    unfold player_move_step. norm. simpl. reflexivity. }
            simpl. unfold commit_branch. norm. unfold Path.
            rewrite filter_cons_True by (simpl; lra). rewrite filter_nil.
            simpl. rsimp. simpl. norm. reflexivity. }
    step. { quiet_ghost_players. }
    unfold reconcile_ghost_bullets. norm. simpl.
    unfold ghost_bullets_of_command. norm. simpl.
    rewrite (right_id_L ∅ (∪)), elements_singleton. simpl.
    unfold ghost_bullet_step. norm. simpl. rsimp. simpl. norm. reflexivity. }
  split; [exact E3|].
  match goal with |- ?A ∧ _ => assert (E4 : A) end.
  { unfold frame, run_a_replay. norm.
    step. { simpl. norm. reflexivity. }
    step. { quiet_record_move. }
    step. { unfold GameWorld_update. norm. simpl. rsimp. simpl. norm. reflexivity. }
    step. { unfold update_entities. norm. simpl. norm. rewrite time_factor_center.
            unfold GhostBullet_update. norm. rsimp. reflexivity. }
    step. { unfold branch_evaluation, branch_trigger, drop_obsolete. norm.
            rewrite !filter_cons_True
              by (first [reflexivity | simpl; apply bool_decide_eq_false_2; lra]).
            rewrite filter_nil. simpl. reflexivity. }
    step. { quiet_ghost_players. }
    (* the per-frame pass: the spawn time is reached, no ghost has [cmd_ref] *)
    unfold reconcile_ghost_bullets. norm. simpl.
    unfold ghost_bullets_of_command. norm. simpl.
    rewrite elements_singleton. simpl.
    unfold ghost_bullet_step. norm. simpl. rsimp. simpl. norm. reflexivity. }
  split; [exact E4|]. split; [|split; [|split; [|split; [|split; [|split]]]]].
  - eapply reachable_frame; [eapply reachable_frame; [eapply reachable_frame;
      [eapply reachable_frame; [apply reachable_init| |exact E1]| |exact E2]
      | |exact E3]| |exact E4].
    + split; [simpl; lra|]. constructor.
    + split; [simpl; lra|]. repeat constructor; simpl; lia.
    + split; [simpl; lra|]. repeat constructor.
    + split; [simpl; lra|]. constructor.
  - reflexivity.
  - reflexivity.
  - reflexivity.
  - reflexivity.
  - repeat split. eexists _, _. reflexivity.
  - split; [repeat split; eexists _, _; reflexivity|].
    repeat split; reflexivity.
Qed.

(** C3 (the code departs from the claim): shoot, rewind to before the
    shot, resume, then let the global clock reach the shot's spawn time.
    The ghost made at branch time carries no [cmd_ref], so the per-frame
    pass does not find it and makes a second ghost for the same command
    and the same timeline id: entities 36 and 37 of the world are two
    ghost bullets of command 0 in timeline 1, one without [cmd_ref] and
    one with it. *)
Theorem commit_ghost_duplicated :
  ∃ s1 s2 s3 s4 c g1 g2,
    frame run_a_advance initial_state = Some s1
    ∧ frame run_a_shoot_rewind s1 = Some s2
    ∧ frame run_a_resume s2 = Some s3
    ∧ frame run_a_replay s3 = Some s4
    ∧ reachable s4
    ∧ commands s4 !! 0%nat = Some c
    ∧ is_shoot c = true
    ∧ entities (world s4) !! 36%nat = Some (EGhostBullet g1)
    ∧ entities (world s4) !! 37%nat = Some (EGhostBullet g2)
    ∧ ghost_of_command c 1 g1 ∧ ghost_of_command c 1 g2
    ∧ gb_cmd_ref g1 = None ∧ gb_cmd_ref g2 = Some 0%nat.
Proof.
  destruct run_a_trace
    as (s1 & s2 & s3 & s4 & c & g1 & g2 & E1 & E2 & E3 & E4 & Hr & Hc & Hs
        & H36 & H37 & Hg1 & Hg2 & Hr1 & Hr2 & _).
  exists s1, s2, s3, s4, c, g1, g2. repeat (split; [assumption|]). assumption.
Qed.


Lemma local_time_nonnegative_witness :
  ∃ s g, reachable s
         ∧ entities (world s) !! 37%nat = Some (EGhostBullet g)
         ∧ 0 <= global_time (world s)
         ∧ ∀ e, e ∈ entities (world s) → 0 <= entity_local_time (player s) e.
Proof.
  destruct run_a_trace
    as (_ & _ & _ & s4 & _ & _ & g2 & _ & _ & _ & _ & Hr & _ & _ & _ & H37 & _).
  exists s4, g2. split; [exact Hr|]. split; [exact H37|].
  exact (proj2 local_time_nonnegative s4 Hr).
Defined.

(** *** Run A continued: the ghosts run out, then the player rewinds

    The fifth pass takes the global clock to 2.75, past the end 2.71 of the
    two ghost bullets of timeline 1: both retire, the first brings the
    counter of timeline 1 to zero, which deletes the entry and refunds the
    charge, the second leaves the counter at -1.  In the sixth pass the
    player rewinds to 2.65, inside the window of the shot, and the
    per-frame pass over the log (lines 354-372) puts a ghost bullet of
    timeline 1 back into the world, without a word to [active_timelines]. *)
Lemma run_a_continued_trace :
  ∃ s1 s2 s3 s4 s5 s6 g,
    frame run_a_advance initial_state = Some s1
    ∧ frame run_a_shoot_rewind s1 = Some s2
    ∧ frame run_a_resume s2 = Some s3
    ∧ frame run_a_replay s3 = Some s4
    ∧ frame run_a_expire s4 = Some s5
    ∧ frame run_a_rewind_again s5 = Some s6
    ∧ reachable s6
    ∧ rewind_charges s4 = 2%Z
    ∧ rewind_charges s5 = 3%Z
    ∧ Forall (λ e, entity_timeline_id e = None) (entities (world s5))
    ∧ rewind_charges s6 = 3%Z
    ∧ active_timelines s6 !! 1%nat = Some (-1)%Z
    ∧ current_timeline_id (world s6) = 1%nat
    ∧ entities (world s6) !! 36%nat = Some (EGhostBullet g)
    ∧ gb_timeline_id g = 1%nat
    ∧ gb_cmd_ref g = Some 0%nat.
Proof.
  eexists _, _, _, _, _, _, _.
  match goal with |- ?A ∧ _ => assert (E1 : A) end.
  { unfold frame, initial_state, GameWorld_init, Player_init, MAX_REWINDS,
      run_a_advance. norm.
    step. { simpl. reflexivity. }
    step. { quiet_record_move. }
    step. { unfold GameWorld_update. norm. simpl. rsimp. simpl. norm. reflexivity. }
    step. { unfold update_entities. norm. simpl. norm. rewrite time_factor_center.
            rsimp. reflexivity. }
    step. { unfold branch_evaluation, branch_trigger, drop_obsolete. norm. simpl.
            reflexivity. }
    step. { quiet_ghost_players. }
    unfold reconcile_ghost_bullets. norm. simpl. reflexivity. }
  split; [exact E1|].
  match goal with |- ?A ∧ _ => assert (E2 : A) end.
  { unfold frame, run_a_shoot_rewind. norm.
    step. { (* the click shoots, R starts the rewind *)
            simpl. unfold can_shoot. norm. rsimp.
            unfold Player_shoot. norm. simpl. unfold on_command. norm. simpl. norm.
            reflexivity. }
    step. { quiet_record_move. }
    step. { (* the shot lies ahead of the rewound clock: it is reversed *)
            unfold GameWorld_update. norm. simpl. rsimp. simpl.
            unfold global_command_step. norm. simpl. rsimp. simpl.
            unfold on_command. norm. simpl. norm. reflexivity. }
    step. { unfold update_entities. norm. simpl. norm. rewrite time_factor_center.
            rsimp. reflexivity. }
    step. { unfold branch_evaluation, branch_trigger, drop_obsolete. norm. simpl.
            reflexivity. }
    step. { quiet_ghost_players. }
    unfold reconcile_ghost_bullets. norm. simpl.
    unfold ghost_bullets_of_command. norm. simpl.
    rewrite elements_empty. simpl. norm. reflexivity. }
  split; [exact E2|].
  match goal with |- ?A ∧ _ => assert (E3 : A) end.
  { unfold frame, run_a_resume. norm.
    step. { simpl. norm. reflexivity. }
    step. { quiet_record_move. }
    step. { unfold GameWorld_update. norm. simpl. rsimp. simpl.
            unfold global_command_step. norm. simpl. rsimp. simpl. norm. reflexivity. }
    step. { unfold update_entities. norm. simpl. norm. rewrite time_factor_center.
            rsimp. reflexivity. }
    step. { (* the branch: one ghost bullet, then the commit *)
            unfold branch_evaluation, branch_trigger, drop_obsolete. norm. simpl.
            step. { unfold prune_future_bullet_spawns. norm. simpl.
                    unfold bullet_spawn_step. norm. simpl.
                    unfold to_ghost. norm. simpl. rsimp.
                    rewrite bool_decide_eq_true_2 by set_solver. simpl. norm.
                    reflexivity. }
            step. { unfold prune_future_player_moves. norm. simpl.
                    unfold player_move_step. norm. simpl. reflexivity. }
            simpl. unfold commit_branch. norm. unfold Path.
            rewrite filter_cons_True by (simpl; lra). rewrite filter_nil.
            simpl. rsimp. simpl. norm. reflexivity. }
    step. { quiet_ghost_players. }
    unfold reconcile_ghost_bullets. norm. simpl.
    unfold ghost_bullets_of_command. norm. simpl.
    rewrite (right_id_L ∅ (∪)), elements_singleton. simpl.
    unfold ghost_bullet_step. norm. simpl. rsimp. simpl. norm. reflexivity. }
  split; [exact E3|].
  match goal with |- ?A ∧ _ => assert (E4 : A) end.
  { unfold frame, run_a_replay. norm.
    step. { simpl. norm. reflexivity. }
    step. { quiet_record_move. }
    step. { unfold GameWorld_update. norm. simpl. rsimp. simpl. norm. reflexivity. }
    step. { unfold update_entities. norm. simpl. norm. rewrite time_factor_center.
            unfold GhostBullet_update. norm. rsimp. reflexivity. }
    step. { unfold branch_evaluation, branch_trigger, drop_obsolete. norm.
            rewrite !filter_cons_True
              by (first [reflexivity | simpl; apply bool_decide_eq_false_2; lra]).
            rewrite filter_nil. simpl. reflexivity. }
    step. { quiet_ghost_players. }
    (* the per-frame pass: the spawn time is reached, no ghost has [cmd_ref] *)
    unfold reconcile_ghost_bullets. norm. simpl.
    unfold ghost_bullets_of_command. norm. simpl.
    rewrite elements_singleton. simpl.
    unfold ghost_bullet_step. norm. simpl. rsimp. simpl. norm. reflexivity. }
  split; [exact E4|].
  match goal with |- ?A ∧ _ => assert (E5 : A) end.
  { unfold frame, run_a_expire. norm.
    step. { simpl. norm. reflexivity. }
    step. { quiet_record_move. }
    step. { unfold GameWorld_update. norm. simpl. rsimp. simpl. norm. reflexivity. }
    step. { unfold update_entities. norm. simpl. norm. rewrite time_factor_center.
            unfold GhostBullet_update. norm. rsimp. reflexivity. }
    step. { unfold branch_evaluation, branch_trigger, drop_obsolete. norm.
            rewrite !filter_cons_True
              by (first [reflexivity | simpl; apply bool_decide_eq_false_2; lra]).
            rewrite filter_nil. simpl. reflexivity. }
    unfold retirement. norm. simpl. norm. rsimp. simpl. norm.
    rewrite bool_decide_eq_true_2 by reflexivity.
    unfold retire_timeline.
    rewrite bool_decide_eq_false_2 by (vm_compute; discriminate).
    cbn [fst snd].
    unfold reconcile_ghost_bullets. norm. simpl.
    unfold ghost_bullets_of_command. norm. simpl.
    rewrite elements_singleton. simpl.
    unfold ghost_bullet_step. norm. simpl. rsimp. simpl. norm.
    reflexivity. }
  split; [exact E5|].
  match goal with |- ?A ∧ _ => assert (E6 : A) end.
  { unfold frame, run_a_rewind_again. norm.
    step. { simpl. norm. reflexivity. }
    step. { quiet_record_move. }
    step. { unfold GameWorld_update. norm. simpl. rsimp. simpl. norm. reflexivity. }
    step. { unfold update_entities. norm. simpl. norm. rewrite time_factor_center.
            rsimp. reflexivity. }
    step. { unfold branch_evaluation, branch_trigger, drop_obsolete. norm. simpl.
            reflexivity. }
    step. { quiet_ghost_players. }
    unfold reconcile_ghost_bullets. norm. simpl.
    unfold ghost_bullets_of_command. norm. simpl.
    rewrite elements_singleton. simpl.
    unfold ghost_bullet_step. norm. simpl. rsimp. simpl. norm.
    reflexivity. }
  split; [exact E6|]. split; [|split; [|split; [|split; [|split; [|split]]]]].
  - eapply reachable_frame; [eapply reachable_frame; [eapply reachable_frame;
      [eapply reachable_frame; [eapply reachable_frame; [eapply reachable_frame;
        [apply reachable_init| |exact E1]| |exact E2]| |exact E3]| |exact E4]
      | |exact E5]| |exact E6].
    + split; [simpl; lra|]. constructor.
    + split; [simpl; lra|]. repeat constructor; simpl; lia.
    + split; [simpl; lra|]. repeat constructor.
    + split; [simpl; lra|]. constructor.
    + split; [simpl; lra|]. constructor.
    + split; [simpl; lra|]. repeat constructor.
  - reflexivity.
  - reflexivity.
  - simpl. repeat (constructor; [reflexivity|]). constructor.
  - reflexivity.
  - reflexivity.
  - repeat split; reflexivity.
Qed.

Lemma ghost_timelines_elem (es : list Entity) (i : nat) (e : Entity) (tid : nat) :
  es !! i = Some e → entity_timeline_id e = Some tid → tid ∈ ghost_timelines es.
Proof.
  intros Hi He. unfold ghost_timelines. apply elem_of_list_to_set, list_elem_of_omap.
  exists e. split; [now apply list_elem_of_lookup_2 with i|exact He].
Qed.

Lemma ghost_timelines_none (es : list Entity) :
  Forall (λ e, entity_timeline_id e = None) es → ghost_timelines es = ∅.
Proof.
  intros H. unfold ghost_timelines. induction H as [|e es He _ IH]; [reflexivity|].
  simpl. rewrite He. exact IH.
Qed.

(** C2 (the code departs from the claim): run A, then a pass of 2.5 s in
    which the ghosts of timeline 1 retire and the charge is refunded (the
    world holds no ghost and the charges are back at [MAX_REWINDS]), then a
    pass in which the player rewinds by 0.1 s.  The pass over the log
    makes a ghost bullet of timeline 1 again and leaves the bookkeeping
    alone: the state the loop reaches has all [MAX_REWINDS] charges and a
    committed timeline with a ghost in the world, so the charges plus the
    timelines that still have ghosts exceed [MAX_REWINDS]; the counter of
    that timeline stands at -1. *)
Theorem refunded_timeline_gets_ghost_again :
  ∃ s1 s2 s3 s4 s5 s6 g,
    frame run_a_advance initial_state = Some s1
    ∧ frame run_a_shoot_rewind s1 = Some s2
    ∧ frame run_a_resume s2 = Some s3
    ∧ frame run_a_replay s3 = Some s4
    ∧ frame run_a_expire s4 = Some s5
    ∧ frame run_a_rewind_again s5 = Some s6
    ∧ reachable s6
    ∧ rewind_charges s4 = 2%Z
    ∧ rewind_charges s5 = MAX_REWINDS
    ∧ ghost_timelines (entities (world s5)) = ∅
    ∧ rewind_charges s6 = MAX_REWINDS
    ∧ active_timelines s6 !! 1%nat = Some (-1)%Z
    ∧ entities (world s6) !! 36%nat = Some (EGhostBullet g)
    ∧ gb_timeline_id g = 1%nat
    ∧ current_timeline_id (world s6) = 1%nat
    ∧ 1%nat ∈ ghost_timelines (entities (world s6))
    ∧ (MAX_REWINDS
       < rewind_charges s6 + Z.of_nat (size (ghost_timelines (entities (world s6)))))%Z.
Proof.
  destruct run_a_continued_trace
    as (s1 & s2 & s3 & s4 & s5 & s6 & g & E1 & E2 & E3 & E4 & E5 & E6 & Hr & C4 & C5
        & G5 & C6 & A6 & T6 & H36 & Hg & _).
  assert (Hin : 1%nat ∈ ghost_timelines (entities (world s6))).
  { apply (ghost_timelines_elem _ 36 (EGhostBullet g)); [exact H36|].
    simpl. now rewrite Hg. }
  exists s1, s2, s3, s4, s5, s6, g. repeat (split; [assumption|]).
  split; [now apply ghost_timelines_none|]. split; [exact C6|].
  repeat (split; [assumption|]).
  assert (size (ghost_timelines (entities (world s6))) ≠ 0%nat).
  { apply size_non_empty_iff. intros E. apply E in Hin. now apply not_elem_of_empty in Hin. }
  rewrite C6. unfold MAX_REWINDS. lia.
Qed.

(** C1: when the player was rewinding last frame, is not rewinding now and
    has a charge left, the branch evaluation runs through and appends the
    ghosts it makes for the candidate id to the entity list; if there is at
    least one, the candidate becomes [current_timeline_id],
    [next_timeline_id] grows by one and one charge is spent; if there is
    none, the state (timeline counters, charges, active-timeline
    bookkeeping and all the rest) is as it was.  The two side conditions,
    a well-formed command store and no bookkeeping entry for the candidate
    id, hold wherever the loop runs the evaluation (see
    [branch_evaluation_preconditions]). *)
Theorem branch_atomicity (s : State) :
  store_ok s →
  was_rewinding_last_frame s = true →
  rewinding (world s) = false →
  (0 < rewind_charges s)%Z →
  active_timelines s !! next_timeline_id (world s) = None →
  ∃ s' ghosts,
    branch_evaluation s = Some s'
    ∧ entities (world s') = entities (world s) ++ ghosts
    ∧ Forall (λ e, entity_timeline_id e = Some (next_timeline_id (world s))) ghosts
    ∧ (ghosts ≠ [] →
         current_timeline_id (world s') = next_timeline_id (world s)
         ∧ next_timeline_id (world s') = S (next_timeline_id (world s))
         ∧ rewind_charges s' = (rewind_charges s - 1)%Z)
    ∧ (ghosts = [] →
         current_timeline_id (world s') = current_timeline_id (world s)
         ∧ next_timeline_id (world s') = next_timeline_id (world s)
         ∧ rewind_charges s' = rewind_charges s
         ∧ active_timelines s' = active_timelines s
         ∧ s' = s)
    ∧ (next_timeline_id (world s') ≠ next_timeline_id (world s) ↔ ghosts ≠ [])
    ∧ (rewind_charges s' ≠ rewind_charges s ↔ ghosts ≠ []).
Proof.
  intros Hok Hwas Hrew Hch Hfresh.
  destruct (branch_evaluation_total s Hok) as [s' H]. exists s'.
  pose proof H as H0.
  apply (branch_evaluation_cases (λ _, True)) in H; [|trivial|now apply Forall_true].
  destruct H as [[Htr _]|[_ (ghosts & gcs & cmds & Hg & _ & Hcase)]].
  { unfold branch_trigger in Htr. rewrite Hwas, Hrew in Htr. simpl in Htr.
    apply bool_decide_eq_false in Htr. contradiction. }
  exists ghosts. split; [exact H0|]. clear H0.
  destruct Hcase as [[-> ->]|[Hne Hcommit]].
  - rewrite delete_id by assumption.
    replace (set_active_timelines (active_timelines s) s) with s by now destruct s.
    rewrite app_nil_r. repeat split; try done.
  - apply commit_branch_spec in Hcommit as (log & path & ->). simpl.
    split; [reflexivity|]. split.
    + eapply Forall_impl; [exact Hg|]. now intros e [He _].
    + split; [done|]. split; [intros ->; contradiction|].
      split; (split; [done|]); intros _; lia.
Qed.

(** On [resumed_state] the branch evaluation makes one ghost and commits. *)
Lemma branch_atomicity_witness :
  ∃ s' ghosts,
    branch_evaluation resumed_state = Some s'
    ∧ entities (world s') = entities (world resumed_state) ++ ghosts
    ∧ ghosts ≠ []
    ∧ current_timeline_id (world s') = 1%nat
    ∧ next_timeline_id (world s') = 2%nat
    ∧ rewind_charges s' = 2%Z.
Proof.
  destruct (branch_atomicity resumed_state resumed_state_ok eq_refl eq_refl)
    as (s' & ghosts & E & He & Hg & Hc & Hn & _); [reflexivity|reflexivity|].
  exists s', ghosts. split; [exact E|]. split; [exact He|].
  assert (Hne : ghosts ≠ []).
  { intros ->. destruct (Hn eq_refl) as (_ & _ & _ & _ & ->).
    revert E. unfold branch_evaluation, branch_trigger, resumed_state, Player_init,
      shoot_command, MAX_REWINDS. norm. simpl.
    unfold prune_future_bullet_spawns. norm. simpl.
    unfold bullet_spawn_step. norm. simpl. unfold to_ghost. norm. simpl. rsimp.
    rewrite bool_decide_eq_true_2 by set_solver. simpl. norm.
    unfold prune_future_player_moves. norm. simpl.
    unfold player_move_step. norm. simpl.
    unfold commit_branch. norm. unfold Path.
    rewrite filter_cons_True by (simpl; lra). rewrite filter_nil.
    simpl. rsimp. simpl. norm. discriminate. }
  split; [exact Hne|].
  destruct (Hc Hne) as (H1 & H2 & H3). rewrite H1, H2, H3. repeat split.
Defined.

(** * Further properties of time_travel.py *)

Lemma vlength_zero (a : Vec) : vlength a = 0 ↔ a = (0, 0).
Proof.
  destruct a as [x y]. unfold vlength, vlength_squared. simpl. split.
  - intros H. apply sqrt_eq_0 in H; [|nra].
    assert (x = 0) by nra. assert (y = 0) by nra. congruence.
  - intros [= -> ->]. replace (0 * 0 + 0 * 0) with 0 by lra. apply sqrt_0.
Qed.

Lemma vsub_zero (p c : Vec) : vsub p c = (0, 0) ↔ p = c.
Proof.
  destruct p as [px py], c as [cx cy]. unfold vsub. simpl. split.
  - intros [= H1 H2]. f_equal; lra.
  - intros [= -> ->]. f_equal; lra.
Qed.

Lemma Rpower_one_base (e : R) : Rpower 1 e = 1.
Proof. unfold Rpower. rewrite ln_1, Rmult_0_r. apply exp_0. Qed.

Lemma Rpower_eq_one (x e : R) : 0 < x → 0 < e → Rpower x e = 1 → x = 1.
Proof.
  intros Hx He H. unfold Rpower in H. rewrite <- exp_0 in H.
  apply exp_inv in H. apply ln_inv; [assumption|lra|]. rewrite ln_1. nra.
Qed.









(** ** Movement paths *)

Lemma clamp_range (x : R) : 0 <= Rmax 0 (Rmin 1 x) <= 1.
Proof.
  split; [apply Rmax_l|]. apply Rmax_lub; [lra|apply Rmin_l].
Qed.

Lemma clamp_high (x : R) : 1 <= x → Rmax 0 (Rmin 1 x) = 1.
Proof. intros H. rewrite Rmin_left by assumption. apply Rmax_right. lra. Qed.

Lemma get_pos_loop_appended (prev : R * Vec) (rest : Path) (t : R) (p : Vec) :
  Forall (λ a : R * Vec, a.1 < t) (prev :: rest) →
  get_pos_loop prev (rest ++ [(t, p)]) t = p.
Proof.
  revert prev. induction rest as [|next rest IH]; intros prev Hall.
  - apply Forall_cons in Hall as [Hprev _]. simpl.
    destruct (Rle_dec t t); [|lra]. destruct (Rlt_dec prev.1 t); [|lra].
    replace ((t - prev.1) / (t - prev.1)) with 1 by (field; lra).
    rewrite clamp_high by lra. apply lerp_1.
  - apply Forall_cons in Hall as [_ Hall]. pose proof Hall as Hall'.
    apply Forall_cons in Hall' as [Hnext _]. simpl.
    destruct (Rle_dec t next.1); [lra|]. now apply IH.
Qed.

Lemma get_pos_loop_add_step_old (prev : R * Vec) (rest : Path) (s final : R * Vec) (q : R) :
  last (prev :: rest) = Some final → final.1 < s.1 → q <= final.1 →
  get_pos_loop prev (rest ++ [s]) q = get_pos_loop prev rest q.
Proof.
  revert prev. induction rest as [|next rest IH]; intros prev Hlast Hs Hq.
  - injection Hlast as ->. simpl.
    destruct (Rle_dec q s.1); [|lra]. destruct (Rlt_dec final.1 s.1); [|lra].
    rewrite clamp_low; [apply lerp_0|].
    assert (0 < / (s.1 - final.1)) by (apply Rinv_0_lt_compat; lra).
    unfold Rdiv. nra.
  - simpl. destruct (Rle_dec q next.1); [reflexivity|].
    apply IH; assumption.
Qed.



Lemma get_pos_loop_convex (prev : R * Vec) (rest : Path) (q : R) :
  (∃ i a b alpha, (prev :: rest) !! i = Some a ∧ (prev :: rest) !! S i = Some b
                  ∧ 0 <= alpha <= 1 ∧ get_pos_loop prev rest q = lerp a.2 b.2 alpha)
  ∨ (∃ a, last (prev :: rest) = Some a ∧ a.1 < q ∧ get_pos_loop prev rest q = a.2)
  ∨ (rest = [] ∧ get_pos_loop prev rest q = prev.2).
Proof.
  revert prev. induction rest as [|next rest IH]; intros prev.
  - right. right. split; reflexivity.
  - simpl get_pos_loop. destruct (Rle_dec q next.1) as [Hq|Hq].
    + left. exists 0%nat, prev, next. eexists. split; [reflexivity|].
      split; [reflexivity|]. split; [apply clamp_range|reflexivity].
    + destruct (IH next) as [(i & a & b & alpha & Ha & Hb & Hal & ->)
                            |[(a & Hl & Haq & ->)|(-> & ->)]].
      * left. exists (S i), a, b, alpha. repeat split; try assumption; apply Hal.
      * right. left. exists a. repeat split; assumption.
      * right. left. exists next. repeat split. lra.
Qed.


Lemma strictly_increasing_last (path : Path) (final : R * Vec) :
  strictly_increasing path → last path = Some final →
  Forall (λ a : R * Vec, a.1 <= final.1) path.
Proof.
  unfold strictly_increasing. induction 1 as [|a path Hs IH Ha]; intros Hl.
  - constructor.
  - destruct path as [|b path].
    + injection Hl as ->. constructor; [lra|constructor].
    + change (last (b :: path) = Some final) in Hl. constructor; [|now apply IH].
      apply last_Some_elem_of in Hl. rewrite Forall_forall in Ha.
      left. now apply Ha.
Qed.

Lemma ensure_path_loop_prefix (fuel : nat) (until_time step_size : R) (vel : Vec)
    (t : R) (p : Vec) (path : Path) :
  path `prefix_of` ensure_path_loop fuel until_time step_size vel t p path.
Proof.
  revert t p path. induction fuel as [|fuel IH]; intros t p path; simpl; [reflexivity|].
  destruct (Rlt_dec t until_time); [|reflexivity].
  etrans; [|apply IH]. now apply prefix_app_r.
Qed.

Lemma ensure_path_loop_done (fuel : nat) (until_time step_size : R) (vel : Vec)
    (t : R) (p : Vec) (path : Path) :
  until_time <= t → ensure_path_loop fuel until_time step_size vel t p path = path.
Proof.
  intros H. destruct fuel as [|fuel]; simpl; [reflexivity|].
  destruct (Rlt_dec t until_time); [lra|reflexivity].
Qed.

Lemma ensure_path_loop_last (fuel : nat) (until_time step_size : R) (vel : Vec)
    (t : R) (p : Vec) (path : Path) :
  0 < step_size → (until_time - t) / step_size <= INR fuel → t < until_time →
  ∃ final, last (ensure_path_loop fuel until_time step_size vel t p path) = Some final
           ∧ until_time <= final.1 < until_time + step_size.
Proof.
  intros Hstep. revert t p path.
  induction fuel as [|fuel IH]; intros t p path Hfuel Ht.
  - exfalso. simpl in Hfuel.
    apply Rmult_le_compat_r with (r := step_size) in Hfuel; [|lra].
    unfold Rdiv in Hfuel. rewrite Rmult_assoc, Rinv_l in Hfuel; lra.
  - simpl. destruct (Rlt_dec t until_time); [|lra].
    destruct (Rlt_dec (t + step_size) until_time) as [Hlt|Hge].
    + apply IH; [|assumption]. rewrite S_INR in Hfuel.
      replace ((until_time - (t + step_size)) / step_size)
        with ((until_time - t) / step_size - 1) by (field; lra).
      lra.
    + rewrite ensure_path_loop_done by lra. eexists. rewrite last_snoc.
      split; [reflexivity|]. simpl. lra.
Qed.



Lemma Bullet_init_head (p vel : Vec) (id : Z) (ml : R) :
  0 < ml →
  head (bullet_movement (Bullet_init p vel id ml))
  = Some (0 + 5 / 100, vadd p (vscale (vscale vel (5 / 100)) (time_factor_at p))).
Proof.
  intros Hml. simpl. unfold ensure_path. simpl.
  destruct (ensure_path_fuel ml (5 / 100) 0) as [|fuel] eqn:Ef.
  - exfalso. pose proof (ensure_path_fuel_enough ml (5 / 100) 0) as H.
    rewrite Ef in H. simpl in H. unfold Rdiv in H. nra.
  - simpl. destruct (Rlt_dec 0 ml); [|lra].
    match goal with |- head ?l = Some ?f => assert (Hp : [f] `prefix_of` l) end.
    { apply ensure_path_loop_prefix. }
    destruct Hp as [k ->]. reflexivity.
Qed.



(** * Further properties of main.py *)

(** ** Ghost bullets *)



(** ** [undo_bullet] *)

Lemma remove_first_spec {A} (P : A → bool) (l : list A) :
  (Forall (λ x, P x = false) l ∧ remove_first P l = l)
  ∨ (∃ l1 x l2, l = l1 ++ x :: l2 ∧ Forall (λ y, P y = false) l1
                ∧ P x = true ∧ remove_first P l = l1 ++ l2).
Proof.
  induction l as [|x l IH]; simpl.
  - left. split; [constructor|reflexivity].
  - destruct (P x) eqn:Hx.
    + right. exists [], x, l. repeat split; [constructor|assumption].
    + destruct IH as [[Hall ->]|(l1 & y & l2 & -> & Hl1 & Hy & ->)].
      * left. split; [now constructor|reflexivity].
      * right. exists (x :: l1), y, l2. repeat split; [now constructor|assumption].
Qed.


(** ** [Player.shoot] *)

Lemma vlength_vscale (a : Vec) (k : R) : vlength (vscale a k) = vlength a * Rabs k.
Proof.
  destruct a as [x y]. unfold vlength, vlength_squared, vscale. simpl.
  replace (x * k * (x * k) + y * k * (y * k)) with ((x * x + y * y) * k²)
    by (unfold Rsqr; ring).
  rewrite sqrt_mult_alt by nra. now rewrite sqrt_Rsqr_abs.
Qed.

Lemma vlength_unit_circle (a : R) : vlength (cos a, sin a) = 1.
Proof.
  unfold vlength, vlength_squared. simpl.
  pose proof (sin2_cos2 a) as H. unfold Rsqr in H.
  replace (cos a * cos a + sin a * sin a) with 1 by lra. apply sqrt_1.
Qed.

Lemma vlength_positive (a : Vec) : a ≠ (0, 0) → 0 < vlength a.
Proof.
  intros H. pose proof (vlength_nonneg a) as Hn.
  destruct (Req_dec_T (vlength a) 0) as [E|E]; [|lra].
  now apply vlength_zero in E.
Qed.

Lemma sqrt_one_plus_sqr_ratio (x y : R) :
  x ≠ 0 → sqrt (1 + (y / x)²) = vlength (x, y) / Rabs x.
Proof.
  intros Hx. assert (Ha : 0 < Rabs x) by now apply Rabs_pos_lt.
  assert (Hv : 0 < vlength (x, y)).
  { apply vlength_positive. intros [= ? ?]. contradiction. }
  apply sqrt_lem_1.
  - pose proof (Rle_0_sqr (y / x)). lra.
  - apply Rmult_le_pos; [lra|]. left. now apply Rinv_0_lt_compat.
  - assert (Hvv : vlength (x, y) * vlength (x, y) = x * x + y * y).
    { unfold vlength, vlength_squared. simpl. apply sqrt_sqrt. nra. }
    assert (Haa : Rabs x * Rabs x = x * x).
    { unfold Rabs. destruct (Rcase_abs x); ring. }
    unfold Rsqr.
    replace (vlength (x, y) / Rabs x * (vlength (x, y) / Rabs x))
      with (vlength (x, y) * vlength (x, y) / (Rabs x * Rabs x)) by (field; lra).
    rewrite Hvv, Haa. field. assumption.
Qed.

(** The angle [atan2] returns points along [(x, y)]. *)
Lemma atan2_direction (y x : R) :
  (x, y) ≠ (0, 0) →
  cos (atan2 y x) = x / vlength (x, y) ∧ sin (atan2 y x) = y / vlength (x, y).
Proof.
  intros Hne. pose proof (vlength_positive (x, y) Hne) as Hv.
  unfold atan2. destruct (Rlt_dec 0 x) as [Hx|Hx].
  - rewrite cos_atan, sin_atan, sqrt_one_plus_sqr_ratio by lra.
    rewrite Rabs_right by lra. split; field; lra.
  - destruct (Rlt_dec x 0) as [Hx'|Hx'].
    + assert (Hc : cos (atan (y / x)) = - x / vlength (x, y)
                   ∧ sin (atan (y / x)) = - y / vlength (x, y)).
      { rewrite cos_atan, sin_atan, sqrt_one_plus_sqr_ratio by lra.
        rewrite Rabs_left by lra. split; field; lra. }
      destruct Hc as [Hc Hs].
      destruct (Rle_dec 0 y).
      * rewrite neg_cos, neg_sin, Hc, Hs. split; field; lra.
      * rewrite cos_minus, sin_minus, cos_PI, sin_PI, Hc, Hs. split; field; lra.
    + assert (x = 0) by lra. subst x.
      assert (Hvy : vlength (0, y) = Rabs y).
      { unfold vlength, vlength_squared. simpl.
        replace (0 * 0 + y * y) with (y²) by (unfold Rsqr; ring). apply sqrt_Rsqr_abs. }
      destruct (Rlt_dec 0 y) as [Hy|Hy].
      * rewrite cos_PI2, sin_PI2, Hvy, Rabs_right by lra. split; field; lra.
      * destruct (Rlt_dec y 0) as [Hy'|Hy'].
        -- rewrite cos_neg, sin_neg, cos_PI2, sin_PI2, Hvy, Rabs_left by lra.
           split; field; lra.
        -- exfalso. apply Hne. f_equal. lra.
Qed.

(** What one call of [Player.shoot] does to the state. *)
Lemma Player_shoot_spec (target : Vec) (id : Z) (s : State) (ppos : Vec) :
  pos (player_base (player s)) = Some ppos →
  let p := player s in
  let angle := atan2 (target.2 - ppos.2) (target.1 - ppos.1) in
  let vel := vscale (cos angle, sin angle) 250 in
  let c := shoot_command ppos vel id (local_time (player_base p) + 1 / 100)
             (current_timeline_id (world s)) in
  let r := length (commands s) in
  let w := world s in
  Player_shoot target id s
  = Some (mkState
            (set_entities (entities w ++ [EBullet (Bullet_init ppos vel id bullet_default_lifetime)])
               (set_permanent_command_log (permanent_command_log w ++ [r])
                  (set_global_commands (global_commands w ++ [r]) w)))
            (commands s ++ [set_executed true c])
            (mkPlayer (player_base p) (shoot_cooldown p) (local_time (player_base p))
               (move_speed p) (player_movement p))
            (rewind_charges s) (active_timelines s) (was_rewinding_last_frame s)).
Proof.
  intros Hpos. simpl. unfold Player_shoot. rewrite Hpos. simpl.
  unfold on_command. simpl.
  rewrite lookup_app_r, Nat.sub_diag by lia. simpl.
  rewrite insert_app_r_alt, Nat.sub_diag by lia.
  reflexivity.
Qed.



(** ** The event loop *)

Lemma Player_shoot_cools (target : Vec) (id : Z) (s s' : State) :
  0 < shoot_cooldown (player s) →
  Player_shoot target id s = Some s' →
  can_shoot (player s') = false
  ∧ shoot_cooldown (player s') = shoot_cooldown (player s)
  ∧ length (commands s') = S (length (commands s))
  ∧ length (entities (world s')) = S (length (entities (world s))).
Proof.
  intros Hc H. destruct (pos (player_base (player s))) as [ppos|] eqn:Hpos.
  - rewrite (Player_shoot_spec target id s ppos Hpos) in H. injection H as <-.
    unfold can_shoot. simpl. rewrite !length_app. simpl.
    destruct (Rle_dec _ _); [lra|]. repeat split; lia.
  - unfold Player_shoot in H. rewrite Hpos in H. discriminate.
Qed.

Lemma handle_event_cooldown (s s' : State) (ev : Event) :
  0 < shoot_cooldown (player s) →
  handle_event s ev = Some s' →
  shoot_cooldown (player s') = shoot_cooldown (player s)
  ∧ ((commands s' = commands s ∧ entities (world s') = entities (world s)
      ∧ player s' = player s)
     ∨ (can_shoot (player s) = true ∧ can_shoot (player s') = false
        ∧ length (commands s') = S (length (commands s))
        ∧ length (entities (world s')) = S (length (entities (world s))))).
Proof.
  intros Hc H. destruct ev; simpl in H.
  - injection H as <-. split; [reflexivity|]. now left.
  - destruct (_ && _); [|destruct (rewinding _)]; injection H as <-;
      (split; [reflexivity|]); now left.
  - destruct (can_shoot (player s)) eqn:Hcan.
    + apply Player_shoot_cools in H as (H1 & H2 & H3 & H4); [|assumption].
      split; [assumption|]. right. repeat split; assumption.
    + injection H as <-. split; [reflexivity|]. now left.
  - injection H as <-. split; [reflexivity|]. now left.
Qed.

Lemma cooled_pass (evs : list Event) (s s' : State) :
  0 < shoot_cooldown (player s) → can_shoot (player s) = false →
  foldlM handle_event s evs = Some s' →
  commands s' = commands s ∧ entities (world s') = entities (world s)
  ∧ player s' = player s.
Proof.
  revert s. induction evs as [|ev evs IH]; intros s Hc Hcool H; simpl in H.
  - now injection H as <-.
  - destruct (handle_event s ev) as [s1|] eqn:E; [|discriminate]. simpl in H.
    destruct (handle_event_cooldown s s1 ev Hc E)
      as [Hc1 [(E1 & E2 & E3)|(Hcan & _)]]; [|congruence].
    rewrite <- E1, <- E2, <- E3. apply IH; [congruence|congruence|assumption].
Qed.



(** ** Recording a move *)

Lemma vlength_normalize (a : Vec) : a ≠ (0, 0) → vlength (normalize a) = 1.
Proof.
  intros H. pose proof (vlength_positive a H) as Hv.
  unfold normalize. rewrite vlength_vscale.
  rewrite Rabs_right by (left; now apply Rinv_0_lt_compat).
  field. lra.
Qed.

Lemma vsub_vadd (a d : Vec) : vsub (vadd a d) a = d.
Proof.
  destruct a as [ax ay], d as [dx dy]. unfold vsub, vadd. simpl. f_equal; ring.
Qed.

Lemma vlength_squared_positive (a : Vec) : 0 < vlength_squared a ↔ a ≠ (0, 0).
Proof.
  destruct a as [x y]. unfold vlength_squared. simpl. split.
  - intros H [= -> ->]. lra.
  - intros H. destruct (Req_dec_T x 0) as [->|Hx]; [|nra].
    destruct (Req_dec_T y 0) as [->|Hy]; [contradiction|nra].
Qed.



(** ** The obsolete filter and the retirement of ghosts *)

Lemma entity_ok_not_obsolete (n : nat) (e : Entity) : entity_ok n e → is_obsolete e = false.
Proof.
  destruct e as [|t|b|g|g]; simpl; try reflexivity.
  - intros H. apply bool_decide_eq_false. lra.
  - intros [H _]. apply bool_decide_eq_false. lra.
Qed.

Lemma filter_all {A} (P : A → Prop) `{∀ x, Decision (P x)} (l : list A) :
  Forall P l → filter P l = l.
Proof.
  induction 1 as [|x l Hx Hl IH]; [reflexivity|].
  rewrite filter_cons_True by assumption. now rewrite IH.
Qed.

Lemma updates_Inv (i : Input) (s s' : State) :
  valid_input i → Inv s → updates i s = Some s' → Inv s'.
Proof.
  intros [Hdt Hev] HI H. unfold updates in H.
  destruct (foldlM handle_event s (events i)) as [sa|] eqn:Ea; [|discriminate].
  simpl in H. destruct (record_move i sa) as [sb|] eqn:Eb; [|discriminate].
  simpl in H. destruct (GameWorld_update (dt i) sb) as [sc|] eqn:Ec; [|discriminate].
  simpl in H.
  apply (foldlM_inv Inv) in Ea; [| |exact HI].
  - apply record_move_Inv in Eb; [|exact Ea].
    apply GameWorld_update_Inv in Ec; [|exact Hdt|exact Eb].
    now apply update_entities_Inv with (dt i) sc.
  - intros b ev b' Hb _ Hstep. now apply handle_event_Inv with b ev.
Qed.



Lemma retire_timeline_charges (tid : nat) (st : Z * gmap nat Z) :
  (st.1 <= MAX_REWINDS)%Z →
  (st.1 <= (retire_timeline tid st).1 <= MAX_REWINDS)%Z.
Proof.
  destruct st as [charges active]. unfold retire_timeline, MAX_REWINDS. simpl.
  intros H. destruct (bool_decide _); simpl; lia.
Qed.

Lemma retire_ghosts_spec (g : R) (es : list Entity) (st : Z * gmap nat Z) :
  (st.1 <= MAX_REWINDS)%Z →
  (retire_ghosts g es st).1 = filter (λ e, expired g e = false) es
  ∧ (st.1 <= (retire_ghosts g es st).2.1 <= MAX_REWINDS)%Z
  ∧ (Forall (λ e, expired g e = false) es → (retire_ghosts g es st).2 = st).
Proof.
  revert st. induction es as [|e es IH]; intros st Hst; simpl.
  - split; [reflexivity|]. split; [lia|reflexivity].
  - unfold expired at 1 3. destruct (ghost_end_time e) as [[end_time tid]|] eqn:Eg.
    + destruct (Rlt_dec end_time g) as [Hlt|Hge].
      * pose proof (retire_timeline_charges tid st Hst) as Hc.
        destruct (IH (retire_timeline tid st)) as (IH1 & IH2 & _); [apply Hc|].
        rewrite filter_cons_False
          by (unfold expired; rewrite Eg, bool_decide_eq_true_2 by assumption; discriminate).
        split; [exact IH1|]. split; [lia|].
        intros Hall. apply Forall_cons in Hall as [He _].
        unfold expired in He. rewrite Eg in He.
        apply bool_decide_eq_false in He. contradiction.
      * destruct (IH st Hst) as (IH1 & IH2 & IH3). simpl.
        rewrite filter_cons_True
          by (unfold expired; rewrite Eg; now apply bool_decide_eq_false).
        split; [now rewrite IH1|]. split; [exact IH2|].
        intros Hall. apply Forall_cons in Hall as [_ Hall]. now apply IH3.
    + destruct (IH st Hst) as (IH1 & IH2 & IH3). simpl.
      rewrite filter_cons_True by (unfold expired; now rewrite Eg).
      split; [now rewrite IH1|]. split; [exact IH2|].
      intros Hall. apply Forall_cons in Hall as [_ Hall]. now apply IH3.
Qed.



(** ** Sorting the moves of a ghost player *)

Lemma insert_sample_spec (x : R * Vec) (sorted : Path) :
  StronglySorted (λ a b : R * Vec, a.1 <= b.1) sorted →
  match insert_sample x sorted with
  | Some r => r ≡ₚ x :: sorted ∧ StronglySorted (λ a b : R * Vec, a.1 <= b.1) r
  | None => ∃ y, y ∈ sorted ∧ x.1 = y.1 ∧ x.2 ≠ y.2
  end.
Proof.
  induction 1 as [|y ys Hs IH Hy]; simpl.
  - split; [reflexivity|]. repeat constructor.
  - unfold sample_lt. destruct (decide (x.1 = y.1)) as [E|E].
    + destruct (decide (x.2 = y.2)) as [E2|E2]; simpl.
      * destruct (insert_sample x ys) as [r|].
        -- destruct IH as [Hp Hr]. simpl. split.
           ++ rewrite Hp. apply Permutation_swap.
           ++ constructor; [exact Hr|]. rewrite Hp. constructor; [lra|exact Hy].
        -- destruct IH as (z & Hz & Hz1 & Hz2). simpl.
           exists z. split; [now right|]. now split.
      * exists y. split; [left|]. now split.
    + simpl. destruct (bool_decide (x.1 < y.1)) eqn:Hlt.
      * apply bool_decide_eq_true in Hlt. split; [reflexivity|].
        constructor; [now constructor|]. constructor; [lra|].
        eapply Forall_impl; [exact Hy|]. simpl. intros a Ha. lra.
      * apply bool_decide_eq_false in Hlt.
        destruct (insert_sample x ys) as [r|].
        -- destruct IH as [Hp Hr]. simpl. split.
           ++ rewrite Hp. apply Permutation_swap.
           ++ constructor; [exact Hr|]. rewrite Hp. constructor; [lra|exact Hy].
        -- destruct IH as (z & Hz & Hz1 & Hz2). simpl.
           exists z. split; [now right|]. now split.
Qed.

Lemma insert_sample_conflict (x y : R * Vec) (sorted : Path) :
  StronglySorted (λ a b : R * Vec, a.1 <= b.1) sorted →
  y ∈ sorted → x.1 = y.1 → x.2 ≠ y.2 → insert_sample x sorted = None.
Proof.
  induction 1 as [|z zs Hs IH Hz]; intros Hy E1 E2.
  - now apply elem_of_nil in Hy.
  - simpl. unfold sample_lt. apply elem_of_cons in Hy as [<-|Hy].
    + rewrite decide_True by assumption. now rewrite decide_False by assumption.
    + assert (Hzy : z.1 <= y.1) by (rewrite Forall_forall in Hz; now apply Hz).
      destruct (decide (x.1 = z.1)) as [E|E].
      * destruct (decide (x.2 = z.2)); [|reflexivity]. simpl.
        now rewrite IH.
      * simpl. rewrite bool_decide_eq_false_2 by lra. now rewrite IH.
Qed.

Lemma sort_path_sorted (l l' : Path) :
  sort_path l = Some l' →
  l' ≡ₚ l ∧ StronglySorted (λ a b : R * Vec, a.1 <= b.1) l'.
Proof.
  revert l'. induction l as [|x l IH]; intros l' H; simpl in H.
  - injection H as <-. split; [reflexivity|constructor].
  - destruct (sort_path l) as [s|]; [|discriminate]. simpl in H.
    destruct (IH s eq_refl) as [Hp Hs].
    pose proof (insert_sample_spec x s Hs) as Hi. rewrite H in Hi.
    destruct Hi as [Hp' Hs']. split; [|exact Hs']. now rewrite Hp', Hp.
Qed.

Lemma sort_path_raises (l : Path) : sort_path l = None ↔ conflicting l.
Proof.
  induction l as [|x l IH]; simpl.
  - split; [discriminate|]. intros (a & _ & Ha & _). now apply elem_of_nil in Ha.
  - destruct (sort_path l) as [s|] eqn:Es; simpl.
    + destruct (sort_path_sorted l s Es) as [Hp Hs].
      pose proof (insert_sample_spec x s Hs) as Hi. split.
      * intros E. rewrite E in Hi. destruct Hi as (y & Hy & E1 & E2).
        exists x, y. split; [left|]. split; [right; now rewrite <- Hp|]. now split.
      * intros (a & b & Ha & Hb & E1 & E2).
        assert (Hno : ¬ conflicting l).
        { intros Hc. apply IH in Hc. discriminate. }
        apply elem_of_cons in Ha as [->|Ha]; apply elem_of_cons in Hb as [->|Hb].
        -- contradiction.
        -- apply insert_sample_conflict with b; try assumption. now rewrite Hp.
        -- apply insert_sample_conflict with a; try assumption; [now rewrite Hp| |];
             congruence.
        -- exfalso. apply Hno. exists a, b. repeat split; assumption.
    + split; [intros _|reflexivity].
      destruct IH as [IH _]. destruct (IH eq_refl) as (a & b & Ha & Hb & E).
      exists a, b. split; [now right|]. split; [now right|exact E].
Qed.


(** ** [GameWorld.update]: the executed flags follow the clock *)

Lemma Command_execute_flag (c c' : Command) (w w' : GameWorld) :
  Command_execute c w = Some (c', w') →
  executed c' = true ∧ scheduled_time c' = scheduled_time c
  ∧ global_time w' = global_time w ∧ rewinding w' = rewinding w.
Proof.
  unfold Command_execute. destruct (executed c) eqn:Ec.
  - intros [= <- <-]. now rewrite Ec.
  - destruct (forward_fn c) as [f|]; [|discriminate]. simpl.
    destruct (apply_fn f w (cmd_data c)) as [w1|] eqn:Ea; [|discriminate]. simpl.
    intros [= <- <-]. apply apply_fn_spec in Ea as (es & -> & _). now simpl.
Qed.

Lemma Command_reverse_flag (c c' : Command) (w w' : GameWorld) :
  Command_reverse c w = Some (c', w') →
  executed c' = false ∧ scheduled_time c' = scheduled_time c
  ∧ global_time w' = global_time w ∧ rewinding w' = rewinding w.
Proof.
  unfold Command_reverse. destruct (executed c) eqn:Ec.
  - destruct (backward_fn c) as [f|]; [|discriminate]. simpl.
    destruct (apply_fn f w (cmd_data c)) as [w1|] eqn:Ea; [|discriminate]. simpl.
    intros [= <- <-]. apply apply_fn_spec in Ea as (es & -> & _). now simpl.
  - intros [= <- <-]. now rewrite Ec.
Qed.

Lemma flag_step_refl (rew fp : bool) (g : R) (c : Command) :
  flag_step rew fp g False c c.
Proof. unfold flag_step. tauto. Qed.

Lemma flag_step_trans (rew fp : bool) (g : R) (h1 h2 : Prop) (c c1 c2 : Command) :
  flag_step rew fp g h1 c c1 → flag_step rew fp g h2 c1 c2 →
  flag_step rew fp g (h1 ∨ h2) c c2.
Proof.
  intros (E1 & A1 & B1 & C1 & D1) (E2 & A2 & B2 & C2 & D2).
  unfold flag_step. rewrite E2, E1. split; [reflexivity|].
  rewrite E1 in C2, D2. split; [auto|]. split; [auto|]. split.
  - intros [H|H] Hr Hg; auto.
  - intros [H|H] Hr Hf Hg; auto.
Qed.

Lemma flag_step_weaken (rew fp : bool) (g : R) (h h' : Prop) (c c' : Command) :
  (h' → h) → flag_step rew fp g h c c' → flag_step rew fp g h' c c'.
Proof.
  intros Hh (E & A & B & C & D). unfold flag_step. repeat split; auto.
Qed.

Lemma global_command_step_flags (fp : bool) (s s1 : State) (r0 : cmd_ref) :
  (rewinding (world s) = true → fp = false) →
  global_command_step fp s r0 = Some s1 →
  global_time (world s1) = global_time (world s)
  ∧ rewinding (world s1) = rewinding (world s)
  ∧ ∀ r c1, commands s1 !! r = Some c1 →
      ∃ c, commands s !! r = Some c
           ∧ flag_step (rewinding (world s)) fp (global_time (world s)) (r = r0) c c1.
Proof.
  intros Hfp H. unfold global_command_step in H.
  destruct (commands s !! r0) as [c0|] eqn:E0; [|discriminate]. simpl in H.
  destruct (rewinding (world s) && executed c0
            && bool_decide (global_time (world s) < scheduled_time c0)) eqn:C1.
  - apply andb_true_iff in C1 as [C1 Hg]. apply andb_true_iff in C1 as [Hrew Hex].
    unfold on_command in H. rewrite E0 in H. simpl in H.
    destruct (Command_reverse c0 (world s)) as [[c0' w']|] eqn:Er; [|discriminate].
    simpl in H. injection H as <-. simpl.
    apply Command_reverse_flag in Er as (F1 & F2 & F3 & F4).
    split; [exact F3|]. split; [exact F4|]. intros r c1 Hc1.
    destruct (decide (r = r0)) as [->|Hne].
    + rewrite list_lookup_insert_eq in Hc1 by (now apply lookup_lt_Some in E0).
      injection Hc1 as <-. exists c0. split; [exact E0|].
      unfold flag_step. rewrite F1, F2, Hrew. repeat split; congruence.
    + rewrite list_lookup_insert_ne in Hc1 by congruence.
      exists c1. split; [exact Hc1|].
      eapply flag_step_weaken; [|apply flag_step_refl]. congruence.
  - destruct (fp && negb (executed c0)
              && bool_decide (scheduled_time c0 <= global_time (world s))) eqn:C2.
    + apply andb_true_iff in C2 as [C2 Hg]. apply andb_true_iff in C2 as [Hf Hex].
      assert (Hrew : rewinding (world s) = false).
      { destruct (rewinding (world s)); [|reflexivity]. rewrite Hfp in Hf; done. }
      unfold on_command in H. rewrite E0 in H. simpl in H.
      destruct (Command_execute c0 (world s)) as [[c0' w']|] eqn:Er; [|discriminate].
      simpl in H. injection H as <-. simpl.
      apply Command_execute_flag in Er as (F1 & F2 & F3 & F4).
      split; [exact F3|]. split; [exact F4|]. intros r c1 Hc1.
      destruct (decide (r = r0)) as [->|Hne].
      * rewrite list_lookup_insert_eq in Hc1 by (now apply lookup_lt_Some in E0).
        injection Hc1 as <-. exists c0. split; [exact E0|].
        unfold flag_step. rewrite F1, F2, Hrew. repeat split; congruence.
      * rewrite list_lookup_insert_ne in Hc1 by congruence.
        exists c1. split; [exact Hc1|].
        eapply flag_step_weaken; [|apply flag_step_refl]. congruence.
    + injection H as <-. split; [reflexivity|]. split; [reflexivity|].
      intros r c1 Hc1. exists c1. split; [exact Hc1|].
      unfold flag_step. split; [reflexivity|]. split; [auto|]. split; [auto|]. split.
      * intros -> Hrew Hg. rewrite E0 in Hc1. injection Hc1 as ->.
        rewrite Hrew, (bool_decide_eq_true_2 _ Hg) in C1. simpl in C1.
        now rewrite andb_true_r in C1.
      * intros -> Hrew Hf Hg. rewrite E0 in Hc1. injection Hc1 as ->.
        rewrite Hf, (bool_decide_eq_true_2 _ Hg) in C2. simpl in C2.
        rewrite andb_true_r in C2. now apply negb_false_iff in C2.
Qed.

Lemma global_commands_fold_flags (fp : bool) (l : list cmd_ref) (s s' : State) :
  (rewinding (world s) = true → fp = false) →
  foldlM (global_command_step fp) s l = Some s' →
  global_time (world s') = global_time (world s)
  ∧ rewinding (world s') = rewinding (world s)
  ∧ ∀ r c', commands s' !! r = Some c' →
      ∃ c, commands s !! r = Some c
           ∧ flag_step (rewinding (world s)) fp (global_time (world s)) (r ∈ l) c c'.
Proof.
  revert s. induction l as [|r0 l IH]; intros s Hfp H; simpl in H.
  - injection H as <-. split; [reflexivity|]. split; [reflexivity|].
    intros r c' Hc'. exists c'. split; [exact Hc'|].
    eapply flag_step_weaken; [|apply flag_step_refl]. apply elem_of_nil.
  - destruct (global_command_step fp s r0) as [s1|] eqn:E1; [|discriminate].
    simpl in H. apply global_command_step_flags in E1 as (G1 & R1 & K1); [|exact Hfp].
    apply IH in H as (G2 & R2 & K2); [|now rewrite R1].
    split; [congruence|]. split; [congruence|]. intros r c' Hc'.
    destruct (K2 r c' Hc') as (c1 & Hc1 & F2).
    destruct (K1 r c1 Hc1) as (c & Hc & F1).
    exists c. split; [exact Hc|]. rewrite R1, G1 in F2.
    eapply flag_step_weaken; [|exact (flag_step_trans _ _ _ _ _ _ _ _ F1 F2)].
    intros Hin. apply elem_of_cons in Hin. tauto.
Qed.



(** ** The pruning loops of the branch evaluation *)

Lemma to_ghost_marked (tp : R) (new prev : nat) (c : Command) :
  to_ghost tp new prev (add_ghosted new c) = false.
Proof.
  unfold to_ghost. simpl. rewrite (bool_decide_eq_false_2 (new ∉ _)) by set_solver.
  apply andb_false_r.
Qed.

Lemma bullet_spawn_step_marks (tp : R) (new prev : nat) (acc acc1 : State * bool)
    (r0 : cmd_ref) :
  bullet_spawn_step tp new prev acc r0 = Some acc1 →
  permanent_command_log (world acc1.1) = permanent_command_log (world acc.1)
  ∧ length (commands acc1.1) = length (commands acc.1)
  ∧ (r0 < length (commands acc.1))%nat
  ∧ ∀ r c1, commands acc1.1 !! r = Some c1 →
      ∃ c, commands acc.1 !! r = Some c
           ∧ (is_shoot c && to_ghost tp new prev c = false → c1 = c)
           ∧ (r = r0 → is_shoot c1 && to_ghost tp new prev c1 = false)
           ∧ ∀ P : Command → Prop, (∀ c, P c → P (add_ghosted new c)) → P c → P c1.
Proof.
  destruct acc as [s b]. unfold bullet_spawn_step. simpl.
  destruct (commands s !! r0) as [c0|] eqn:E0; [|discriminate]. simpl.
  pose proof (lookup_lt_Some _ _ _ E0) as Hlt.
  destruct (is_shoot c0 && to_ghost tp new prev c0) eqn:C.
  - destruct (cmd_data c0) as [p vel id ml|]; [|discriminate].
    intros [= <-]. simpl. rewrite length_insert.
    repeat split; try assumption. intros r c1 Hc1.
    destruct (decide (r = r0)) as [->|Hne].
    + rewrite list_lookup_insert_eq in Hc1 by assumption. injection Hc1 as <-.
      exists c0. split; [exact E0|]. split; [congruence|]. split.
      * intros _. rewrite to_ghost_marked. apply andb_false_r.
      * intros P HP Hc0. now apply HP.
    + rewrite list_lookup_insert_ne in Hc1 by congruence.
      exists c1. split; [exact Hc1|]. split; [reflexivity|]. split; [contradiction|].
      now intros P _ Hc.
  - intros [= <-]. simpl. repeat split; try assumption. intros r c1 Hc1.
    exists c1. split; [exact Hc1|]. split; [reflexivity|]. split.
    + intros ->. rewrite E0 in Hc1. now injection Hc1 as <-.
    + now intros P _ Hc.
Qed.

Lemma bullet_spawn_fold_marks (tp : R) (new prev : nat) (l : list cmd_ref)
    (acc acc' : State * bool) :
  foldlM (bullet_spawn_step tp new prev) acc l = Some acc' →
  permanent_command_log (world acc'.1) = permanent_command_log (world acc.1)
  ∧ length (commands acc'.1) = length (commands acc.1)
  ∧ Forall (λ r : cmd_ref, (r < length (commands acc.1))%nat) l
  ∧ ∀ r c', commands acc'.1 !! r = Some c' →
      ∃ c, commands acc.1 !! r = Some c
           ∧ (is_shoot c && to_ghost tp new prev c = false → c' = c)
           ∧ (r ∈ l → is_shoot c' && to_ghost tp new prev c' = false)
           ∧ ∀ P : Command → Prop, (∀ c, P c → P (add_ghosted new c)) → P c → P c'.
Proof.
  revert acc. induction l as [|r0 l IH]; intros acc H; simpl in H.
  - injection H as <-. repeat split; [constructor|]. intros r c' Hc'.
    exists c'. split; [exact Hc'|]. split; [reflexivity|]. split.
    + intros Hin. now apply elem_of_nil in Hin.
    + now intros P _ Hc.
  - destruct (bullet_spawn_step tp new prev acc r0) as [acc1|] eqn:E1; [|discriminate].
    simpl in H. apply bullet_spawn_step_marks in E1 as (L1 & N1 & B1 & K1).
    apply IH in H as (L2 & N2 & B2 & K2).
    split; [congruence|]. split; [congruence|]. split.
    { constructor; [exact B1|]. now rewrite N1 in B2. }
    intros r c' Hc'. destruct (K2 r c' Hc') as (c1 & Hc1 & Q2 & M2 & S2).
    destruct (K1 r c1 Hc1) as (c & Hc & Q1 & M1 & S1).
    exists c. split; [exact Hc|]. split; [|split].
    + intros Hq. pose proof (Q1 Hq) as ->. now apply Q2.
    + intros Hin. apply elem_of_cons in Hin as [->|Hin]; [|now apply M2].
      pose proof (M1 eq_refl) as Hq. now rewrite (Q2 Hq).
    + intros P HP Hc0. apply S2; [exact HP|]. now apply S1.
Qed.

Lemma bullet_spawn_fold_quiet (tp : R) (new prev : nat) (l : list cmd_ref)
    (s : State) (b : bool) :
  Forall (λ r, ∃ c, commands s !! r = Some c
                    ∧ is_shoot c && to_ghost tp new prev c = false) l →
  foldlM (bullet_spawn_step tp new prev) (s, b) l = Some (s, b).
Proof.
  induction 1 as [|r l (c & Hc & Hq) Hl IH]; simpl; [reflexivity|].
  rewrite Hc. simpl. rewrite Hq. simpl. exact IH.
Qed.

Lemma player_move_step_marks (tp : R) (new prev : nat) (acc acc1 : State * Path)
    (r0 : cmd_ref) :
  player_move_step tp new prev acc r0 = Some acc1 →
  world acc1.1 = world acc.1
  ∧ length (commands acc1.1) = length (commands acc.1)
  ∧ (r0 < length (commands acc.1))%nat
  ∧ ∀ r c1, commands acc1.1 !! r = Some c1 →
      ∃ c, commands acc.1 !! r = Some c
           ∧ (is_player_move c && to_ghost tp new prev c = false → c1 = c)
           ∧ (r = r0 → is_player_move c1 && to_ghost tp new prev c1 = false)
           ∧ ∀ P : Command → Prop, (∀ c, P c → P (add_ghosted new c)) → P c → P c1.
Proof.
  destruct acc as [s path]. unfold player_move_step. simpl.
  destruct (commands s !! r0) as [c0|] eqn:E0; [|discriminate]. simpl.
  pose proof (lookup_lt_Some _ _ _ E0) as Hlt.
  destruct (is_player_move c0 && to_ghost tp new prev c0) eqn:C.
  - intros [= <-]. simpl. rewrite length_insert.
    repeat split; try assumption. intros r c1 Hc1.
    destruct (decide (r = r0)) as [->|Hne].
    + rewrite list_lookup_insert_eq in Hc1 by assumption. injection Hc1 as <-.
      exists c0. split; [exact E0|]. split; [congruence|]. split.
      * intros _. rewrite to_ghost_marked. apply andb_false_r.
      * intros P HP Hc0. now apply HP.
    + rewrite list_lookup_insert_ne in Hc1 by congruence.
      exists c1. split; [exact Hc1|]. split; [reflexivity|]. split; [contradiction|].
      now intros P _ Hc.
  - intros [= <-]. simpl. repeat split; try assumption. intros r c1 Hc1.
    exists c1. split; [exact Hc1|]. split; [reflexivity|]. split.
    + intros ->. rewrite E0 in Hc1. now injection Hc1 as <-.
    + now intros P _ Hc.
Qed.

Lemma player_move_fold_marks (tp : R) (new prev : nat) (l : list cmd_ref)
    (acc acc' : State * Path) :
  foldlM (player_move_step tp new prev) acc l = Some acc' →
  world acc'.1 = world acc.1
  ∧ length (commands acc'.1) = length (commands acc.1)
  ∧ Forall (λ r : cmd_ref, (r < length (commands acc.1))%nat) l
  ∧ ∀ r c', commands acc'.1 !! r = Some c' →
      ∃ c, commands acc.1 !! r = Some c
           ∧ (is_player_move c && to_ghost tp new prev c = false → c' = c)
           ∧ (r ∈ l → is_player_move c' && to_ghost tp new prev c' = false)
           ∧ ∀ P : Command → Prop, (∀ c, P c → P (add_ghosted new c)) → P c → P c'.
Proof.
  revert acc. induction l as [|r0 l IH]; intros acc H; simpl in H.
  - injection H as <-. repeat split; [constructor|]. intros r c' Hc'.
    exists c'. split; [exact Hc'|]. split; [reflexivity|]. split.
    + intros Hin. now apply elem_of_nil in Hin.
    + now intros P _ Hc.
  - destruct (player_move_step tp new prev acc r0) as [acc1|] eqn:E1; [|discriminate].
    simpl in H. apply player_move_step_marks in E1 as (L1 & N1 & B1 & K1).
    apply IH in H as (L2 & N2 & B2 & K2).
    split; [congruence|]. split; [congruence|]. split.
    { constructor; [exact B1|]. now rewrite N1 in B2. }
    intros r c' Hc'. destruct (K2 r c' Hc') as (c1 & Hc1 & Q2 & M2 & S2).
    destruct (K1 r c1 Hc1) as (c & Hc & Q1 & M1 & S1).
    exists c. split; [exact Hc|]. split; [|split].
    + intros Hq. pose proof (Q1 Hq) as ->. now apply Q2.
    + intros Hin. apply elem_of_cons in Hin as [->|Hin]; [|now apply M2].
      pose proof (M1 eq_refl) as Hq. now rewrite (Q2 Hq).
    + intros P HP Hc0. apply S2; [exact HP|]. now apply S1.
Qed.

Lemma player_move_fold_quiet (tp : R) (new prev : nat) (l : list cmd_ref)
    (s : State) (path : Path) :
  Forall (λ r, ∃ c, commands s !! r = Some c
                    ∧ is_player_move c && to_ghost tp new prev c = false) l →
  foldlM (player_move_step tp new prev) (s, path) l = Some (s, path).
Proof.
  induction 1 as [|r l (c & Hc & Hq) Hl IH]; simpl; [reflexivity|].
  rewrite Hc. simpl. rewrite Hq. simpl. exact IH.
Qed.



Lemma iter_active_add_lookup (new : nat) (n : nat) (m : gmap nat Z) :
  default 0%Z (Nat.iter n (active_add new 1) m !! new)
  = (default 0 (m !! new) + Z.of_nat n)%Z
  ∧ ∀ k, k ≠ new → Nat.iter n (active_add new 1) m !! k = m !! k.
Proof.
  induction n as [|n [IH1 IH2]].
  - simpl. split; [lia|reflexivity].
  - rewrite Nat.iter_succ. unfold active_add at 1 3. split.
    + rewrite lookup_insert_eq. simpl. rewrite IH1. lia.
    + intros k Hk. rewrite lookup_insert_ne by congruence. now apply IH2.
Qed.

Lemma bullet_spawn_fold_ghosts (tp : R) (new prev : nat) (l : list cmd_ref)
    (acc acc' : State * bool) :
  foldlM (bullet_spawn_step tp new prev) acc l = Some acc' →
  ∃ ghosts : list GhostBullet,
    entities (world acc'.1) = entities (world acc.1) ++ (EGhostBullet <$> ghosts)
    ∧ Forall (λ g, gb_timeline_id g = new ∧ gb_cmd_ref g = None
                   ∧ bullet_id (ghost_bullet g) = (-1)%Z) ghosts
    ∧ active_timelines acc'.1
      = Nat.iter (length ghosts) (active_add new 1) (active_timelines acc.1)
    ∧ acc'.2 = acc.2 || bool_decide (ghosts ≠ [])
    ∧ player acc'.1 = player acc.1
    ∧ rewind_charges acc'.1 = rewind_charges acc.1
    ∧ global_time (world acc'.1) = global_time (world acc.1)
    ∧ current_timeline_id (world acc'.1) = current_timeline_id (world acc.1)
    ∧ next_timeline_id (world acc'.1) = next_timeline_id (world acc.1).
Proof.
  revert acc. induction l as [|r0 l IH]; intros acc H; simpl in H.
  - injection H as <-. exists []. simpl. rewrite app_nil_r, orb_false_r.
    repeat split; try constructor.
  - destruct (bullet_spawn_step tp new prev acc r0) as [acc1|] eqn:E1; [|discriminate].
    simpl in H. apply IH in H as (ghosts & He & Hg & Ha & Hb & Hp & Hc & Ht & Hi & Hx).
    destruct acc as [s b]. unfold bullet_spawn_step in E1.
    destruct (commands s !! r0) as [c0|]; [|discriminate]. simpl in E1.
    destruct (is_shoot c0 && to_ghost tp new prev c0).
    + destruct (cmd_data c0) as [p vel id ml|]; [|discriminate].
      injection E1 as <-. simpl in *.
      eexists (_ :: ghosts). rewrite He, Ha, Hb, <- app_assoc. simpl.
      split; [reflexivity|]. split.
      { constructor; [|exact Hg]. repeat split. }
      split; [exact (eq_sym (Nat.iter_succ_r _ _ _))|]. split; [now rewrite orb_true_r|].
      repeat split; assumption.
    + injection E1 as <-. exists ghosts. repeat split; assumption.
Qed.



(** * Invariants of the loop, statement by statement *)

(** A property of states that every statement of a pass keeps is kept by
    the pass.  The statements may rely on [Inv] and [Wf], which the pass
    keeps as well. *)
Section FrameInduction.
Variable J : State → Prop.
Variable i : Input.
Hypothesis valid : valid_input i.
Hypothesis J_event : ∀ s ev s',
    Inv s → Wf s → J s → valid_event ev → handle_event s ev = Some s' → J s'.
Hypothesis J_move : ∀ s s',
    Inv s → Wf s → J s → record_move i s = Some s' → J s'.
Hypothesis J_world : ∀ s s',
    Inv s → Wf s → J s → GameWorld_update (dt i) s = Some s' → J s'.
Hypothesis J_entities : ∀ s s',
    Inv s → Wf s → J s → update_entities (dt i) s = Some s' → J s'.
Hypothesis J_obsolete : ∀ s, Inv s → Wf s → J s → J (drop_obsolete s).
Hypothesis J_branch : ∀ s s',
    Inv s → Wf s → J s → branch_evaluation s = Some s' →
    J (set_was_rewinding (rewinding (world s')) s').
Hypothesis J_retire : ∀ s, Inv s → Wf s → J s → J (retirement s).
Hypothesis J_players : ∀ s s',
    Inv s → Wf s → J s → reconcile_ghost_players s = Some s' → J s'.
Hypothesis J_bullets : ∀ s s',
    Inv s → Wf s → J s → reconcile_ghost_bullets s = Some s' → J s'.

Lemma events_preserve (evs : list Event) (s s' : State) :
    Forall valid_event evs →
    Inv s ∧ Wf s ∧ J s → foldlM handle_event s evs = Some s' → Inv s' ∧ Wf s' ∧ J s'.
  Proof.
    intros Hev. revert s. induction Hev as [|ev evs Hv Hev IH]; intros s HI H; simpl in H.
    - now injection H as <-.
    - destruct (handle_event s ev) as [s1|] eqn:E; [|discriminate]. simpl in H.
      destruct HI as (HI & HW & HJ). apply IH with s1; [|exact H].
      split; [now apply handle_event_Inv with s ev|].
      split; [now apply handle_event_Wf with s ev|].
      now apply J_event with s ev.
  Qed.

Lemma updates_preserve (s s' : State) :
    Inv s ∧ Wf s ∧ J s → updates i s = Some s' → Inv s' ∧ Wf s' ∧ J s'.
  Proof.
    intros HI H. unfold updates in H. destruct valid as [Hdt Hev].
    destruct (foldlM handle_event s (events i)) as [sa|] eqn:Ea; [|discriminate].
    simpl in H. destruct (record_move i sa) as [sb|] eqn:Eb; [|discriminate].
    simpl in H. destruct (GameWorld_update (dt i) sb) as [sc|] eqn:Ec; [|discriminate].
    simpl in H.
    apply events_preserve in Ea as (Ia & Wa & Ja); [|exact Hev|exact HI].
    assert (Ib : Inv sb) by now apply record_move_Inv with i sa.
    assert (Wb : Wf sb) by now apply record_move_Wf with i sa.
    assert (Jb : J sb) by now apply J_move with sa.
    assert (Ic : Inv sc) by now apply GameWorld_update_Inv with (dt i) sb.
    assert (Wc : Wf sc) by now apply GameWorld_update_Wf with (dt i) sb.
    assert (Jc : J sc) by now apply J_world with sb.
    split; [now apply update_entities_Inv with (dt i) sc|].
    split; [now apply update_entities_Wf with (dt i) sc|].
    now apply J_entities with sc.
  Qed.

Lemma frame_updates (s : State) :
    frame i s
    = updates i s ≫= λ s,
      branch_evaluation (drop_obsolete s) ≫= λ s,
      reconcile_ghost_players (retirement (set_was_rewinding (rewinding (world s)) s))
      ≫= λ s, reconcile_ghost_bullets s.
  Proof.
    unfold frame, updates.
    destruct (foldlM handle_event s (events i)) as [sa|]; [|reflexivity]. simpl.
    destruct (record_move i sa) as [sb|]; [|reflexivity]. simpl.
    destruct (GameWorld_update (dt i) sb) as [sc|]; reflexivity.
  Qed.

Lemma frame_preserves (s s' : State) :
    Inv s ∧ Wf s ∧ J s → frame i s = Some s' → Inv s' ∧ Wf s' ∧ J s'.
  Proof.
    intros HI H. rewrite frame_updates in H.
    destruct (updates i s) as [s1|] eqn:E1; [|discriminate]. simpl in H.
    destruct (branch_evaluation (drop_obsolete s1)) as [s2|] eqn:E2; [|discriminate].
    simpl in H.
    destruct (reconcile_ghost_players _) as [s3|] eqn:E3; [|discriminate]. simpl in H.
    apply updates_preserve in E1 as (I1 & W1 & J1); [|exact HI].
    assert (I1' : Inv (drop_obsolete s1)) by now apply drop_obsolete_Inv.
    assert (W1' : Wf (drop_obsolete s1)) by now apply drop_obsolete_Wf.
    assert (J1' : J (drop_obsolete s1)) by now apply J_obsolete.
    assert (I2 : Inv s2) by now apply branch_evaluation_Inv with (drop_obsolete s1).
    assert (W2 : Wf s2) by now apply branch_evaluation_Wf with (drop_obsolete s1).
    pose proof (J_branch _ _ I1' W1' J1' E2) as J2.
    set (s2' := set_was_rewinding (rewinding (world s2)) s2) in *.
    assert (I2' : Inv s2') by (destruct I2; now constructor).
    assert (W2' : Wf s2') by exact W2.
    assert (I2r : Inv (retirement s2')) by now apply retirement_Inv.
    assert (W2r : Wf (retirement s2')) by exact W2'.
    assert (J2r : J (retirement s2')) by now apply J_retire.
    assert (I3 : Inv s3) by now apply reconcile_ghost_players_Inv with (retirement s2').
    assert (W3 : Wf s3) by now apply reconcile_ghost_players_Wf with (retirement s2').
    assert (J3 : J s3) by now apply J_players with (retirement s2').
    split; [now apply reconcile_ghost_bullets_Inv with s3|].
    split; [now apply reconcile_ghost_bullets_Wf with s3|].
    now apply J_bullets with s3.
  Qed.
End FrameInduction.

Lemma reachable_preserves (J : State → Prop) :
  J initial_state →
  (∀ i s s', valid_input i → Inv s → Wf s → J s → frame i s = Some s' → J s') →
  ∀ s, reachable s → J s.
Proof.
  intros H0 Hstep s Hs. induction Hs as [|i s s' Hs IH Hi Hf]; [exact H0|].
  apply Hstep with i s; try assumption; [now apply reachable_Inv|now apply reachable_Wf].
Qed.

(** ** What each statement of the pass leaves alone *)

Lemma on_command_footprint (m : Command → GameWorld → option (Command * GameWorld))
    (r : cmd_ref) (s s' : State) :
  m = Command_execute ∨ m = Command_reverse →
  on_command m r s = Some s' →
  ∃ c b es,
    commands s !! r = Some c
    ∧ live_change (entities (world s)) es
    ∧ s' = set_world (set_entities es (world s))
             (set_commands (<[r := set_executed b c]> (commands s)) s).
Proof.
  intros Hm H. unfold on_command in H.
  destruct (commands s !! r) as [c|] eqn:Hr; [|discriminate]. simpl in H.
  destruct (m c (world s)) as [[c' w']|] eqn:E; [|discriminate]. simpl in H.
  injection H as <-.
  destruct (Command_method_spec c c' (world s) w') as [[b ->] (es' & -> & Hlc)].
  { destruct Hm as [->| ->]; auto. }
  now exists c, b, es'.
Qed.

Lemma global_command_step_footprint (fp : bool) (s s' : State) (r : cmd_ref) :
  global_command_step fp s r = Some s' →
  s' = s
  ∨ ∃ c b es,
      commands s !! r = Some c
      ∧ live_change (entities (world s)) es
      ∧ s' = set_world (set_entities es (world s))
               (set_commands (<[r := set_executed b c]> (commands s)) s).
Proof.
  intros H. unfold global_command_step in H.
  destruct (commands s !! r) as [c|] eqn:Hr; [|discriminate]. simpl in H.
  destruct (_ && _ && _).
  - right. apply on_command_footprint in H; [|now right]. rewrite <- Hr. exact H.
  - destruct (_ && _ && _).
    + right. apply on_command_footprint in H; [|now left]. rewrite <- Hr. exact H.
    + left. now injection H as <-.
Qed.

Lemma flagged_refl (l : list Command) : Forall2 flagged l l.
Proof.
  apply Forall2_same_length_lookup_2; [reflexivity|]. intros i c c' H1 H2.
  rewrite H1 in H2. injection H2 as <-. exists (executed c).
  now rewrite set_executed_same.
Qed.

Lemma flagged_insert (l l' : list Command) (r : nat) (c : Command) (b : bool) :
  Forall2 flagged l l' → l' !! r = Some c →
  Forall2 flagged l (<[r := set_executed b c]> l').
Proof.
  intros H Hr. apply Forall2_same_length_lookup_2.
  - rewrite length_insert. now apply Forall2_length in H.
  - intros i x y Hx Hy. destruct (decide (i = r)) as [->|Hne].
    + rewrite list_lookup_insert_eq in Hy by (now apply lookup_lt_Some in Hr).
      injection Hy as <-.
      destruct (Forall2_lookup_lr _ _ _ _ _ _ H Hx Hr) as [b0 ->]. now exists b.
    + rewrite list_lookup_insert_ne in Hy by congruence.
      exact (Forall2_lookup_lr _ _ _ _ _ _ H Hx Hy).
Qed.

Lemma global_commands_fold_control (fp : bool) (l : list cmd_ref) (s s' : State) :
  foldlM (global_command_step fp) s l = Some s' →
  ∃ es cmds,
    Forall2 flagged (commands s) cmds
    ∧ rtc live_change (entities (world s)) es
    ∧ s' = set_world (set_entities es (world s)) (set_commands cmds s).
Proof.
  revert s. induction l as [|r l IH]; intros s H; simpl in H.
  - injection H as <-. exists (entities (world s)), (commands s).
    split; [apply flagged_refl|]. split; [reflexivity|].
    rewrite set_entities_same. now destruct s.
  - destruct (global_command_step fp s r) as [s1|] eqn:E; [|discriminate]. simpl in H.
    apply IH in H as (es & cmds & Hf & Hl & ->).
    apply global_command_step_footprint in E as [->|(c & b & es1 & Hc & Hl1 & ->)].
    + now exists es, cmds.
    + simpl in *. exists es, cmds. split.
      * apply Forall2_same_length_lookup_2.
        -- apply Forall2_length in Hf. now rewrite length_insert in Hf.
        -- intros j x y Hx Hy.
           destruct (decide (j = r)) as [->|Hne].
           ++ assert (Hi : <[r := set_executed b c]> (commands s) !! r
                           = Some (set_executed b c)).
              { apply list_lookup_insert_eq. now apply lookup_lt_Some in Hc. }
              destruct (Forall2_lookup_lr _ _ _ _ _ _ Hf Hi Hy) as [b0 ->].
              assert (Hxc : Some x = Some c) by (rewrite <- Hx; exact Hc).
              injection Hxc as ->. now exists b0.
           ++ assert (Hi : <[r := set_executed b c]> (commands s) !! j = Some x).
              { now rewrite list_lookup_insert_ne by congruence. }
              exact (Forall2_lookup_lr _ _ _ _ _ _ Hf Hi Hy).
      * split; [|reflexivity]. now apply rtc_l with es1.
Qed.

Lemma GameWorld_update_footprint (d : R) (s s' : State) :
  GameWorld_update d s = Some s' →
  ∃ es cmds now,
    Forall2 flagged (commands s) cmds
    ∧ rtc live_change (entities (world s)) es
    ∧ s' = mkState
             (mkGameWorld es (global_commands (world s)) (permanent_command_log (world s))
                now now (rewinding (world s)) (current_timeline_id (world s))
                (next_timeline_id (world s)))
             cmds (player s) (rewind_charges s) (active_timelines s)
             (was_rewinding_last_frame s).
Proof.
  intros H. unfold GameWorld_update in H.
  match type of H with (?o ≫= _) = _ => destruct o as [s1|] eqn:E end; [|discriminate].
  simpl in H. injection H as <-.
  apply global_commands_fold_control in E as (es & cmds & Hf & Hl & ->). simpl.
  now eexists es, cmds, _.
Qed.

Lemma ghost_player_step_footprint (s s' : State) (tid : nat) :
  ghost_player_step s tid = Some s' →
  s' = s
  ∨ (∃ g, existsb (is_ghost_player_of tid) (entities (world s)) = false
          ∧ gp_timeline_id g = tid ∧ local_time (gp_base g) = 0
          ∧ s' = set_world (set_entities (entities (world s) ++ [EGhostPlayer g])
                              (world s)) s)
  ∨ s' = set_world
           (set_entities (filter (λ e, is_ghost_player_of tid e = false)
                            (entities (world s))) (world s)) s.
Proof.
  intros H. unfold ghost_player_step in H.
  destruct (collect_moves _ _ _) as [path|]; [|discriminate]. simpl in H.
  destruct path as [|step path]; [left; now injection H as <-|].
  destruct (sort_path _) as [sorted|]; [|discriminate]. simpl in H.
  destruct (head sorted); [|discriminate]. simpl in H.
  destruct (last sorted); [|discriminate]. simpl in H.
  destruct (_ && _).
  - destruct (existsb _ _) eqn:Hex; [left; now injection H as <-|].
    destruct (GhostPlayer_init _ _ _) as [g|] eqn:Eg; [|discriminate]. simpl in H.
    injection H as <-. right. left. exists g.
    unfold GhostPlayer_init in Eg. destruct (head sorted); [|discriminate].
    simpl in Eg. injection Eg as <-. repeat split.
  - injection H as <-. right. now right.
Qed.

Lemma reconcile_ghost_players_footprint (s s' : State) :
  reconcile_ghost_players s = Some s' →
  ∃ es, s' = set_world (set_entities es (world s)) s.
Proof.
  unfold reconcile_ghost_players. generalize (seq 0 (next_timeline_id (world s))).
  intros l. revert s. induction l as [|tid l IH]; intros s H; simpl in H.
  - injection H as <-. exists (entities (world s)).
    rewrite set_entities_same. now destruct s.
  - destruct (ghost_player_step s tid) as [s1|] eqn:E; [|discriminate]. simpl in H.
    apply IH in H as (es & ->).
    apply ghost_player_step_footprint in E as [->|[(g & _ & _ & _ & ->)| ->]];
      now exists es.
Qed.

Lemma ghost_bullet_step_footprint (r : cmd_ref) (c : Command) (w w' : GameWorld)
    (tid : nat) :
  ghost_bullet_step r c w tid = Some w' →
  w' = w
  ∨ (∃ g, existsb (is_ghost_of r tid) (entities w) = false
          ∧ gb_timeline_id g = tid ∧ gb_cmd_ref g = Some r
          ∧ (∃ spawn p vel gt ml col,
               ghost_bullet g
               = ghost_bullet (GhostBullet_init spawn p vel gt ml col tid))
          ∧ w' = set_entities (entities w ++ [EGhostBullet g]) w)
  ∨ w' = set_entities (filter (λ e, is_ghost_of r tid e = false) (entities w)) w.
Proof.
  intros H. unfold ghost_bullet_step in H. destruct (_ && _).
  - destruct (existsb _ _) eqn:Hex; [left; now injection H as <-|].
    destruct (cmd_data c) as [p vel id ml|]; [|discriminate].
    injection H as <-. right. left.
    match goal with |- context [EGhostBullet ?g] => exists g end.
    split; [reflexivity|]. split; [reflexivity|]. split; [reflexivity|].
    split; [|reflexivity]. now eexists _, _, _, _, _, _.
  - injection H as <-. right. now right.
Qed.

Lemma ghost_bullets_fold_footprint (r : cmd_ref) (c : Command) (l : list nat)
    (w w' : GameWorld) :
  foldlM (ghost_bullet_step r c) w l = Some w' →
  ∃ es, w' = set_entities es w.
Proof.
  revert w. induction l as [|tid l IH]; intros w H; simpl in H.
  - injection H as <-. exists (entities w). now rewrite set_entities_same.
  - destruct (ghost_bullet_step r c w tid) as [w1|] eqn:E; [|discriminate]. simpl in H.
    apply IH in H as (es & ->).
    apply ghost_bullet_step_footprint in E as [->|[(g & _ & _ & _ & _ & ->)| ->]];
      now exists es.
Qed.

Lemma reconcile_ghost_bullets_footprint (s s' : State) :
  reconcile_ghost_bullets s = Some s' →
  ∃ es, s' = set_world (set_entities es (world s)) s.
Proof.
  unfold reconcile_ghost_bullets. generalize (permanent_command_log (world s)).
  intros l. revert s. induction l as [|r l IH]; intros s H; simpl in H.
  - injection H as <-. exists (entities (world s)).
    rewrite set_entities_same. now destruct s.
  - destruct (ghost_bullets_of_command s r) as [s1|] eqn:E; [|discriminate]. simpl in H.
    apply IH in H as (es & ->). unfold ghost_bullets_of_command in E.
    destruct (commands s !! r) as [c|]; [|discriminate]. simpl in E.
    destruct (is_shoot c).
    + destruct (foldlM _ _ _) as [w|] eqn:Ew; [|discriminate]. simpl in E.
      injection E as <-. apply ghost_bullets_fold_footprint in Ew as (es1 & ->).
      now exists es.
    + injection E as <-. now exists es.
Qed.

Lemma record_move_footprint (i : Input) (s s' : State) :
  record_move i s = Some s' →
  s' = s
  ∨ ∃ c path,
      is_player_move c = true ∧ is_shoot c = false
      ∧ origin_timeline c = current_timeline_id (world s)
      ∧ ghosted_timelines c = ∅
      ∧ path ≠ []
      ∧ s' = mkState
               (set_permanent_command_log
                  (permanent_command_log (world s) ++ [length (commands s)]) (world s))
               (commands s ++ [c])
               (mkPlayer (player_base (player s)) (shoot_cooldown (player s))
                  (last_shot_time (player s)) (move_speed (player s)) path)
               (rewind_charges s) (active_timelines s) (was_rewinding_last_frame s).
Proof.
  intros H. unfold record_move in H. destruct (Rlt_dec _ _).
  - match type of H with (?o ≫= _) = _ => destruct o as [curr|] end; [|discriminate].
    simpl in H. injection H as <-. right. eexists _, _.
    repeat match goal with |- _ ∧ _ => split end.
    6: reflexivity. all: try reflexivity.
    unfold add_step. intros E. now apply app_eq_nil in E as [_ E].
  - left. now injection H as <-.
Qed.

Lemma handle_event_footprint (s s' : State) (ev : Event) :
  handle_event s ev = Some s' →
  s' = s
  ∨ (∃ b, s' = set_world (set_rewinding b (world s)) s
          ∧ (b = true → (0 < rewind_charges s)%Z))
  ∨ ∃ target id ppos,
      ev = MOUSEBUTTONDOWN_left target id
      ∧ pos (player_base (player s)) = Some ppos
      ∧ Player_shoot target id s = Some s'.
Proof.
  intros H. destruct ev; simpl in H.
  - left. now injection H as <-.
  - destruct (negb _ && _) eqn:C.
    + injection H as <-. right. left. exists true. split; [reflexivity|]. intros _.
      apply andb_true_iff in C as [_ C]. now apply bool_decide_eq_true in C.
    + destruct (rewinding (world s)); injection H as <-.
      * right. left. exists false. split; [reflexivity|discriminate].
      * now left.
  - destruct (can_shoot (player s)); [|left; now injection H as <-].
    right. right. destruct (pos (player_base (player s))) as [ppos|] eqn:Hp.
    + now exists mouse_pos, random_id, ppos.
    + unfold Player_shoot in H. rewrite Hp in H. discriminate.
  - left. now injection H as <-.
Qed.

Lemma drop_obsolete_footprint (s : State) :
  ∃ es, drop_obsolete s = set_world (set_entities es (world s)) s.
Proof.
  unfold drop_obsolete. destruct (rewinding (world s)).
  - exists (entities (world s)). rewrite set_entities_same. now destruct s.
  - now eexists.
Qed.

Lemma update_entities_footprint (d : R) (s s' : State) :
  update_entities d s = Some s' →
  ∃ es p, s' = set_player p (set_world (set_entities es (world s)) s).
Proof.
  unfold update_entities. destruct (foldlM _ _ _) as [r|]; [|discriminate].
  simpl. intros [= <-]. now eexists _, _.
Qed.

(** ** A rewind always has a charge left for its branch *)

Section RewindPaid.
Variable i : Input.
Hypothesis valid : valid_input i.

Lemma rewind_paid_event (s : State) (ev : Event) (s' : State) :
    Inv s → Wf s → rewind_paid s → valid_event ev → handle_event s ev = Some s' →
    rewind_paid s'.
  Proof.
    unfold rewind_paid. intros _ _ HJ _ H.
    apply handle_event_footprint in H
      as [->|[(b & -> & Hb)|(target & id & ppos & _ & Hp & H)]]; [exact HJ| |].
    - simpl. destruct b; [intros _; now apply Hb|].
      intros [|Hw]; [discriminate|]. apply HJ. now right.
    - rewrite (Player_shoot_spec target id s ppos Hp) in H. injection H as <-. exact HJ.
  Qed.

Lemma rewind_paid_move (s s' : State) :
    Inv s → Wf s → rewind_paid s → record_move i s = Some s' → rewind_paid s'.
  Proof.
    intros _ _ HJ H.
    apply record_move_footprint in H as [->|(c & path & _ & _ & _ & _ & _ & ->)]; exact HJ.
  Qed.

Lemma rewind_paid_world (s s' : State) :
    Inv s → Wf s → rewind_paid s → GameWorld_update (dt i) s = Some s' → rewind_paid s'.
  Proof.
    intros _ _ HJ H.
    apply GameWorld_update_footprint in H as (es & cmds & now & _ & _ & ->). exact HJ.
  Qed.

Lemma rewind_paid_entities (s s' : State) :
    Inv s → Wf s → rewind_paid s → update_entities (dt i) s = Some s' → rewind_paid s'.
  Proof.
    intros _ _ HJ H. apply update_entities_footprint in H as (es & p & ->). exact HJ.
  Qed.

Lemma rewind_paid_obsolete (s : State) :
    Inv s → Wf s → rewind_paid s → rewind_paid (drop_obsolete s).
  Proof.
    intros _ _ HJ. destruct (drop_obsolete_footprint s) as [es ->]. exact HJ.
  Qed.

Lemma rewind_paid_branch (s s' : State) :
    Inv s → Wf s → rewind_paid s → branch_evaluation s = Some s' →
    rewind_paid (set_was_rewinding (rewinding (world s')) s').
  Proof.
    unfold rewind_paid. intros _ _ HJ H.
    apply (branch_evaluation_cases (λ _, True)) in H; [|trivial|now apply Forall_true].
    simpl. destruct H as [[_ ->]|[Htr (ghosts & gcs & cmds & _ & _ & Hcase)]].
    - intros [Hr|Hr]; apply HJ; now left.
    - unfold branch_trigger in Htr. apply andb_true_iff in Htr as [Htr _].
      apply andb_true_iff in Htr as [_ Hrew]. apply negb_true_iff in Hrew.
      destruct Hcase as [[_ ->]|[_ Hc]].
      + simpl. rewrite Hrew. now intros [|].
      + apply commit_branch_spec in Hc as (log & path & ->). simpl.
        rewrite Hrew. now intros [|].
  Qed.

Lemma rewind_paid_retire (s : State) :
    Inv s → Wf s → rewind_paid s → rewind_paid (retirement s).
  Proof.
    unfold rewind_paid. intros HI _ HJ. unfold retirement. simpl.
    destruct (retire_ghosts_spec (global_time (world s)) (entities (world s))
                (rewind_charges s, active_timelines s)) as (_ & Hc & _).
    { apply (inv_charges s HI). }
    simpl in Hc. intros Hr. specialize (HJ Hr). lia.
  Qed.

Lemma rewind_paid_players (s s' : State) :
    Inv s → Wf s → rewind_paid s → reconcile_ghost_players s = Some s' → rewind_paid s'.
  Proof.
    intros _ _ HJ H. apply reconcile_ghost_players_footprint in H as (es & ->). exact HJ.
  Qed.

Lemma rewind_paid_bullets (s s' : State) :
    Inv s → Wf s → rewind_paid s → reconcile_ghost_bullets s = Some s' → rewind_paid s'.
  Proof.
    intros _ _ HJ H. apply reconcile_ghost_bullets_footprint in H as (es & ->). exact HJ.
  Qed.

Lemma frame_rewind_paid (s s' : State) :
    Inv s ∧ Wf s ∧ rewind_paid s → frame i s = Some s' →
    Inv s' ∧ Wf s' ∧ rewind_paid s'.
  Proof.
    apply frame_preserves;
      [exact valid|exact rewind_paid_event|exact rewind_paid_move|exact rewind_paid_world
      |exact rewind_paid_entities|exact rewind_paid_obsolete|exact rewind_paid_branch
      |exact rewind_paid_retire|exact rewind_paid_players|exact rewind_paid_bullets].
  Qed.

Lemma updates_rewind_paid (s s' : State) :
    Inv s ∧ Wf s ∧ rewind_paid s → updates i s = Some s' →
    Inv s' ∧ Wf s' ∧ rewind_paid s'.
  Proof.
    apply updates_preserve;
      [exact valid|exact rewind_paid_event|exact rewind_paid_move|exact rewind_paid_world
      |exact rewind_paid_entities].
  Qed.
End RewindPaid.

Lemma frame_was_rewinding (i : Input) (s s' : State) :
  frame i s = Some s' → was_rewinding_last_frame s' = rewinding (world s').
Proof.
  intros H. rewrite frame_before_branch in H.
  destruct (before_branch i s) as [s1|]; [|discriminate]. simpl in H.
  destruct (branch_evaluation s1) as [s2|]; [|discriminate]. simpl in H.
  destruct (reconcile_ghost_players _) as [s3|] eqn:E3; [|discriminate]. simpl in H.
  apply reconcile_ghost_players_footprint in E3 as (es3 & ->).
  apply reconcile_ghost_bullets_footprint in H as (es & ->). reflexivity.
Qed.

Lemma reachable_rewind_paid (s : State) : reachable s → rewind_paid s.
Proof.
  apply (reachable_preserves rewind_paid).
  - intros [|]; discriminate.
  - intros i s0 s' Hi HI HW HJ H.
    now apply (frame_rewind_paid i Hi s0 s' (conj HI (conj HW HJ)) H).
Qed.


(** ** The permanent log only grows *)

Lemma origins_ok_flagged (s : State) (cmds : list Command) :
  Forall2 flagged (commands s) cmds →
  Forall (λ c, (origin_timeline c < next_timeline_id (world s))%nat) (commands s) →
  Forall (λ c, (origin_timeline c < next_timeline_id (world s))%nat) cmds.
Proof.
  intros Hf Ho. apply Forall_forall. intros c' Hc'.
  apply list_elem_of_lookup in Hc' as [j Hj].
  destruct (Forall2_lookup_r _ _ _ _ _ Hf Hj) as (c & Hc & [b ->]).
  rewrite Forall_lookup in Ho. exact (Ho j c Hc).
Qed.

Section OriginsOk.
Variable i : Input.
Hypothesis valid : valid_input i.

Lemma origins_ok_event (s : State) (ev : Event) (s' : State) :
    Inv s → Wf s → origins_ok s → valid_event ev → handle_event s ev = Some s' →
    origins_ok s'.
  Proof.
    unfold origins_ok. intros _ _ [Hc Ho] _ H.
    apply handle_event_footprint in H
      as [->|[(b & -> & Hb)|(target & id & ppos & _ & Hp & H)]]; [now split|now split|].
    rewrite (Player_shoot_spec target id s ppos Hp) in H. injection H as <-. simpl.
    split; [exact Hc|]. apply Forall_app. split; [exact Ho|].
    constructor; [exact Hc|constructor].
  Qed.

Lemma origins_ok_move (s s' : State) :
    Inv s → Wf s → origins_ok s → record_move i s = Some s' → origins_ok s'.
  Proof.
    unfold origins_ok. intros _ _ [Hc Ho] H.
    apply record_move_footprint in H as [->|(c & path & _ & _ & Hoc & _ & _ & ->)];
      [now split|].
    simpl. split; [exact Hc|]. apply Forall_app. split; [exact Ho|].
    constructor; [now rewrite Hoc|constructor].
  Qed.

Lemma origins_ok_world (s s' : State) :
    Inv s → Wf s → origins_ok s → GameWorld_update (dt i) s = Some s' → origins_ok s'.
  Proof.
    unfold origins_ok. intros _ _ [Hc Ho] H.
    apply GameWorld_update_footprint in H as (es & cmds & now & Hf & _ & ->). simpl.
    split; [exact Hc|]. now apply origins_ok_flagged.
  Qed.

Lemma origins_ok_entities (s s' : State) :
    Inv s → Wf s → origins_ok s → update_entities (dt i) s = Some s' → origins_ok s'.
  Proof.
    intros _ _ HJ H. apply update_entities_footprint in H as (es & p & ->). exact HJ.
  Qed.

Lemma origins_ok_obsolete (s : State) :
    Inv s → Wf s → origins_ok s → origins_ok (drop_obsolete s).
  Proof.
    intros _ _ HJ. destruct (drop_obsolete_footprint s) as [es ->]. exact HJ.
  Qed.

Lemma origins_ok_branch (s s' : State) :
    Inv s → Wf s → origins_ok s → branch_evaluation s = Some s' →
    origins_ok (set_was_rewinding (rewinding (world s')) s').
  Proof.
    unfold origins_ok. intros _ _ [Hc Ho] H.
    apply (branch_evaluation_cases
             (λ c, (origin_timeline c < next_timeline_id (world s))%nat)) in H;
      [|trivial|exact Ho].
    simpl. destruct H as [[_ ->]|[Htr (ghosts & gcs & cmds & _ & Hcmds & Hcase)]];
      [now split|].
    destruct Hcase as [[_ ->]|[_ H]]; [now split|].
    apply commit_branch_spec in H as (log & path & ->). simpl.
    split; [lia|]. eapply Forall_impl; [exact Hcmds|]. simpl. intros c Hlt. lia.
  Qed.

Lemma origins_ok_retire (s : State) :
    Inv s → Wf s → origins_ok s → origins_ok (retirement s).
  Proof. intros _ _ HJ. exact HJ. Qed.

Lemma origins_ok_players (s s' : State) :
    Inv s → Wf s → origins_ok s → reconcile_ghost_players s = Some s' → origins_ok s'.
  Proof.
    intros _ _ HJ H. apply reconcile_ghost_players_footprint in H as (es & ->). exact HJ.
  Qed.

Lemma origins_ok_bullets (s s' : State) :
    Inv s → Wf s → origins_ok s → reconcile_ghost_bullets s = Some s' → origins_ok s'.
  Proof.
    intros _ _ HJ H. apply reconcile_ghost_bullets_footprint in H as (es & ->). exact HJ.
  Qed.

Lemma frame_origins_ok (s s' : State) :
    Inv s ∧ Wf s ∧ origins_ok s → frame i s = Some s' →
    Inv s' ∧ Wf s' ∧ origins_ok s'.
  Proof.
    apply frame_preserves;
      [exact valid|exact origins_ok_event|exact origins_ok_move|exact origins_ok_world
      |exact origins_ok_entities|exact origins_ok_obsolete|exact origins_ok_branch
      |exact origins_ok_retire|exact origins_ok_players|exact origins_ok_bullets].
  Qed.

Lemma updates_origins_ok (s s' : State) :
    Inv s ∧ Wf s ∧ origins_ok s → updates i s = Some s' →
    Inv s' ∧ Wf s' ∧ origins_ok s'.
  Proof.
    apply updates_preserve;
      [exact valid|exact origins_ok_event|exact origins_ok_move|exact origins_ok_world
      |exact origins_ok_entities].
  Qed.
End OriginsOk.

Lemma reachable_origins_ok (s : State) : reachable s → origins_ok s.
Proof.
  apply (reachable_preserves origins_ok).
  - split; [simpl; lia|constructor].
  - intros i s0 s' Hi HI HW HJ H.
    now apply (frame_origins_ok i Hi s0 s' (conj HI (conj HW HJ)) H).
Qed.

Lemma filter_refs_all (keep : Command → bool) (h : list Command) (l l' : list cmd_ref) :
  Forall (λ c, keep c = true) h → filter_refs keep h l = Some l' → l' = l.
Proof.
  intros Hk. revert l'. induction l as [|r l IH]; intros l' H; simpl in H.
  - now injection H as <-.
  - destruct (h !! r) as [c|] eqn:Hc; [|discriminate]. simpl in H.
    destruct (filter_refs keep h l) as [rest|]; [|discriminate]. simpl in H.
    rewrite Forall_lookup in Hk. rewrite (Hk r c Hc) in H.
    injection H as <-. now rewrite (IH rest eq_refl).
Qed.

Lemma handle_events_log (evs : list Event) (s s' : State) :
  foldlM handle_event s evs = Some s' →
  permanent_command_log (world s) `prefix_of` permanent_command_log (world s').
Proof.
  revert s. induction evs as [|ev evs IH]; intros s H; simpl in H.
  - now injection H as <-.
  - destruct (handle_event s ev) as [s1|] eqn:E; [|discriminate]. simpl in H.
    etrans; [|exact (IH s1 H)].
    apply handle_event_footprint in E
      as [->|[(b & -> & Hb)|(target & id & ppos & _ & Hp & E)]]; [reflexivity..|].
    rewrite (Player_shoot_spec target id s ppos Hp) in E. injection E as <-. simpl.
    now apply prefix_app_r.
Qed.

Lemma updates_log (i : Input) (s s' : State) :
  updates i s = Some s' →
  permanent_command_log (world s) `prefix_of` permanent_command_log (world s').
Proof.
  intros H. unfold updates in H.
  destruct (foldlM handle_event s (events i)) as [sa|] eqn:Ea; [|discriminate].
  simpl in H. destruct (record_move i sa) as [sb|] eqn:Eb; [|discriminate].
  simpl in H. destruct (GameWorld_update (dt i) sb) as [sc|] eqn:Ec; [|discriminate].
  simpl in H. apply handle_events_log in Ea.
  apply GameWorld_update_footprint in Ec as (es & cmds & now & _ & _ & ->).
  apply update_entities_footprint in H as (es' & p & ->). simpl.
  etrans; [exact Ea|].
  apply record_move_footprint in Eb as [->|(c & path & _ & _ & _ & _ & _ & ->)];
    [reflexivity|].
  simpl. now apply prefix_app_r.
Qed.

Lemma branch_evaluation_log (s s' : State) :
  origins_ok s → branch_evaluation s = Some s' →
  permanent_command_log (world s') = permanent_command_log (world s).
Proof.
  intros [Hc Ho] H. pose proof H as H0.
  apply (branch_evaluation_cases
           (λ c, (origin_timeline c < next_timeline_id (world s))%nat)) in H;
    [|trivial|exact Ho].
  destruct H as [[_ ->]|[Htr (ghosts & gcs & cmds & _ & Hcmds & Hcase)]];
    [reflexivity|].
  destruct Hcase as [[_ ->]|[_ H]]; [reflexivity|].
  unfold commit_branch in H.
  destruct (filter_refs _ _ _) as [log|] eqn:El; [|discriminate]. simpl in H.
  match type of H with (?o ≫= _) = _ => destruct o as [path|] end; [|discriminate].
  simpl in H. injection H as <-. simpl. simpl in El.
  apply filter_refs_all in El; [exact El|].
  eapply Forall_impl; [exact Hcmds|]. simpl. intros c Hlt.
  rewrite (bool_decide_eq_false_2 (origin_timeline c = _)) by lia.
  now rewrite andb_false_r.
Qed.


(** ** How the entity list changes in a pass *)

Lemma update_entity_updated (d g : R) (rew : bool) (done done' : list Entity)
    (p p' : Player) (e : Entity) :
  update_entity d g rew (done, p) e = Some (done', p') →
  ∃ e', done' = done ++ [e'] ∧ updated_from e e'.
Proof.
  intros H. destruct e as [|t|b|gb|gp]; simpl in H.
  - destruct (Player_update d rew p); [|discriminate]. simpl in H.
    injection H as <- <-. now exists EPlayer.
  - destruct (Timer_update d rew t) as [t'|] eqn:E; [|discriminate]. simpl in H.
    injection H as <- <-. exists (ETimer t'). split; [reflexivity|].
    unfold Timer_update, TimeEntity_update in E.
    destruct (pos (timer_base t)) eqn:Ep; [|discriminate]. simpl in E.
    injection E as <-. simpl. reflexivity.
  - destruct (Bullet_update d rew b) as [b'|] eqn:E; [|discriminate]. simpl in H.
    injection H as <- <-. exists (EBullet b'). split; [reflexivity|].
    unfold Bullet_update in E.
    destruct (TimeEntity_update d rew (bullet_base b)); [|discriminate]. simpl in E.
    injection E as <-. now simpl.
  - injection H as <- <-. eexists. split; [reflexivity|].
    unfold GhostBullet_update. destruct (Rlt_dec _ _); now simpl.
  - injection H as <- <-. eexists. split; [reflexivity|]. now simpl.
Qed.

Lemma update_entities_fold_updated (d g : R) (rew : bool) (es done done' : list Entity)
    (p p' : Player) :
  foldlM (update_entity d g rew) (done, p) es = Some (done', p') →
  ∃ es', done' = done ++ es' ∧ Forall2 updated_from es es'.
Proof.
  revert done p. induction es as [|e es IH]; intros done p H; cbn [foldlM] in H.
  - injection H as <- <-. exists []. rewrite app_nil_r.
    split; [reflexivity|constructor].
  - destruct (update_entity d g rew (done, p) e) as [[d1 p1]|] eqn:E; [|discriminate].
    simpl in H. apply update_entity_updated in E as (e' & -> & He).
    apply IH in H as (es' & -> & Hes). exists (e' :: es').
    rewrite <- app_assoc. split; [reflexivity|]. now constructor.
Qed.

Lemma update_entities_updated (d : R) (s s' : State) :
  update_entities d s = Some s' →
  Forall2 updated_from (entities (world s)) (entities (world s')).
Proof.
  unfold update_entities. destruct (foldlM _ _ _) as [[done p]|] eqn:E; [|discriminate].
  simpl. intros [= <-]. simpl.
  apply update_entities_fold_updated in E as (es' & -> & H). exact H.
Qed.

Lemma prune_future_player_moves_entities (s s' : State) (tp : R) (new prev : nat)
    (created : bool) :
  prune_future_player_moves s tp new prev = Some (s', created) →
  entities (world s') = entities (world s)
  ∨ ∃ g, gp_timeline_id g = new ∧ gp_movement g ≠ []
         ∧ entities (world s') = entities (world s) ++ [EGhostPlayer g].
Proof.
  unfold prune_future_player_moves. intros H.
  destruct (foldlM _ _ _) as [[s1 path]|] eqn:E; [|discriminate]. simpl in H.
  apply player_move_fold_marks in E as (W & _). simpl in W.
  destruct path as [|step path].
  - injection H as <- <-. left. now rewrite W.
  - destruct (GhostPlayer_init _ _ _) as [g|] eqn:Eg; [|discriminate]. simpl in H.
    injection H as <- <-. right. exists g. simpl. rewrite W.
    unfold GhostPlayer_init in Eg. simpl in Eg. injection Eg as <-. now simpl.
Qed.

Lemma branch_evaluation_entities (s s' : State) :
  branch_evaluation s = Some s' →
  ∃ (ghosts : list GhostBullet) (gps : list Entity),
    entities (world s') = (entities (world s) ++ (EGhostBullet <$> ghosts)) ++ gps
    ∧ (gps = []
       ∨ ∃ g, gps = [EGhostPlayer g] ∧ gp_timeline_id g = next_timeline_id (world s)
              ∧ gp_movement g ≠ []).
Proof.
  intros H. unfold branch_evaluation in H.
  destruct (branch_trigger s).
  2:{ injection H as <-. exists [], []. simpl. rewrite !app_nil_r. now split; [|left]. }
  destruct (prune_future_bullet_spawns _ _ _ _) as [[s1 b1]|] eqn:E1; [|discriminate].
  simpl in H.
  destruct (prune_future_player_moves _ _ _ _) as [[s2 b2]|] eqn:E2; [|discriminate].
  simpl in H. unfold prune_future_bullet_spawns in E1.
  apply bullet_spawn_fold_ghosts in E1 as (ghosts & He1 & _). simpl in He1.
  apply prune_future_player_moves_entities in E2.
  assert (He : ∃ gps, entities (world s2)
                      = (entities (world s) ++ (EGhostBullet <$> ghosts)) ++ gps
                      ∧ (gps = []
                         ∨ ∃ g, gps = [EGhostPlayer g]
                                ∧ gp_timeline_id g = next_timeline_id (world s)
                                ∧ gp_movement g ≠ [])).
  { destruct E2 as [E2|(g & Hg & Hm & E2)]; rewrite E2, He1.
    - exists []. rewrite app_nil_r. now split; [|left].
    - exists [EGhostPlayer g]. split; [reflexivity|]. right. now exists g. }
  destruct He as (gps & He & Hgps). exists ghosts, gps. split; [|exact Hgps].
  destruct (b1 || b2).
  - apply commit_branch_spec in H as (log & path & ->). exact He.
  - injection H as <-. exact He.
Qed.

(** A property of entity lists that every way the pass changes the list
    keeps is kept by the pass. *)
Section EntityClosure.
Variable Φ : list Entity → Prop.
Hypothesis Φ_bullet : ∀ es p v id,
    Φ es → Φ (es ++ [EBullet (Bullet_init p v id bullet_default_lifetime)]).
Hypothesis Φ_remove : ∀ es id, Φ es → Φ (remove_first (has_bullet_id id) es).
Hypothesis Φ_update : ∀ es es', Forall2 updated_from es es' → Φ es → Φ es'.
Hypothesis Φ_filter : ∀ (P : Entity → Prop) (dec : ∀ e, Decision (P e)) es,
    (∀ t, P (ETimer t)) → Φ es → Φ (filter P es).
Hypothesis Φ_ghost_bullet : ∀ es g, Φ es → Φ (es ++ [EGhostBullet g]).
Hypothesis Φ_ghost_player : ∀ es g,
    Φ es → Forall (λ e, is_ghost_player_of (gp_timeline_id g) e = false) es →
    Φ (es ++ [EGhostPlayer g]).

Lemma Φ_live_change (es es' : list Entity) : live_change es es' → Φ es → Φ es'.
  Proof.
    intros [->|[(p & v & id & ->)|(id & ->)]] H; [exact H|now apply Φ_bullet|].
    now apply Φ_remove.
  Qed.

Lemma Φ_live_changes (es es' : list Entity) : rtc live_change es es' → Φ es → Φ es'.
  Proof.
    induction 1 as [|es es1 es' H1 _ IH]; [trivial|].
    intros H. apply IH. now apply Φ_live_change with es.
  Qed.

Lemma Φ_ghost_bullets (es : list Entity) (ghosts : list GhostBullet) :
    Φ es → Φ (es ++ (EGhostBullet <$> ghosts)).
  Proof.
    revert es. induction ghosts as [|g ghosts IH]; intros es H.
    - simpl. now rewrite app_nil_r.
    - rewrite fmap_cons. replace (es ++ EGhostBullet g :: (EGhostBullet <$> ghosts))
        with ((es ++ [EGhostBullet g]) ++ (EGhostBullet <$> ghosts))
        by now rewrite <- app_assoc.
      apply IH. now apply Φ_ghost_bullet.
  Qed.

Variable i : Input.
Hypothesis valid : valid_input i.

Lemma closed_event (s : State) (ev : Event) (s' : State) :
    Inv s → Wf s → Φ (entities (world s)) → valid_event ev →
    handle_event s ev = Some s' → Φ (entities (world s')).
  Proof.
    intros _ _ HJ _ H.
    apply handle_event_footprint in H
      as [->|[(b & -> & Hb)|(target & id & ppos & _ & Hp & H)]]; [exact HJ..|].
    rewrite (Player_shoot_spec target id s ppos Hp) in H. injection H as <-. simpl.
    now apply Φ_bullet.
  Qed.

Lemma closed_move (s s' : State) :
    Inv s → Wf s → Φ (entities (world s)) → record_move i s = Some s' →
    Φ (entities (world s')).
  Proof.
    intros _ _ HJ H.
    apply record_move_footprint in H as [->|(c & path & _ & _ & _ & _ & _ & ->)]; exact HJ.
  Qed.

Lemma closed_world (s s' : State) :
    Inv s → Wf s → Φ (entities (world s)) → GameWorld_update (dt i) s = Some s' →
    Φ (entities (world s')).
  Proof.
    intros _ _ HJ H.
    apply GameWorld_update_footprint in H as (es & cmds & now & _ & Hl & ->). simpl.
    now apply Φ_live_changes with (entities (world s)).
  Qed.

Lemma closed_entities (s s' : State) :
    Inv s → Wf s → Φ (entities (world s)) → update_entities (dt i) s = Some s' →
    Φ (entities (world s')).
  Proof.
    intros _ _ HJ H. apply update_entities_updated in H.
    now apply Φ_update with (entities (world s)).
  Qed.

Lemma closed_obsolete (s : State) :
    Inv s → Wf s → Φ (entities (world s)) → Φ (entities (world (drop_obsolete s))).
  Proof.
    intros _ _ HJ. unfold drop_obsolete. destruct (rewinding (world s)); [exact HJ|].
    simpl. apply Φ_filter; [now intros t|assumption].
  Qed.

Lemma closed_branch (s s' : State) :
    Inv s → Wf s → Φ (entities (world s)) → branch_evaluation s = Some s' →
    Φ (entities (world (set_was_rewinding (rewinding (world s')) s'))).
  Proof.
    intros HI _ HJ H. simpl.
    apply branch_evaluation_entities in H as (ghosts & gps & -> & Hgps).
    pose proof (Φ_ghost_bullets _ ghosts HJ) as HJ1.
    destruct Hgps as [->|(g & -> & Hg & _)]; [now rewrite app_nil_r|].
    apply Φ_ghost_player; [exact HJ1|]. rewrite Hg. apply Forall_app. split.
    - eapply Forall_impl; [exact (inv_entities s HI)|]. intros e He.
      destruct e as [|t|b|gb|gp]; simpl; try reflexivity.
      destruct He as [_ He]. apply bool_decide_eq_false. lia.
    - apply Forall_fmap. now apply Forall_true.
  Qed.

Lemma closed_retire (s : State) :
    Inv s → Wf s → Φ (entities (world s)) → Φ (entities (world (retirement s))).
  Proof.
    intros HI _ HJ. unfold retirement. simpl.
    destruct (retire_ghosts_spec (global_time (world s)) (entities (world s))
                (rewind_charges s, active_timelines s)) as (-> & _).
    { apply (inv_charges s HI). }
    apply Φ_filter; [now intros t|assumption].
  Qed.

Lemma existsb_false_Forall {A} (f : A → bool) (l : list A) :
    existsb f l = false → Forall (λ x, f x = false) l.
  Proof.
    induction l as [|x l IH]; simpl; [constructor|].
    intros H. apply orb_false_iff in H as [Hx Hl]. constructor; [exact Hx|now apply IH].
  Qed.

Lemma closed_players (s s' : State) :
    Inv s → Wf s → Φ (entities (world s)) → reconcile_ghost_players s = Some s' →
    Φ (entities (world s')).
  Proof.
    intros _ _ HJ H. unfold reconcile_ghost_players in H.
    apply (foldlM_inv (λ s, Φ (entities (world s)))) in H; [exact H| |exact HJ].
    intros b tid b' Hb _ Hstep.
    apply ghost_player_step_footprint in Hstep
      as [->|[(g & Hex & Hg & _ & ->)| ->]]; [exact Hb| |].
    - simpl. apply Φ_ghost_player; [exact Hb|]. rewrite Hg.
      now apply existsb_false_Forall.
    - simpl. apply Φ_filter; [now intros t|assumption].
  Qed.

Lemma closed_bullets (s s' : State) :
    Inv s → Wf s → Φ (entities (world s)) → reconcile_ghost_bullets s = Some s' →
    Φ (entities (world s')).
  Proof.
    intros _ _ HJ H. unfold reconcile_ghost_bullets in H.
    apply (foldlM_inv (λ s, Φ (entities (world s)))) in H; [exact H| |exact HJ].
    intros b r b' Hb _ Hstep. unfold ghost_bullets_of_command in Hstep.
    destruct (commands b !! r) as [c|]; [|discriminate]. simpl in Hstep.
    destruct (is_shoot c); [|now injection Hstep as <-].
    match type of Hstep with (?o ≫= _) = _ => destruct o as [w|] eqn:Ew end;
      [|discriminate].
    simpl in Hstep. injection Hstep as <-. simpl.
    apply (foldlM_inv (λ w, Φ (entities w))) in Ew; [exact Ew| |exact Hb].
    intros w0 tid w1 Hw0 _ Hs.
    apply ghost_bullet_step_footprint in Hs
      as [->|[(g & _ & _ & _ & _ & ->)| ->]]; [exact Hw0| |].
    - simpl. now apply Φ_ghost_bullet.
    - simpl. apply Φ_filter; [now intros t|assumption].
  Qed.

Lemma frame_closed (s s' : State) :
    Inv s ∧ Wf s ∧ Φ (entities (world s)) → frame i s = Some s' →
    Inv s' ∧ Wf s' ∧ Φ (entities (world s')).
  Proof.
    apply (frame_preserves (λ s, Φ (entities (world s))));
      [exact valid|exact closed_event|exact closed_move|exact closed_world
      |exact closed_entities|exact closed_obsolete|exact closed_branch
      |exact closed_retire|exact closed_players|exact closed_bullets].
  Qed.

Lemma updates_closed (s s' : State) :
    Inv s ∧ Wf s ∧ Φ (entities (world s)) → updates i s = Some s' →
    Inv s' ∧ Wf s' ∧ Φ (entities (world s')).
  Proof.
    apply (updates_preserve (λ s, Φ (entities (world s))));
      [exact valid|exact closed_event|exact closed_move|exact closed_world
      |exact closed_entities].
  Qed.
End EntityClosure.

(** ** One ghost player per timeline *)

Lemma ghost_player_count_app (tid : nat) (es es' : list Entity) :
  ghost_player_count tid (es ++ es')
  = (ghost_player_count tid es + ghost_player_count tid es')%nat.
Proof. unfold ghost_player_count. now rewrite filter_app, length_app. Qed.

Lemma ghost_player_count_sublist (tid : nat) (es es' : list Entity) :
  es' `sublist_of` es → (ghost_player_count tid es' ≤ ghost_player_count tid es)%nat.
Proof.
  unfold ghost_player_count. induction 1 as [|e l1 l2 _ IH|e l1 l2 _ IH].
  - reflexivity.
  - destruct (decide (is_ghost_player_of tid e = true)) as [He|He].
    + rewrite !filter_cons_True by assumption. simpl. lia.
    + now rewrite !filter_cons_False by assumption.
  - destruct (decide (is_ghost_player_of tid e = true)) as [He|He].
    + rewrite filter_cons_True by assumption. simpl. lia.
    + now rewrite filter_cons_False by assumption.
Qed.

Lemma remove_first_sublist {A} (P : A → bool) (l : list A) :
  remove_first P l `sublist_of` l.
Proof.
  induction l as [|x l IH]; simpl; [reflexivity|].
  destruct (P x); [now apply sublist_cons|now apply sublist_skip].
Qed.

Lemma ghost_player_count_updated (tid : nat) (es es' : list Entity) :
  Forall2 updated_from es es' → ghost_player_count tid es' = ghost_player_count tid es.
Proof.
  unfold ghost_player_count. induction 1 as [|e e' es es' He _ IH]; [reflexivity|].
  assert (Hk : is_ghost_player_of tid e' = is_ghost_player_of tid e).
  { destruct e, e'; simpl in He; try contradiction; try reflexivity.
    simpl. now rewrite He. }
  destruct (decide (is_ghost_player_of tid e = true)) as [Ht|Ht].
  - rewrite !filter_cons_True by congruence. simpl. now rewrite IH.
  - rewrite !filter_cons_False by congruence. exact IH.
Qed.

Lemma ghost_player_count_none (tid : nat) (es : list Entity) :
  Forall (λ e, is_ghost_player_of tid e = false) es → ghost_player_count tid es = 0%nat.
Proof.
  unfold ghost_player_count. induction 1 as [|e es He _ IH]; [reflexivity|].
  rewrite filter_cons_False by congruence. exact IH.
Qed.

Lemma one_ghost_player_closed (i : Input) (s s' : State) :
  valid_input i →
  Inv s ∧ Wf s ∧ one_ghost_player (entities (world s)) → frame i s = Some s' →
  Inv s' ∧ Wf s' ∧ one_ghost_player (entities (world s')).
Proof.
  intros Hi. apply (frame_closed one_ghost_player); [..|exact Hi]; unfold one_ghost_player.
  - intros es p v id H tid. rewrite ghost_player_count_app.
    specialize (H tid). simpl. unfold ghost_player_count at 2. simpl. lia.
  - intros es id H tid. etrans; [|exact (H tid)].
    apply ghost_player_count_sublist, remove_first_sublist.
  - intros es es' Hu H tid. rewrite (ghost_player_count_updated tid es es' Hu). apply H.
  - intros P dec es _ H tid. etrans; [|exact (H tid)].
    apply ghost_player_count_sublist, sublist_filter.
  - intros es g H tid. rewrite ghost_player_count_app.
    specialize (H tid). unfold ghost_player_count at 2. simpl. lia.
  - intros es g H Hnone tid. rewrite ghost_player_count_app.
    unfold ghost_player_count at 2.
    destruct (decide (gp_timeline_id g = tid)) as [<-|Hne].
    + rewrite (ghost_player_count_none _ _ Hnone).
      rewrite filter_cons_True by (simpl; now apply bool_decide_eq_true).
      simpl. lia.
    + rewrite filter_cons_False
        by (simpl; rewrite bool_decide_eq_false_2 by assumption; discriminate).
      specialize (H tid). simpl. lia.
Qed.

Lemma reachable_one_ghost_player (s : State) :
  reachable s → one_ghost_player (entities (world s)).
Proof.
  apply (reachable_preserves (λ s, one_ghost_player (entities (world s)))).
  - intros tid. unfold ghost_player_count. simpl. lia.
  - intros i s0 s' Hi HI HW HJ H.
    now apply (one_ghost_player_closed i s0 s' Hi (conj HI (conj HW HJ)) H).
Qed.

Lemma filter_at_most_one {A} (P : A → Prop) `{∀ x, Decision (P x)} (l : list A)
    (i j : nat) (x y : A) :
  (length (filter P l) ≤ 1)%nat → l !! i = Some x → l !! j = Some y → P x → P y → i = j.
Proof.
  revert i j. induction l as [|z l IH]; intros i j Hlen Hi Hj Hx Hy; [discriminate|].
  destruct (decide (P z)) as [Hz|Hz].
  - rewrite filter_cons_True in Hlen by assumption. simpl in Hlen.
    assert (Hnil : filter P l = []) by (apply length_zero_iff_nil; lia).
    assert (Hno : ∀ k w, l !! k = Some w → ¬ P w).
    { intros k w Hk Hw. assert (Hin : w ∈ filter P l).
      { apply list_elem_of_filter. split; [exact Hw|]. now apply list_elem_of_lookup_2 with k. }
      rewrite Hnil in Hin. now apply elem_of_nil in Hin. }
    destruct i as [|i], j as [|j]; try reflexivity; simpl in Hi, Hj.
    + exfalso. exact (Hno j y Hj Hy).
    + exfalso. exact (Hno i x Hi Hx).
    + exfalso. exact (Hno i x Hi Hx).
  - rewrite filter_cons_False in Hlen by assumption.
    destruct i as [|i]; simpl in Hi; [injection Hi as ->; contradiction|].
    destruct j as [|j]; simpl in Hj; [injection Hj as ->; contradiction|].
    f_equal. now apply IH.
Qed.


(** ** What can raise in a pass *)

Lemma get_pos_is_Some (path : Path) (q : R) : path ≠ [] → is_Some (get_pos path q).
Proof. destruct path; [contradiction|]. intros _. now eexists. Qed.

Lemma fresh_bullet_updatable (p v : Vec) (id : Z) :
  updatable (EBullet (Bullet_init p v id bullet_default_lifetime)).
Proof.
  split; [now eexists|]. intros E.
  pose proof (Bullet_init_head p v id bullet_default_lifetime) as H.
  rewrite E in H. unfold bullet_default_lifetime in H. simpl in H.
  assert (0 < 14 / 10) by lra. now specialize (H ltac:(assumption)).
Qed.

Lemma updated_updatable (e e' : Entity) : updated_from e e' → updatable e → updatable e'.
Proof.
  destruct e as [|t|b|gb|gp], e' as [|t'|b'|gb'|gp']; simpl; try contradiction; try done.
  - intros ->. done.
  - intros (Hm & _ & Hp) [_ Hne]. rewrite Hm, Hp. split; [|exact Hne].
    now apply get_pos_is_Some.
Qed.

Lemma updatable_closed (i : Input) (s s' : State) :
  valid_input i →
  Inv s ∧ Wf s ∧ Forall updatable (entities (world s)) → updates i s = Some s' →
  Inv s' ∧ Wf s' ∧ Forall updatable (entities (world s')).
Proof.
  intros Hi. apply (updates_closed (Forall updatable)); [..|exact Hi].
  - intros es p v id H. apply Forall_app. split; [exact H|].
    constructor; [apply fresh_bullet_updatable|constructor].
  - intros es id H. now apply Forall_remove_first.
  - intros es es' Hu H. induction Hu as [|e e' es es' He _ IH]; [constructor|].
    apply Forall_cons in H as [H1 H2]. constructor; [|now apply IH].
    now apply updated_updatable with e.
Qed.

Lemma frame_updatable (i : Input) (s s' : State) :
  valid_input i →
  Inv s ∧ Wf s ∧ Forall updatable (entities (world s)) → frame i s = Some s' →
  Inv s' ∧ Wf s' ∧ Forall updatable (entities (world s')).
Proof.
  intros Hi. apply (frame_closed (Forall updatable)); [..|exact Hi].
  - intros es p v id H. apply Forall_app. split; [exact H|].
    constructor; [apply fresh_bullet_updatable|constructor].
  - intros es id H. now apply Forall_remove_first.
  - intros es es' Hu H. induction Hu as [|e e' es es' He _ IH]; [constructor|].
    apply Forall_cons in H as [H1 H2]. constructor; [|now apply IH].
    now apply updated_updatable with e.
  - intros P dec es _ H. now apply Forall_filter_keep.
  - intros es g H. apply Forall_app. split; [exact H|]. now repeat constructor.
  - intros es g H _. apply Forall_app. split; [exact H|]. now repeat constructor.
Qed.

Lemma reachable_updatable (s : State) :
  reachable s → Forall updatable (entities (world s)).
Proof.
  apply (reachable_preserves (λ s, Forall updatable (entities (world s)))).
  - simpl. constructor; [exact I|]. unfold timer_grid. simpl.
    repeat (constructor; [now eexists|]). constructor.
  - intros i s0 s' Hi HI HW HJ H.
    now apply (frame_updatable i s0 s' Hi (conj HI (conj HW HJ)) H).
Qed.

Lemma runnable_flagged (c : Command) (b : bool) : runnable c → runnable (set_executed b c).
Proof. intros H. exact H. Qed.

Lemma runnable_marked (new : nat) (c : Command) : runnable c → runnable (add_ghosted new c).
Proof. intros H. exact H. Qed.

Section GlobalsOk.
Variable i : Input.
Hypothesis valid : valid_input i.

Lemma globals_ok_event (s : State) (ev : Event) (s' : State) :
    Inv s → Wf s → globals_ok s → valid_event ev → handle_event s ev = Some s' →
    globals_ok s'.
  Proof.
    unfold globals_ok. intros _ _ HJ _ H.
    apply handle_event_footprint in H
      as [->|[(b & -> & Hb)|(target & id & ppos & _ & Hp & H)]]; [exact HJ..|].
    rewrite (Player_shoot_spec target id s ppos Hp) in H. injection H as <-. simpl.
    apply Forall_app. split.
    - eapply Forall_impl; [exact HJ|]. simpl. intros r (c & Hc & Hr).
      exists c. split; [|exact Hr]. rewrite lookup_app_l; [exact Hc|].
      now apply lookup_lt_Some in Hc.
    - constructor; [|constructor]. eexists. split.
      + rewrite lookup_app_r, Nat.sub_diag by lia. reflexivity.
      + split; [reflexivity|]. split; [reflexivity|]. now eexists _, _, _, _.
  Qed.

Lemma globals_ok_move (s s' : State) :
    Inv s → Wf s → globals_ok s → record_move i s = Some s' → globals_ok s'.
  Proof.
    unfold globals_ok. intros _ _ HJ H.
    apply record_move_footprint in H as [->|(c & path & _ & _ & _ & _ & _ & ->)];
      [exact HJ|].
    simpl. eapply Forall_impl; [exact HJ|]. simpl. intros r (c0 & Hc & Hr).
    exists c0. split; [|exact Hr]. rewrite lookup_app_l; [exact Hc|].
    now apply lookup_lt_Some in Hc.
  Qed.

Lemma globals_ok_world (s s' : State) :
    Inv s → Wf s → globals_ok s → GameWorld_update (dt i) s = Some s' → globals_ok s'.
  Proof.
    unfold globals_ok. intros _ _ HJ H.
    apply GameWorld_update_footprint in H as (es & cmds & now & Hf & _ & ->). simpl.
    eapply Forall_impl; [exact HJ|]. simpl. intros r (c & Hc & Hr).
    destruct (Forall2_lookup_l _ _ _ _ _ Hf Hc) as (c' & Hc' & [b ->]).
    exists (set_executed b c). split; [exact Hc'|exact Hr].
  Qed.

Lemma globals_ok_entities (s s' : State) :
    Inv s → Wf s → globals_ok s → update_entities (dt i) s = Some s' → globals_ok s'.
  Proof.
    intros _ _ HJ H. apply update_entities_footprint in H as (es & p & ->). exact HJ.
  Qed.

Lemma updates_globals_ok (s s' : State) :
    Inv s ∧ Wf s ∧ globals_ok s → updates i s = Some s' →
    Inv s' ∧ Wf s' ∧ globals_ok s'.
  Proof.
    apply updates_preserve;
      [exact valid|exact globals_ok_event|exact globals_ok_move|exact globals_ok_world
      |exact globals_ok_entities].
  Qed.

Lemma globals_ok_obsolete (s : State) :
    Inv s → Wf s → globals_ok s → globals_ok (drop_obsolete s).
  Proof.
    intros _ _ HJ. destruct (drop_obsolete_footprint s) as [es ->]. exact HJ.
  Qed.

Lemma globals_ok_branch (s s' : State) :
    Inv s → Wf s → globals_ok s → branch_evaluation s = Some s' →
    globals_ok (set_was_rewinding (rewinding (world s')) s').
  Proof.
    intros _ [Hok _] HJ H. unfold globals_ok in *. simpl.
    unfold branch_evaluation in H. destruct (branch_trigger s); [|now injection H as <-].
    destruct (prune_future_bullet_spawns _ _ _ _) as [[s1 b1]|] eqn:E1; [|discriminate].
    simpl in H.
    destruct (prune_future_player_moves _ _ _ _) as [[s2 b2]|] eqn:E2; [|discriminate].
    simpl in H.
    pose proof (prune_future_bullet_spawns_keeps _ _ _ _ _ Hok E1) as K1.
    pose proof (prune_future_player_moves_keeps _ _ _ _ _ _ Hok K1 E2) as K2.
    simpl in K1, K2. destruct K2 as (Hlen & _ & _ & _ & Hgc).
    unfold prune_future_bullet_spawns in E1.
    apply bullet_spawn_fold_marks in E1 as (_ & N1 & _ & M1). simpl in N1, M1.
    unfold prune_future_player_moves in E2.
    destruct (foldlM _ _ _) as [[s2' path]|] eqn:E2'; [|discriminate]. simpl in E2.
    apply player_move_fold_marks in E2' as (_ & N2 & _ & M2). simpl in N2, M2.
    assert (Hc2 : commands s2 = commands s2').
    { destruct path; [now injection E2 as <- <-|].
      destruct (GhostPlayer_init _ _ _); [|discriminate]. simpl in E2.
      now injection E2 as <- <-. }
    assert (HG : Forall (λ r : cmd_ref, ∃ c, commands s2 !! r = Some c ∧ runnable c)
                   (global_commands (world s2))).
    { apply Hgc. eapply Forall_impl; [exact HJ|]. simpl. intros r (c & Hc & Hr).
      assert (Hlt : (r < length (commands s2))%nat).
      { rewrite Hlen. now apply lookup_lt_Some in Hc. }
      apply lookup_lt_is_Some_2 in Hlt as [c2 Hc2']. exists c2. split; [exact Hc2'|].
      rewrite Hc2 in Hc2'.
      destruct (M2 r c2 Hc2') as (c1 & Hc1 & _ & _ & S2).
      destruct (M1 r c1 Hc1) as (c0 & Hc0 & _ & _ & S1).
      assert (E0 : Some c0 = Some c) by (rewrite <- Hc0; exact Hc).
      injection E0 as ->.
      apply (S2 runnable); [intros; now apply runnable_marked|].
      apply (S1 runnable); [intros; now apply runnable_marked|exact Hr]. }
    destruct (b1 || b2).
    - apply commit_branch_spec in H as (log & path' & ->). exact HG.
    - injection H as <-. exact HG.
  Qed.

Lemma globals_ok_retire (s : State) :
    Inv s → Wf s → globals_ok s → globals_ok (retirement s).
  Proof. intros _ _ HJ. exact HJ. Qed.

Lemma globals_ok_players (s s' : State) :
    Inv s → Wf s → globals_ok s → reconcile_ghost_players s = Some s' → globals_ok s'.
  Proof.
    intros _ _ HJ H. apply reconcile_ghost_players_footprint in H as (es & ->). exact HJ.
  Qed.

Lemma globals_ok_bullets (s s' : State) :
    Inv s → Wf s → globals_ok s → reconcile_ghost_bullets s = Some s' → globals_ok s'.
  Proof.
    intros _ _ HJ H. apply reconcile_ghost_bullets_footprint in H as (es & ->). exact HJ.
  Qed.

Lemma frame_globals_ok (s s' : State) :
    Inv s ∧ Wf s ∧ globals_ok s → frame i s = Some s' →
    Inv s' ∧ Wf s' ∧ globals_ok s'.
  Proof.
    apply frame_preserves;
      [exact valid|exact globals_ok_event|exact globals_ok_move|exact globals_ok_world
      |exact globals_ok_entities|exact globals_ok_obsolete|exact globals_ok_branch
      |exact globals_ok_retire|exact globals_ok_players|exact globals_ok_bullets].
  Qed.
End GlobalsOk.

Lemma reachable_globals_ok (s : State) : reachable s → globals_ok s.
Proof.
  apply (reachable_preserves globals_ok).
  - constructor.
  - intros i s0 s' Hi HI HW HJ H.
    now apply (frame_globals_ok i Hi s0 s' (conj HI (conj HW HJ)) H).
Qed.

Lemma handle_event_total (s : State) (ev : Event) : Wf s → is_Some (handle_event s ev).
Proof.
  intros ((_ & _ & [ppos Hp]) & _). destruct ev; simpl; try now eexists.
  - destruct (_ && _); [now eexists|]. destruct (rewinding _); now eexists.
  - destruct (can_shoot (player s)); [|now eexists].
    rewrite (Player_shoot_spec mouse_pos random_id s ppos Hp). now eexists.
Qed.

Lemma handle_events_total (evs : list Event) (s : State) :
  Wf s → is_Some (foldlM handle_event s evs).
Proof.
  revert s. induction evs as [|ev evs IH]; intros s HW; simpl; [now eexists|].
  destruct (handle_event_total s ev HW) as [s1 E]. rewrite E. simpl.
  apply IH. now apply handle_event_Wf with s ev.
Qed.

Lemma record_move_total (i : Input) (s : State) : Wf s → is_Some (record_move i s).
Proof.
  intros ((_ & _ & [ppos Hp]) & _ & Hpath). unfold record_move.
  destruct (Rlt_dec _ _); [|now eexists].
  destruct (get_pos_is_Some (player_movement (player s))
              (local_time (player_base (player s))) Hpath) as [c ->].
  rewrite Hp. destruct (vec_truthy c); simpl; now eexists.
Qed.

Lemma on_command_total (m : Command → GameWorld → option (Command * GameWorld))
    (r : cmd_ref) (s : State) (c : Command) :
  m = Command_execute ∨ m = Command_reverse →
  commands s !! r = Some c → runnable c → is_Some (on_command m r s).
Proof.
  intros Hm Hc (Hf & Hb & p & v & id & ml & Hd). unfold on_command. rewrite Hc. simpl.
  destruct Hm as [->| ->].
  - unfold Command_execute. destruct (executed c); simpl; [now eexists|].
    rewrite Hf, Hd. simpl. now eexists.
  - unfold Command_reverse. destruct (executed c); simpl; [|now eexists].
    rewrite Hb, Hd. simpl. now eexists.
Qed.

Lemma GameWorld_update_total (d : R) (s : State) :
  globals_ok s → is_Some (GameWorld_update d s).
Proof.
  intros HG. unfold GameWorld_update.
  match goal with |- is_Some (foldlM ?f ?s0 ?l ≫= _) =>
    destruct (foldlM_total
                (λ b, Forall (λ r : cmd_ref, ∃ c, commands b !! r = Some c ∧ runnable c) l)
                f l s0) as (s1 & -> & _)
  end; [|exact HG|now eexists].
  intros b r Hb Hin. rewrite Forall_forall in Hb.
  destruct (Hb r Hin) as (c & Hc & Hr).
  assert (Hstep : is_Some (global_command_step
                             (negb (rewinding (world s))
                              && bool_decide
                                   ((if Req_dec_T
                                          (if rewinding (world s)
                                           then Rmax 0 (global_time (world s) - d)
                                           else global_time (world s) + d) 0
                                     then 0 else last_global_time (world s))
                                    < (if rewinding (world s)
                                       then Rmax 0 (global_time (world s) - d)
                                       else global_time (world s) + d))) b r)).
  { unfold global_command_step. rewrite Hc. simpl.
    destruct (_ && _ && _); [apply on_command_total with c; auto|].
    destruct (_ && _ && _); [apply on_command_total with c; auto|now eexists]. }
  destruct Hstep as [b' Hb']. exists b'. split; [exact Hb'|].
  apply Forall_forall. intros r' Hin'. destruct (Hb r' Hin') as (c' & Hc' & Hr').
  apply global_command_step_footprint in Hb' as [->|(c0 & b0 & es & Hc0 & _ & ->)].
  - now exists c'.
  - simpl. destruct (decide (r' = r)) as [->|Hne].
    + exists (set_executed b0 c0).
      rewrite list_lookup_insert_eq by (now apply lookup_lt_Some in Hc0).
      split; [reflexivity|].
      assert (E0 : Some c0 = Some c') by (rewrite <- Hc0; exact Hc').
      injection E0 as ->. exact Hr'.
    + exists c'. rewrite list_lookup_insert_ne by congruence. now split.
Qed.

Lemma update_entity_total (d g : R) (rew : bool) (acc : list Entity * Player)
    (e : Entity) :
  player_movement acc.2 ≠ [] → updatable e →
  ∃ acc', update_entity d g rew acc e = Some acc'
          ∧ player_movement acc'.2 = player_movement acc.2.
Proof.
  destruct acc as [done p]. simpl. intros Hp He.
  destruct e as [|t|b|gb|gp]; simpl.
  - unfold Player_update, TimeEntity_update.
    destruct (get_pos_is_Some (player_movement p) (local_time (player_base p)) Hp)
      as [c ->].
    simpl. now eexists.
  - unfold Timer_update, TimeEntity_update. destruct He as [c ->]. simpl. now eexists.
  - unfold Bullet_update, TimeEntity_update. destruct He as [[c ->] _]. simpl.
    now eexists.
  - now eexists.
  - now eexists.
Qed.

Lemma update_entities_total (d : R) (s : State) :
  Wf s → Forall updatable (entities (world s)) → is_Some (update_entities d s).
Proof.
  intros (_ & _ & Hp) Hu. unfold update_entities.
  destruct (foldlM_total
              (λ acc : list Entity * Player,
                 player_movement acc.2 = player_movement (player s))
              (update_entity d (global_time (world s)) (rewinding (world s)))
              (entities (world s)) ([], player s)) as (r & -> & _);
    [|reflexivity|now eexists].
  intros acc e Hacc Hin. rewrite Forall_forall in Hu.
  destruct (update_entity_total d (global_time (world s)) (rewinding (world s)) acc e)
    as (acc' & E & Hm); [now rewrite Hacc|now apply Hu|].
  exists acc'. split; [exact E|congruence].
Qed.

Lemma updates_total (i : Input) (s : State) :
  valid_input i → reachable s → is_Some (updates i s).
Proof.
  intros Hi Hs. pose proof (reachable_Inv s Hs) as HI.
  pose proof (reachable_Wf s Hs) as HW.
  pose proof (reachable_globals_ok s Hs) as HG.
  pose proof (reachable_updatable s Hs) as HU.
  unfold updates. destruct Hi as [Hdt Hev].
  destruct (handle_events_total (events i) s HW) as [sa Ea]. rewrite Ea. simpl.
  assert (Ha : Inv sa ∧ Wf sa ∧ globals_ok sa ∧ Forall updatable (entities (world sa))).
  { clear Hdt Hs. revert s Ea HI HW HG HU.
    induction Hev as [|ev evs Hv Hev IH]; intros s Ea HI HW HG HU; simpl in Ea.
    - injection Ea as <-. tauto.
    - destruct (handle_event s ev) as [s1|] eqn:E; [|discriminate]. simpl in Ea.
      apply (IH s1 Ea).
      + now apply handle_event_Inv with s ev.
      + now apply handle_event_Wf with s ev.
      + now apply (globals_ok_event s ev s1).
      + apply (closed_event (Forall updatable)) with s ev; try assumption.
        intros es p v id H. apply Forall_app. split; [exact H|].
        constructor; [apply fresh_bullet_updatable|constructor]. }
  destruct Ha as (Ia & Wa & Ga & Ua).
  destruct (record_move_total i sa Wa) as [sb Eb]. rewrite Eb. simpl.
  assert (Ib : Inv sb) by now apply record_move_Inv with i sa.
  assert (Wb : Wf sb) by now apply record_move_Wf with i sa.
  assert (Gb : globals_ok sb) by now apply (globals_ok_move i sa sb).
  assert (Ub : Forall updatable (entities (world sb))).
  { now apply (closed_move (Forall updatable) i sa sb). }
  destruct (GameWorld_update_total (dt i) sb Gb) as [sc Ec]. rewrite Ec. simpl.
  assert (Wc : Wf sc) by now apply GameWorld_update_Wf with (dt i) sb.
  assert (Uc : Forall updatable (entities (world sc))).
  { apply (closed_world (Forall updatable)) with i sb; try assumption.
    - intros es p v id H. apply Forall_app. split; [exact H|].
      constructor; [apply fresh_bullet_updatable|constructor].
    - intros es id H. now apply Forall_remove_first. }
  now apply update_entities_total.
Qed.

Lemma collect_moves_total (tid : nat) (h : list Command) (l : list cmd_ref) :
  Forall (λ r : cmd_ref, (r < length h)%nat) l → is_Some (collect_moves tid h l).
Proof.
  induction 1 as [|r l Hr _ [rest IH]]; simpl; [now eexists|].
  destruct (h !! r) as [c|] eqn:Hc; [|apply lookup_ge_None in Hc; lia].
  simpl. rewrite IH. simpl. now eexists.
Qed.

Lemma ghost_player_step_raises (s : State) (tid : nat) (path : Path) :
  collect_moves tid (commands s) (permanent_command_log (world s)) = Some path →
  ghost_player_step s tid = None ↔ conflicting path.
Proof.
  intros Hc. unfold ghost_player_step. rewrite Hc. simpl.
  destruct path as [|step path].
  - split; [discriminate|]. intros (a & _ & Ha & _). now apply elem_of_nil in Ha.
  - rewrite <- sort_path_raises.
    destruct (sort_path (step :: path)) as [sorted|] eqn:Es; simpl; [|done].
    apply sort_path_sorted in Es as [Hp _].
    destruct sorted as [|first sorted].
    { apply Permutation_nil_l in Hp. discriminate. }
    simpl. destruct (last_is_Some (first :: sorted)) as [_ [final ->]]; [done|].
    simpl. destruct (_ && _); [|done]. destruct (existsb _ _); done.
Qed.

Lemma ghost_players_fold_raises (l : list nat) (s : State) :
  Wf s →
  foldlM ghost_player_step s l = None
  ↔ ∃ tid path, tid ∈ l
                ∧ collect_moves tid (commands s) (permanent_command_log (world s))
                  = Some path
                ∧ conflicting path.
Proof.
  intros HW. revert s HW. induction l as [|tid l IH]; intros s HW; simpl.
  - split; [discriminate|]. intros (t & _ & Ht & _). now apply elem_of_nil in Ht.
  - destruct HW as ((Hlog & Hd & Hp) & Hgc & Hpath).
    destruct (collect_moves_total tid (commands s) _ Hlog) as [path Hc].
    pose proof (ghost_player_step_raises s tid path Hc) as Hr.
    destruct (ghost_player_step s tid) as [s1|] eqn:E; simpl.
    + assert (Hs1 : commands s1 = commands s
                    ∧ permanent_command_log (world s1) = permanent_command_log (world s)
                    ∧ Wf s1).
      { apply ghost_player_step_footprint in E as [->|[(g & _ & _ & _ & ->)| ->]];
          repeat split; assumption. }
      destruct Hs1 as (E1 & E2 & HW1). rewrite (IH s1 HW1), E1, E2. split.
      * intros (t & p & Ht & Hrest). exists t, p. split; [now right|exact Hrest].
      * intros (t & p & Ht & Hcp & Hcf). apply elem_of_cons in Ht as [->|Ht].
        -- rewrite Hc in Hcp. injection Hcp as <-. apply Hr in Hcf. discriminate.
        -- now exists t, p.
    + split; [intros _|done]. exists tid, path. split; [now left|]. split; [exact Hc|].
      now apply Hr.
Qed.

Lemma reconcile_ghost_players_raises (s : State) :
  Wf s →
  reconcile_ghost_players s = None
  ↔ ∃ tid path, (tid < next_timeline_id (world s))%nat
                ∧ collect_moves tid (commands s) (permanent_command_log (world s))
                  = Some path
                ∧ conflicting path.
Proof.
  intros HW. unfold reconcile_ghost_players. rewrite (ghost_players_fold_raises _ s HW).
  split; intros (t & p & Ht & H); exists t, p; (split; [|exact H]).
  - apply elem_of_seq in Ht. lia.
  - apply elem_of_seq. lia.
Qed.

Lemma ghost_bullet_step_total (r : cmd_ref) (c : Command) (w : GameWorld) (tid : nat) :
  is_shoot c = true → shoot_has_data c → is_Some (ghost_bullet_step r c w tid).
Proof.
  intros Hs Hd. destruct (Hd Hs) as (p & v & id & ml & E). unfold ghost_bullet_step.
  destruct (_ && _); [|now eexists]. destruct (existsb _ _); [now eexists|].
  rewrite E. now eexists.
Qed.

Lemma reconcile_ghost_bullets_total (s : State) :
  store_ok s → is_Some (reconcile_ghost_bullets s).
Proof.
  intros (Hlog & Hd & Hp). unfold reconcile_ghost_bullets.
  destruct (foldlM_total (λ b, commands b = commands s) ghost_bullets_of_command
              (permanent_command_log (world s)) s) as (s' & -> & _);
    [|reflexivity|now eexists].
  intros b r Hb Hin. rewrite Forall_forall in Hlog. specialize (Hlog r Hin).
  rewrite <- Hb in Hlog. unfold ghost_bullets_of_command.
  destruct (commands b !! r) as [c|] eqn:Hc; [|apply lookup_ge_None in Hc; lia].
  simpl.
  destruct (is_shoot c) eqn:Hs; [|now exists b].
  assert (Hcd : shoot_has_data c).
  { rewrite Forall_forall in Hd. apply Hd. rewrite <- Hb.
    now apply list_elem_of_lookup_2 with r. }
  destruct (foldlM_total (λ _ : GameWorld, True) (ghost_bullet_step r c)
              (elements (ghosted_timelines c)) (world b)) as (w & -> & _);
    [|exact I|].
  - intros w tid _ _. destruct (ghost_bullet_step_total r c w tid Hs Hcd) as [w' E].
    now exists w'.
  - simpl. eexists. split; [reflexivity|]. exact Hb.
Qed.


(** ** Two more runs of the loop *)

Lemma sample_lt_times (x y : R * Vec) :
  x.1 ≠ y.1 → sample_lt x y = Some (bool_decide (x.1 < y.1)).
Proof. intros H. unfold sample_lt. now rewrite decide_False by assumption. Qed.

Lemma run_c_trace :
  ∃ s1 s2 s3 s4 g,
    frame run_b_rewind_moving initial_state = Some s1
    ∧ frame run_b_still_moving s1 = Some s2
    ∧ frame run_c_resume s2 = Some s3
    ∧ frame run_c_replay s3 = Some s4
    ∧ reachable s2 ∧ reachable s3 ∧ reachable s4
    ∧ rewinding (world s2) = true
    ∧ permanent_command_log (world s2) = [0; 1]%nat
    ∧ entities (world s4) !! 36%nat = Some (EGhostPlayer g)
    ∧ gp_timeline_id g = 1%nat.
Proof.
  eexists _, _, _, _, _.
  match goal with |- ?A ∧ _ => assert (E1 : A) end.
  { unfold frame, initial_state, GameWorld_init, Player_init, MAX_REWINDS,
      run_b_rewind_moving. norm.
    step. { simpl. norm. reflexivity. }
    step. { quiet_record_move. }
    step. { unfold GameWorld_update. norm. simpl. rsimp. simpl. norm. reflexivity. }
    step. { unfold update_entities. norm. simpl. norm.
            rewrite !Rmax_neg_factor by lra. reflexivity. }
    step. { unfold branch_evaluation, branch_trigger, drop_obsolete. norm. simpl.
            reflexivity. }
    step. { quiet_ghost_players. }
    unfold reconcile_ghost_bullets. norm. simpl. reflexivity. }
  split; [exact E1|].
  match goal with |- ?A ∧ _ => assert (E2 : A) end.
  { unfold frame, run_b_still_moving. norm.
    step. { simpl. reflexivity. }
    step. { quiet_record_move. }
    step. { unfold GameWorld_update. norm. simpl. rsimp. simpl. norm. reflexivity. }
    step. { unfold update_entities. norm. simpl. norm.
            rewrite !Rmax_neg_factor by lra. reflexivity. }
    step. { unfold branch_evaluation, branch_trigger, drop_obsolete. norm. simpl.
            reflexivity. }
    step. { quiet_ghost_players. }
    unfold reconcile_ghost_bullets. norm. simpl. reflexivity. }
  split; [exact E2|].
  match goal with |- ?A ∧ _ => assert (E3 : A) end.
  { unfold frame, run_c_resume. norm.
    step. { simpl. norm. reflexivity. }
    step. { quiet_record_move. }
    step. { unfold GameWorld_update. norm. simpl. rsimp. simpl. norm. reflexivity. }
    step. { unfold update_entities. norm. simpl. norm. rsimp.
            rewrite !lerp_0, time_factor_center. rsimp. reflexivity. }
    step. { (* the branch: the two moves become the path of a ghost player *)
            unfold branch_evaluation, branch_trigger, drop_obsolete. norm.
            rewrite !filter_cons_True
              by (first [reflexivity | simpl; apply bool_decide_eq_false_2; lra]).
            rewrite filter_nil. simpl.
            step. { unfold prune_future_player_moves. norm. simpl.
                    unfold player_move_step. norm. simpl.
                    unfold to_ghost. norm. simpl.
                    repeat (rsimp; rewrite ?bool_decide_eq_true_2 by set_solver;
                            simpl; norm).
                    reflexivity. }
            simpl. unfold commit_branch. norm. simpl.
            unfold add_step, Path. simpl.
            rewrite filter_cons_True by (simpl; lra).
            rewrite !filter_cons_False by (simpl; lra). rewrite filter_nil.
            simpl. norm. reflexivity. }
    step. { (* the ghost is not yet in its window: the pass removes it *)
            unfold retirement. norm. simpl. norm. rsimp. simpl. norm.
            unfold reconcile_ghost_players. norm. simpl.
            unfold ghost_player_step. norm. simpl.
            rewrite !(bool_decide_eq_false_2 (0%nat ∈ _))
              by (rewrite elem_of_union, elem_of_singleton, elem_of_empty; lia).
            simpl.
            rewrite !(bool_decide_eq_true_2 (1%nat ∈ _))
              by (rewrite elem_of_union, elem_of_singleton, elem_of_empty; lia).
            simpl. rewrite sample_lt_times by (simpl; lra). simpl. rsimp. simpl.
            rsimp. simpl. norm.
            rewrite !filter_cons_True by reflexivity.
            rewrite filter_cons_False by (simpl; discriminate).
            rewrite filter_nil. reflexivity. }
    unfold reconcile_ghost_bullets. norm. simpl.
    unfold ghost_bullets_of_command. norm. simpl. reflexivity. }
  split; [exact E3|].
  match goal with |- ?A ∧ _ => assert (E4 : A) end.
  { unfold frame, run_c_replay. norm.
    step. { simpl. reflexivity. }
    step. { quiet_record_move. }
    step. { unfold GameWorld_update. norm. simpl. rsimp. simpl. norm. reflexivity. }
    step. { unfold update_entities. norm. simpl. norm. rewrite time_factor_center.
            rsimp. reflexivity. }
    step. { unfold branch_evaluation, branch_trigger, drop_obsolete. norm.
            rewrite !filter_cons_True
              by (first [reflexivity | simpl; apply bool_decide_eq_false_2; lra]).
            rewrite filter_nil. simpl. reflexivity. }
    step. { (* the global clock is inside the window of the moves: the pass
               makes the ghost player of timeline 1 *)
            unfold retirement. norm. simpl. norm.
            unfold reconcile_ghost_players. norm. simpl.
            unfold ghost_player_step. norm. simpl.
            rewrite !(bool_decide_eq_false_2 (0%nat ∈ _))
              by (rewrite elem_of_union, elem_of_singleton, elem_of_empty; lia).
            simpl.
            rewrite !(bool_decide_eq_true_2 (1%nat ∈ _))
              by (rewrite elem_of_union, elem_of_singleton, elem_of_empty; lia).
            simpl. rewrite sample_lt_times by (simpl; lra). simpl. rsimp. simpl.
            rsimp. simpl. norm. reflexivity. }
    unfold reconcile_ghost_bullets. norm. simpl.
    unfold ghost_bullets_of_command. norm. simpl. reflexivity. }
  split; [exact E4|].
  match goal with |- reachable ?s ∧ _ => assert (R2 : reachable s) end.
  { eapply reachable_frame; [eapply reachable_frame; [apply reachable_init| |exact E1]
                            | |exact E2].
    - split; [simpl; lra|]. repeat constructor.
    - split; [simpl; lra|]. constructor. }
  split; [exact R2|].
  match goal with |- reachable ?s ∧ _ => assert (R3 : reachable s) end.
  { eapply reachable_frame; [exact R2| |exact E3].
    split; [simpl; lra|]. repeat constructor. }
  split; [exact R3|]. split.
  { eapply reachable_frame; [exact R3| |exact E4]. split; [simpl; lra|]. constructor. }
  repeat split.
Qed.

Lemma normalize_right : 0 < (normalize (1 - 0, 0 - 0)).1.
Proof.
  unfold normalize, vscale. simpl.
  assert (0 < vlength (1 - 0, 0 - 0)).
  { apply vlength_positive. intros [= H _]. lra. }
  assert (0 < / vlength (1 - 0, 0 - 0)) by now apply Rinv_0_lt_compat.
  nra.
Qed.

Lemma normalize_left : (normalize (0 - 1, 0 - 0)).1 < 0.
Proof.
  unfold normalize, vscale. simpl.
  assert (0 < vlength (0 - 1, 0 - 0)).
  { apply vlength_positive. intros [= H _]. lra. }
  assert (0 < / vlength (0 - 1, 0 - 0)) by now apply Rinv_0_lt_compat.
  nra.
Qed.

Lemma run_d_trace :
  ∃ s1 s2 s3 s4 p q,
    frame run_d_right initial_state = Some s1
    ∧ frame run_d_left s1 = Some s2
    ∧ reachable s2
    ∧ updates run_c_resume s2 = Some s3
    ∧ branch_evaluation (drop_obsolete s3) = Some s4
    ∧ next_timeline_id (world s4) = 2%nat
    ∧ collect_moves 1 (commands s4) (permanent_command_log (world s4)) = Some [p; q]
    ∧ p.1 = q.1 ∧ p.2 ≠ q.2.
Proof.
  eexists _, _, _, _, _, _.
  match goal with |- ?A ∧ _ => assert (E1 : A) end.
  { unfold frame, initial_state, GameWorld_init, Player_init, MAX_REWINDS,
      run_d_right. norm.
    step. { simpl. norm. reflexivity. }
    step. { quiet_record_move. }
    step. { unfold GameWorld_update. norm. simpl. rsimp. simpl. norm. reflexivity. }
    step. { unfold update_entities. norm. simpl. norm.
            rewrite !Rmax_neg_factor by lra. reflexivity. }
    step. { unfold branch_evaluation, branch_trigger, drop_obsolete. norm. simpl.
            reflexivity. }
    step. { quiet_ghost_players. }
    unfold reconcile_ghost_bullets. norm. simpl. reflexivity. }
  split; [exact E1|].
  match goal with |- ?A ∧ _ => assert (E2 : A) end.
  { unfold frame, run_d_left. norm.
    step. { simpl. reflexivity. }
    step. { quiet_record_move. }
    step. { unfold GameWorld_update. norm. simpl. rsimp. simpl. norm. reflexivity. }
    step. { unfold update_entities. norm. simpl. norm.
            rewrite !Rmax_neg_factor by lra. reflexivity. }
    step. { unfold branch_evaluation, branch_trigger, drop_obsolete. norm. simpl.
            reflexivity. }
    step. { quiet_ghost_players. }
    unfold reconcile_ghost_bullets. norm. simpl. reflexivity. }
  split; [exact E2|]. split.
  { eapply reachable_frame; [eapply reachable_frame; [apply reachable_init| |exact E1]
                            | |exact E2].
    - split; [simpl; lra|]. repeat constructor.
    - split; [simpl; lra|]. constructor. }
  match goal with |- ?A ∧ _ => assert (E3 : A) end.
  { unfold updates, run_c_resume. norm.
    step. { simpl. norm. reflexivity. }
    step. { quiet_record_move. }
    step. { unfold GameWorld_update. norm. simpl. rsimp. simpl. norm. reflexivity. }
    unfold update_entities. norm. simpl. norm. rsimp.
    rewrite !lerp_0, time_factor_center. rsimp. reflexivity. }
  split; [exact E3|].
  match goal with |- ?A ∧ _ => assert (E4 : A) end.
  { unfold branch_evaluation, branch_trigger, drop_obsolete. norm.
    rewrite !filter_cons_True
      by (first [reflexivity | simpl; apply bool_decide_eq_false_2; lra]).
    rewrite filter_nil. simpl.
    step. { unfold prune_future_player_moves. norm. simpl.
            unfold player_move_step. norm. simpl.
            unfold to_ghost. norm. simpl.
            repeat (rsimp; rewrite ?bool_decide_eq_true_2 by set_solver;
                    simpl; norm).
            reflexivity. }
    simpl. unfold commit_branch. norm. simpl.
    unfold add_step, Path. simpl.
    rewrite filter_cons_True by (simpl; lra).
    rewrite !filter_cons_False by (simpl; lra). rewrite filter_nil.
    simpl. norm. reflexivity. }
  split; [exact E4|]. split; [reflexivity|]. split.
  { simpl.
    rewrite !(bool_decide_eq_true_2 (1%nat ∈ _))
      by (rewrite elem_of_union, elem_of_singleton, elem_of_empty; lia).
    reflexivity. }
  split; [reflexivity|]. simpl. intros [= H _].
  pose proof normalize_right as Hr. pose proof normalize_left as Hl.
  unfold normalize, vadd, vscale in H, Hr, Hl. simpl in H, Hr, Hl. lra.
Qed.



(** * The timers of the grid *)

Lemma timers_app (es es' : list Entity) : timers (es ++ es') = timers es ++ timers es'.
Proof. apply omap_app. Qed.

Lemma timers_cons (e : Entity) (es : list Entity) :
  timers (e :: es) = match e with ETimer t => t :: timers es | _ => timers es end.
Proof. now destruct e. Qed.

Lemma timers_filter (P : Entity → Prop) (dec : ∀ e, Decision (P e)) (es : list Entity) :
  (∀ t, P (ETimer t)) → timers (filter P es) = timers es.
Proof.
  intros HP. induction es as [|e es IH]; [reflexivity|].
  destruct (decide (P e)) as [He|He].
  - rewrite filter_cons_True by exact He. now rewrite !timers_cons, IH.
  - rewrite filter_cons_False by exact He. rewrite IH, timers_cons.
    destruct e as [|t|b|gb|gp]; try reflexivity. destruct He. apply HP.
Qed.

Lemma timers_remove_first (id : Z) (es : list Entity) :
  timers (remove_first (has_bullet_id id) es) = timers es.
Proof.
  induction es as [|e es IH]; [reflexivity|]. cbn [remove_first].
  destruct (has_bullet_id id e) eqn:E.
  - rewrite timers_cons. destruct e as [|t|b|gb|gp]; try reflexivity; discriminate.
  - now rewrite !timers_cons, IH.
Qed.

(** What the statements of a pass other than the two updates keep: the
    timers and the global time. *)
Section TimersKept.
Variable T : list Timer.
Variable g : R.

Lemma kept_bullet (es : list Entity) (p v : Vec) (id : Z) :
    timers es = T →
    timers (es ++ [EBullet (Bullet_init p v id bullet_default_lifetime)]) = T.
  Proof. intros H. rewrite timers_app, H. apply app_nil_r. Qed.

Lemma kept_remove (es : list Entity) (id : Z) :
    timers es = T → timers (remove_first (has_bullet_id id) es) = T.
  Proof. intros H. now rewrite timers_remove_first. Qed.

Lemma kept_filter (P : Entity → Prop) (dec : ∀ e, Decision (P e)) (es : list Entity) :
    (∀ t, P (ETimer t)) → timers es = T → timers (filter P es) = T.
  Proof. intros HP H. now rewrite timers_filter. Qed.

Lemma kept_ghost_bullet (es : list Entity) (gb : GhostBullet) :
    timers es = T → timers (es ++ [EGhostBullet gb]) = T.
  Proof. intros H. rewrite timers_app, H. apply app_nil_r. Qed.

Lemma kept_ghost_player (es : list Entity) (gp : GhostPlayer) :
    timers es = T →
    Forall (λ e, is_ghost_player_of (gp_timeline_id gp) e = false) es →
    timers (es ++ [EGhostPlayer gp]) = T.
  Proof. intros H _. rewrite timers_app, H. apply app_nil_r. Qed.

Lemma kept_event (s : State) (ev : Event) (s' : State) :
    Inv s → Wf s → timers (entities (world s)) = T ∧ global_time (world s) = g →
    valid_event ev → handle_event s ev = Some s' →
    timers (entities (world s')) = T ∧ global_time (world s') = g.
  Proof.
    intros HI HW [HT Hg] Hv H. split.
    - now apply (closed_event (λ es, timers es = T) kept_bullet s ev s').
    - apply handle_event_footprint in H
        as [->|[(b & -> & Hb)|(target & id & ppos & _ & Hp & H)]]; [exact Hg..|].
      rewrite (Player_shoot_spec target id s ppos Hp) in H. now injection H as <-.
  Qed.

Lemma kept_move (i : Input) (s s' : State) :
    Inv s → Wf s → timers (entities (world s)) = T ∧ global_time (world s) = g →
    record_move i s = Some s' →
    timers (entities (world s')) = T ∧ global_time (world s') = g.
  Proof.
    intros _ _ HK H.
    apply record_move_footprint in H as [->|(c & path & _ & _ & _ & _ & _ & ->)]; exact HK.
  Qed.

Lemma kept_obsolete (s : State) :
    Inv s → Wf s → timers (entities (world s)) = T ∧ global_time (world s) = g →
    timers (entities (world (drop_obsolete s))) = T
    ∧ global_time (world (drop_obsolete s)) = g.
  Proof.
    intros HI HW [HT Hg]. split; [now apply (closed_obsolete (λ es, timers es = T) kept_filter)|].
    destruct (drop_obsolete_footprint s) as [es ->]. exact Hg.
  Qed.

Lemma kept_branch (s s' : State) :
    Inv s → Wf s → timers (entities (world s)) = T ∧ global_time (world s) = g →
    branch_evaluation s = Some s' →
    timers (entities (world (set_was_rewinding (rewinding (world s')) s'))) = T
    ∧ global_time (world (set_was_rewinding (rewinding (world s')) s')) = g.
  Proof.
    intros HI HW [HT Hg] H. split.
    - now apply (closed_branch (λ es, timers es = T) kept_ghost_bullet kept_ghost_player s s').
    - simpl.
      assert (HP : Forall (λ _ : Command, True) (commands s)) by now apply Forall_true.
      destruct (branch_evaluation_cases (λ _, True) s s' (λ _ _, I) HP H)
        as [[_ ->]|(_ & ghosts & gcs & cmds & _ & _ & [[_ ->]|[_ Hc]])];
        [exact Hg..|]. clear H. rename Hc into H.
      unfold commit_branch in H.
      match type of H with (?o ≫= _) = _ => destruct o as [log|] end; [|discriminate].
      simpl in H.
      match type of H with (?o ≫= _) = _ => destruct o as [path|] end; [|discriminate].
      simpl in H. now injection H as <-.
  Qed.

Lemma kept_retire (s : State) :
    Inv s → Wf s → timers (entities (world s)) = T ∧ global_time (world s) = g →
    timers (entities (world (retirement s))) = T
    ∧ global_time (world (retirement s)) = g.
  Proof.
    intros HI HW [HT Hg]. split; [now apply (closed_retire (λ es, timers es = T) kept_filter)|exact Hg].
  Qed.

Lemma kept_players (s s' : State) :
    Inv s → Wf s → timers (entities (world s)) = T ∧ global_time (world s) = g →
    reconcile_ghost_players s = Some s' →
    timers (entities (world s')) = T ∧ global_time (world s') = g.
  Proof.
    intros HI HW [HT Hg] H. split.
    - now apply (closed_players (λ es, timers es = T) kept_filter kept_ghost_player s s').
    - apply reconcile_ghost_players_footprint in H as [es ->]. exact Hg.
  Qed.

Lemma kept_bullets (s s' : State) :
    Inv s → Wf s → timers (entities (world s)) = T ∧ global_time (world s) = g →
    reconcile_ghost_bullets s = Some s' →
    timers (entities (world s')) = T ∧ global_time (world s') = g.
  Proof.
    intros HI HW [HT Hg] H. split.
    - now apply (closed_bullets (λ es, timers es = T) kept_filter kept_ghost_bullet s s').
    - apply reconcile_ghost_bullets_footprint in H as [es ->]. exact Hg.
  Qed.
End TimersKept.

(** [GameWorld.update] moves the global clock and keeps the timers. *)
Lemma GameWorld_update_clock (i : Input) (s s' : State) :
  Inv s → Wf s → GameWorld_update (dt i) s = Some s' →
  timers (entities (world s')) = timers (entities (world s))
  ∧ rewinding (world s') = rewinding (world s)
  ∧ global_time (world s')
    = if rewinding (world s) then Rmax 0 (global_time (world s) - dt i)
      else global_time (world s) + dt i.
Proof.
  intros HI HW H. split.
  { apply (closed_world (λ es, timers es = timers (entities (world s)))
             (kept_bullet _) (kept_remove _) i s s' HI HW eq_refl H). }
  unfold GameWorld_update in H.
  match type of H with (?o ≫= _) = _ => destruct o as [s1|] eqn:E end; [|discriminate].
  simpl in H. injection H as <-. simpl.
  apply global_commands_fold_flags in E as (G & Rw & _).
  2:{ simpl. now intros ->. }
  simpl in G, Rw. split; [exact Rw|exact G].
Qed.

(** The loop over the entities updates every timer once, in place. *)
Lemma update_entities_fold_timers (d g : R) (rew : bool) (es done done' : list Entity)
    (p p' : Player) :
  foldlM (update_entity d g rew) (done, p) es = Some (done', p') →
  ∃ ts, timers done' = timers done ++ ts
        ∧ Forall2 (λ t t', Timer_update d rew t = Some t') (timers es) ts.
Proof.
  revert done p. induction es as [|e es IH]; intros done p H.
  - injection H as <- <-. exists []. split; [now rewrite app_nil_r|constructor].
  - cbn [foldlM] in H.
    destruct (update_entity d g rew (done, p) e) as [[done1 p1]|] eqn:E; [|discriminate].
    simpl in H. apply IH in H as (ts & Hts & HF). simpl in E.
    destruct e as [|t|b|gb|gp].
    + destruct (Player_update d rew p); [|discriminate]. injection E as <- <-.
      exists ts. rewrite Hts, timers_app. split; [now rewrite app_nil_r|exact HF].
    + destruct (Timer_update d rew t) as [t'|] eqn:Et; [|discriminate].
      injection E as <- <-. exists (t' :: ts). rewrite Hts, timers_app.
      split; [now rewrite <- app_assoc|]. now constructor.
    + destruct (Bullet_update d rew b); [|discriminate]. injection E as <- <-.
      exists ts. rewrite Hts, timers_app. split; [now rewrite app_nil_r|exact HF].
    + injection E as <- <-.
      exists ts. rewrite Hts, timers_app. split; [now rewrite app_nil_r|exact HF].
    + injection E as <- <-.
      exists ts. rewrite Hts, timers_app. split; [now rewrite app_nil_r|exact HF].
Qed.

Lemma update_entities_timers (d : R) (s s' : State) :
  update_entities d s = Some s' →
  global_time (world s') = global_time (world s)
  ∧ Forall2 (λ t t', Timer_update d (rewinding (world s)) t = Some t')
      (timers (entities (world s))) (timers (entities (world s'))).
Proof.
  intros H. unfold update_entities in H.
  match type of H with (?o ≫= _) = _ => destruct o as [[done' p']|] eqn:E end;
    [|discriminate].
  simpl in H. injection H as <-. simpl. split; [reflexivity|].
  apply update_entities_fold_timers in E as (ts & Hts & HF). simpl in Hts.
  now rewrite Hts.
Qed.

(** One update of a timer that shows [g], after the global clock moved by
    the same frame time in the same direction. *)
Lemma Timer_update_shows (d g : R) (rew : bool) (t0 t t' : Timer) :
  0 <= d → 0 <= g → timer_shows g t0 t → Timer_update d rew t = Some t' →
  timer_shows (if rew then Rmax 0 (g - d) else g + d) t0 t'.
Proof.
  intros Hd Hg (p & Hp & Hb & Hc) H. exists p. split; [exact Hp|].
  unfold Timer_update, TimeEntity_update in H. rewrite Hb in H. simpl in H.
  rewrite Hp in H. simpl in H. injection H as <-. simpl.
  pose proof (time_factor_at_range p) as [Hf _].
  assert (E : Rmax (g * time_factor_at p + (if rew then - d else d) * time_factor_at p) 0
              = (if rew then Rmax 0 (g - d) else g + d) * time_factor_at p).
  { destruct rew.
    - unfold Rmax. destruct (Rle_dec 0 (g - d)) as [H1|H1];
        destruct (Rle_dec _ 0) as [H2|H2]; nra.
    - rewrite Rmax_left by nra. lra. }
  rewrite E. unfold set_local_time. simpl. split; [reflexivity|].
  apply Rmax_left. destruct rew; [|nra].
  unfold Rmax. destruct (Rle_dec 0 (g - d)); nra.
Qed.

Lemma frame_timers_synced (i : Input) (s s' : State) :
  valid_input i → Inv s → Wf s → timers_synced s → frame i s = Some s' →
  timers_synced s'.
Proof.
  intros Hi HI HW HJ H. unfold timers_synced in *.
  set (T := timers (entities (world s))) in *. set (g := global_time (world s)) in *.
  rewrite frame_updates in H. unfold updates in H.
  destruct (foldlM handle_event s (events i)) as [sa|] eqn:Ea; [|discriminate].
  simpl in H. destruct (record_move i sa) as [sb|] eqn:Eb; [|discriminate].
  simpl in H. destruct (GameWorld_update (dt i) sb) as [sc|] eqn:Ec; [|discriminate].
  simpl in H. destruct (update_entities (dt i) sc) as [s1|] eqn:E1; [|discriminate].
  simpl in H.
  destruct (branch_evaluation (drop_obsolete s1)) as [s2|] eqn:E2; [|discriminate].
  simpl in H.
  destruct (reconcile_ghost_players _) as [s3|] eqn:E3; [|discriminate]. simpl in H.
  destruct Hi as [Hdt Hev].
  apply (events_preserve _ (kept_event T g)) in Ea as (Ia & Wa & Ka);
    [|exact Hev|exact (conj HI (conj HW (conj eq_refl eq_refl)))].
  assert (Ib : Inv sb) by now apply record_move_Inv with i sa.
  assert (Wb : Wf sb) by now apply record_move_Wf with i sa.
  pose proof (kept_move T g i sa sb Ia Wa Ka Eb) as [Tb Gb].
  assert (Ic : Inv sc) by now apply GameWorld_update_Inv with (dt i) sb.
  assert (Wc : Wf sc) by now apply GameWorld_update_Wf with (dt i) sb.
  pose proof (GameWorld_update_clock i sb sc Ib Wb Ec) as (Tc & Rc & Gc).
  rewrite Tb in Tc. rewrite Gb in Gc.
  assert (I1 : Inv s1) by now apply update_entities_Inv with (dt i) sc.
  assert (W1 : Wf s1) by now apply update_entities_Wf with (dt i) sc.
  pose proof (update_entities_timers _ _ _ E1) as (G1 & F1).
  rewrite Tc, Rc in F1. rewrite Gc in G1.
  set (g1 := global_time (world s1)) in *.
  assert (J1 : Forall2 (timer_shows g1) (timers timer_grid)
                 (timers (entities (world s1)))).
  { rewrite G1. clear - HJ F1 Hdt HI.
    pose proof (inv_global_time s HI) as Hg. fold g in Hg.
    revert F1. generalize (timers (entities (world s1))).
    induction HJ as [|t0 t ts0 ts Ht _ IH]; intros ts1 F1.
    - apply Forall2_nil_inv_l in F1 as ->. constructor.
    - apply Forall2_cons_inv_l in F1 as (t1 & ts1' & Ht1 & F1 & ->).
      constructor; [|now apply IH].
      now apply Timer_update_shows with t. }
  set (T1 := timers (entities (world s1))) in *.
  assert (K1 : timers (entities (world s1)) = T1 ∧ global_time (world s1) = g1)
    by now split.
  assert (I1' : Inv (drop_obsolete s1)) by now apply drop_obsolete_Inv.
  assert (W1' : Wf (drop_obsolete s1)) by now apply drop_obsolete_Wf.
  pose proof (kept_obsolete T1 g1 s1 I1 W1 K1) as K1'.
  assert (I2 : Inv s2) by now apply branch_evaluation_Inv with (drop_obsolete s1).
  assert (W2 : Wf s2) by now apply branch_evaluation_Wf with (drop_obsolete s1).
  pose proof (kept_branch T1 g1 _ _ I1' W1' K1' E2) as K2.
  set (s2' := set_was_rewinding (rewinding (world s2)) s2) in *.
  assert (I2' : Inv s2') by (destruct I2; now constructor).
  assert (W2' : Wf s2') by exact W2.
  assert (I2r : Inv (retirement s2')) by now apply retirement_Inv.
  assert (W2r : Wf (retirement s2')) by exact W2'.
  pose proof (kept_retire T1 g1 _ I2' W2' K2) as K2r.
  assert (I3 : Inv s3) by now apply reconcile_ghost_players_Inv with (retirement s2').
  assert (W3 : Wf s3) by now apply reconcile_ghost_players_Wf with (retirement s2').
  pose proof (kept_players T1 g1 _ _ I2r W2r K2r E3) as K3.
  destruct (kept_bullets T1 g1 _ _ I3 W3 K3 H) as [-> ->]. exact J1.
Qed.

Lemma timer_grid_synced : timers_synced initial_state.
Proof.
  unfold timers_synced. simpl.
  repeat (constructor;
          [eexists; split; [reflexivity|]; unfold Timer_init, TimeEntity_init,
             set_local_time; simpl; rewrite Rmult_0_l; split; reflexivity|]).
  constructor.
Qed.


